(** * chat-p2p: causal synchronisation engine, peer registry, signalling
      relay and data-channel send, embedded from the TypeScript sources.

    Conventions of the embedding.
    - JavaScript numbers that hold millisecond timestamps are integers
      ([Z]); a counter of a vector clock is an integer or [NaN] ([number]).
    - A plain object used as a dictionary ([VectorClock]) is the [gmap] of
      its own properties; a read [obj[k]] also finds the members every
      plain object inherits from [Object.prototype] ([orZero]), and a
      write [obj[k] = v] goes through the inherited setter of "__proto__"
      ([assign]).
    - [String.prototype.localeCompare] belongs to the host and depends on
      its locale: it is a parameter ([Collation]).
    - A JavaScript [Map] iterates in insertion order, so it is an association
      list with unique keys ([JsMap]); a JavaScript [Set] of strings is a
      duplicate-free list in insertion order ([JsSet]).
    - [Date.now()] and [Math.random()] are explicit arguments.
    - Optional callbacks and socket emissions are recorded in output logs. *)

From Stdlib Require Import ZArith String List Permutation Sorted.
From stdpp Require Import base gmap list strings pretty.

Local Open Scope string_scope.
Local Open Scope Z_scope.
Local Open Scope list_scope.

(** ** Insertion-ordered [Map<string, V>] *)

Module JsMap.
Section Defs.
Context {V : Type}.

Definition t : Type := list (string * V).

Definition empty : t := [].

Fixpoint get (k : string) (m : t) : option V :=
match m with
| [] => None
| (k', v) :: r => if String.eqb k' k then Some v else get k r
end.

Definition has (k : string) (m : t) : bool :=
match get k m with Some _ => true | None => false end.

  (** [Map.prototype.set]: an existing key keeps its position. *)
Fixpoint set (k : string) (v : V) (m : t) : t :=
match m with
| [] => [(k, v)]
| (k', v') :: r =>
    if String.eqb k' k then (k, v) :: r else (k', v') :: set k v r
end.

Fixpoint delete (k : string) (m : t) : t :=
match m with
| [] => []
| (k', v') :: r =>
    if String.eqb k' k then delete k r else (k', v') :: delete k r
end.

Definition keys (m : t) : list string := map fst m.
Definition values (m : t) : list V := map snd m.
Definition entries (m : t) : list (string * V) := m.
Definition size (m : t) : Z := Z.of_nat (length m).
End Defs.
Arguments t : clear implicits.
End JsMap.

(** ** Insertion-ordered [Set<string>] *)

Module JsSet.
Definition t : Type := list string.

Definition has (x : string) (s : t) : bool :=
  existsb (String.eqb x) s.

Definition add (x : string) (s : t) : t :=
  if has x s then s else s ++ [x].

Definition delete (x : string) (s : t) : t :=
  filter (fun y => negb (String.eqb y x)) s.

Definition size (s : t) : Z := Z.of_nat (length s).
End JsSet.

(** ** [Array.prototype.sort] with a comparator

    The language standard makes the sort stable; a stable insertion sort
    is the reference behaviour for a consistent comparator. *)

Section Sort.
Context {A : Type} (cmp : A → A → Z).

Fixpoint sort_insert (x : A) (l : list A) : list A :=
  match l with
  | [] => [x]
  | y :: r => if cmp x y <=? 0 then x :: y :: r else y :: sort_insert x r
  end.

Definition js_sort (l : list A) : list A := foldr sort_insert [] l.

(** [a] may precede [b] in a sorted result. *)
Definition cmp_le (a b : A) : Prop := cmp a b <= 0.
End Sort.

(** A [for ... of] loop whose body conditionally pushes onto an array. *)
Definition for_push {A : Type} (keep : A → bool) (l : list A) : list A :=
  foldl (fun acc x => if keep x then acc ++ [x] else acc) [] l.

(** [Array.prototype.slice(0, n)] *)
Definition slice0 {A : Type} (n : nat) (l : list A) : list A := take n l.

(** [String.prototype.localeCompare] called without a locale: the
    collation of the host's default locale.  It is not part of the
    sources; an engine runs against whatever collation its host has. *)
Class Collation := localeCompare : string → string → Z.

(** ** Numbers and plain objects *)

(** A counter: an integer, or [NaN], which arithmetic on a value that is
    not a number leaves behind. *)
Inductive number := Num (z : Z) | NaN.

(** The own enumerable properties of a [VectorClock] object. *)
Abbreviation VectorClock := (gmap string number).

(** The property names every plain object inherits from
    [Object.prototype]. *)
Definition objectPrototype : list string :=
  ["constructor"; "__defineGetter__"; "__defineSetter__"; "hasOwnProperty";
   "__lookupGetter__"; "__lookupSetter__"; "isPrototypeOf";
   "propertyIsEnumerable"; "toString"; "valueOf"; "__proto__";
   "toLocaleString"].

Definition inherited (k : string) : bool :=
  existsb (String.eqb k) objectPrototype.

(** The value of [obj[k] || 0]: a counter, or a member of the prototype
    (a function or, for "__proto__", the prototype object itself), which
    is truthy and so is not replaced by 0. *)
Inductive operand := Count (z : Z) | Member.

(** [obj[k] || 0]: an own property shadows the prototype; an own [NaN] or
    0 and a name found nowhere give 0. *)
Definition orZero (obj : VectorClock) (k : string) : operand :=
  match obj !! k with
  | Some (Num z) => Count z
  | Some NaN => Count 0
  | None => if inherited k then Member else Count 0
  end.

(** [obj[k] = v] for a number [v]: an own property is created or
    updated, except that the name "__proto__", when it is not an own
    property, reaches the inherited setter, which ignores a number. *)
Definition assign (k : string) (v : number) (obj : VectorClock)
  : VectorClock :=
  match obj !! k with
  | Some _ => <[k := v]> obj
  | None => if String.eqb k "__proto__" then obj else <[k := v]> obj
  end.

(** [clock === ourClock + 1]: [NaN] equals nothing, and a member plus 1
    is a string. *)
Definition isNext (clock : number) (ourClock : operand) : bool :=
  match clock, ourClock with
  | Num c, Count z => c =? z + 1
  | _, _ => false
  end.

(** [clock > ourClock]: a member converts to [NaN], and every comparison
    with [NaN] is false. *)
Definition greater (clock : number) (ourClock : operand) : bool :=
  match clock, ourClock with
  | Num c, Count z => c >? z
  | _, _ => false
  end.

(** [a > b] for two values of [obj[k] || 0] read under the same name: two
    members are the same object. *)
Definition greaterOperand (a b : operand) : bool :=
  match a, b with
  | Count x, Count y => x >? y
  | _, _ => false
  end.

(** [Math.max(ourClock, clock)] *)
Definition mathMax (ourClock : operand) (clock : number) : number :=
  match ourClock, clock with
  | Count z, Num c => Num (Z.max z c)
  | _, _ => NaN
  end.

(** [obj[k]++] *)
Definition increment (k : string) (obj : VectorClock) : VectorClock :=
  assign k
    (match obj !! k with
     | Some (Num z) => Num (z + 1)
     | _ => NaN
     end)
    obj.

(** The text of [obj[k]] in a template literal, for a name that is an own
    property or else is "__proto__" (the prototype object). *)
Definition counterText (obj : VectorClock) (k : string) : string :=
  match obj !! k with
  | Some (Num z) => pretty z
  | Some NaN => "NaN"
  | None => "[object Object]"
  end.

(** The counter recorded under [p]: the own entry when it is a number,
    0 otherwise. *)
Definition known (vc : VectorClock) (p : string) : Z :=
  match vc !! p with
  | Some (Num z) => z
  | _ => 0
  end.

(** A clock all of whose entries are numbers proper. *)
Definition numeric (c : VectorClock) : Prop :=
  ∀ k, c !! k ≠ Some NaN.

(** A clock none of whose entries is filed under a name of
    [Object.prototype]. *)
Definition ordinary (c : VectorClock) : Prop :=
  ∀ k, is_Some (c !! k) → inherited k = false.

(** The two conditions as tests on the entries of a clock. *)
Definition is_number (c : number) : bool :=
  match c with
  | Num _ => true
  | NaN => false
  end.

Definition numericb (c : VectorClock) : bool :=
  forallb (fun e => is_number (snd e)) (map_to_list c).

Definition ordinaryb (c : VectorClock) : bool :=
  forallb (fun e => negb (inherited (fst e))) (map_to_list c).

(** ** Messages (shared/types.ts, MessageSync) *)

Inductive MessageType := TText | TFile | TSystem.

Record SyncMessage := mkSyncMessage {
  msg_id : string;
  msg_from : string;
  msg_to : option string;
  msg_room : string;
  msg_content : string;
  msg_timestamp : Z;
  msg_vectorClock : VectorClock;
  msg_encrypted : bool;
  msg_signature : option string;
  msg_type : MessageType;
  msg_causality : list string
}.

Module MessageSync.

Definition maxHistorySize : Z := 1000.

(** The engine's fields, followed by the calls made to the two optional
    callbacks [onMessageReady] and [onConflictResolved]. *)
Record t := mk {
  vectorClock : VectorClock;
  peerId : string;
  messageHistory : JsMap.t SyncMessage;
  pendingMessages : JsMap.t SyncMessage;
  ready : list SyncMessage;
  resolved : list (list SyncMessage)
}.

Definition constructor (peer : string) : t :=
  {| vectorClock := assign peer (Num 0) ∅;
     peerId := peer;
     messageHistory := JsMap.empty;
     pendingMessages := JsMap.empty;
     ready := [];
     resolved := [] |}.

Definition getRecentCausality (h : JsMap.t SyncMessage) : list string :=
  map msg_id
    (slice0 5
       (js_sort (fun a b => msg_timestamp b - msg_timestamp a)
          (JsMap.values h))).

Definition addToHistory (h : JsMap.t SyncMessage) (m : SyncMessage)
  : JsMap.t SyncMessage :=
  let h1 := JsMap.set (msg_id m) m h in
  if maxHistorySize <? JsMap.size h1 then
    match js_sort (fun a b => msg_timestamp (snd a) - msg_timestamp (snd b))
            (JsMap.entries h1) with
    | oldest :: _ => JsMap.delete (fst oldest) h1
    | [] => h1
    end
  else h1.

(** [createMessage]; [nowId] and [nowTs] are its two readings of the
    wall clock. *)
Definition createMessage (content room : string) (type : MessageType)
    (nowId nowTs : Z) (st : t) : SyncMessage * t :=
  let vc := increment (peerId st) (vectorClock st) in
  let message :=
    {| msg_id := peerId st +:+ "_" +:+ counterText vc (peerId st)
                   +:+ "_" +:+ pretty nowId;
       msg_from := peerId st;
       msg_to := None;
       msg_room := room;
       msg_content := content;
       msg_timestamp := nowTs;
       msg_vectorClock := vc;
       msg_encrypted := false;
       msg_signature := None;
       msg_type := type;
       msg_causality := getRecentCausality (messageHistory st) |} in
  (message,
   {| vectorClock := vc;
      peerId := peerId st;
      messageHistory := addToHistory (messageHistory st) message;
      pendingMessages := pendingMessages st;
      ready := ready st;
      resolved := resolved st |}).

(** One iteration of the vector-clock loop of [canProcessMessage]. *)
Definition clockEntryOk (vc : VectorClock) (from : string)
    (e : string * number) : bool :=
  if String.eqb (fst e) from
  then isNext (snd e) (orZero vc (fst e))
  else negb (greater (snd e) (orZero vc (fst e))).

Definition canProcessMessage (st : t) (m : SyncMessage) : bool :=
  forallb (fun causalId => JsMap.has causalId (messageHistory st))
    (msg_causality m)
  && forallb (clockEntryOk (vectorClock st) (msg_from m))
       (map_to_list (msg_vectorClock m)).

Definition updateVectorClock (vc received : VectorClock) : VectorClock :=
  foldl (fun acc e =>
           assign (fst e) (mathMax (orZero acc (fst e)) (snd e)) acc)
    vc (map_to_list received).

Definition isCausallyRelated (msg1 msg2 : SyncMessage) : bool :=
  existsb (String.eqb (msg_id msg2)) (msg_causality msg1)
  || existsb (String.eqb (msg_id msg1)) (msg_causality msg2).

Definition timeWindow : Z := 1000.

(** The test applied to each history entry in [detectConflicts]. *)
Definition conflictsWith (message historyMessage : SyncMessage) : bool :=
  if String.eqb (msg_id historyMessage) (msg_id message) then false
  else
    (Z.abs (msg_timestamp historyMessage - msg_timestamp message)
       <? timeWindow)
    && negb (String.eqb (msg_from historyMessage) (msg_from message))
    && String.eqb (msg_room historyMessage) (msg_room message)
    && negb (isCausallyRelated message historyMessage).

Definition detectConflicts (h : JsMap.t SyncMessage) (message : SyncMessage)
  : list SyncMessage :=
  for_push (conflictsWith message) (JsMap.values h).

Section Host.
(** The collation of the host the engine runs on. *)
Context {host : Collation}.

Definition resolveConflicts (conflictingMessages : list SyncMessage)
  : list SyncMessage :=
  js_sort (fun a b => localeCompare (msg_id a) (msg_id b))
    conflictingMessages.

Definition processMessage (st : t) (message : SyncMessage) : t :=
  let vc := updateVectorClock (vectorClock st) (msg_vectorClock message) in
  let h := addToHistory (messageHistory st) message in
  let conflicts := detectConflicts h message in
  {| vectorClock := vc;
     peerId := peerId st;
     messageHistory := h;
     pendingMessages := pendingMessages st;
     ready := ready st ++ [message];
     resolved :=
       match conflicts with
       | [] => resolved st
       | _ :: _ => resolved st ++ [resolveConflicts (message :: conflicts)]
       end |}.

(** The body of the loop of [processPendingMessages]: the state and the
    ids pushed onto [processed]. *)
Definition pendingStep (acc : t * list string) (e : string * SyncMessage)
  : t * list string :=
  if canProcessMessage (fst acc) (snd e)
  then (processMessage (fst acc) (snd e), snd acc ++ [fst e])
  else acc.

Definition processPendingMessages (st : t) : t :=
  let '(st1, processed) :=
    foldl pendingStep (st, []) (JsMap.entries (pendingMessages st)) in
  {| vectorClock := vectorClock st1;
     peerId := peerId st1;
     messageHistory := messageHistory st1;
     pendingMessages :=
       foldl (fun p id => JsMap.delete id p) (pendingMessages st1) processed;
     ready := ready st1;
     resolved := resolved st1 |}.

Definition addPending (st : t) (message : SyncMessage) : t :=
  {| vectorClock := vectorClock st;
     peerId := peerId st;
     messageHistory := messageHistory st;
     pendingMessages :=
       JsMap.set (msg_id message) message (pendingMessages st);
     ready := ready st;
     resolved := resolved st |}.

Definition receiveMessage (st : t) (message : SyncMessage) : t :=
  if JsMap.has (msg_id message) (messageHistory st) then st
  else
    processPendingMessages
      (if canProcessMessage st message
       then processMessage st message
       else addPending st message).

Definition getVectorClock (st : t) : VectorClock := vectorClock st.

Definition getMessageHistory (st : t) : list SyncMessage :=
  js_sort (fun a b => msg_timestamp a - msg_timestamp b)
    (JsMap.values (messageHistory st)).

Definition getPendingMessagesCount (st : t) : Z :=
  JsMap.size (pendingMessages st).

Definition createSyncRequest (st : t) : VectorClock := vectorClock st.

(** The test of the loop of [handleSyncRequest]; the method's second
    parameter, the requester's id, is not used by its body. *)
Definition peerLacks (peerClock : VectorClock) (message : SyncMessage)
  : bool :=
  let peerLastClock := orZero peerClock (msg_from message) in
  let messageClock := orZero (msg_vectorClock message) (msg_from message) in
  greaterOperand messageClock peerLastClock.

Definition handleSyncRequest (st : t) (peerClock : VectorClock)
  : list SyncMessage :=
  slice0 100 (for_push (peerLacks peerClock) (JsMap.values (messageHistory st))).

Definition getGossipMessages (st : t) (maxMessages : nat)
  : list SyncMessage :=
  slice0 maxMessages
    (js_sort (fun a b => msg_timestamp b - msg_timestamp a)
       (JsMap.values (messageHistory st))).

(** Feeding a sequence of arrivals to [receiveMessage]. *)
Definition receiveAll (st : t) (ms : list SyncMessage) : t :=
  foldl receiveMessage st ms.

(** [cleanup]: both maps are swept while they are iterated; deleting the
    entry under the cursor does not disturb the iteration of a [Map]. *)
Definition sweep (oneHourAgo : Z) (m : JsMap.t SyncMessage)
  : JsMap.t SyncMessage :=
  foldl (fun acc e =>
           if msg_timestamp (snd e) <? oneHourAgo
           then JsMap.delete (fst e) acc else acc)
    m (JsMap.entries m).

Definition cleanup (now : Z) (st : t) : t :=
  let oneHourAgo := now - 60 * 60 * 1000 in
  {| vectorClock := vectorClock st;
     peerId := peerId st;
     messageHistory := sweep oneHourAgo (messageHistory st);
     pendingMessages := sweep oneHourAgo (pendingMessages st);
     ready := ready st;
     resolved := resolved st |}.

Record Stats := mkStats {
  historySize : Z;
  pendingSize : Z;
  clockSize : Z
}.

Definition getStats (st : t) : Stats :=
  {| historySize := JsMap.size (messageHistory st);
     pendingSize := JsMap.size (pendingMessages st);
     clockSize := Z.of_nat (size (vectorClock st)) |}.

(** The public operations that change an engine, and runs of them. *)
Inductive Op :=
| Create (content room : string) (type : MessageType) (nowId nowTs : Z)
| Receive (message : SyncMessage)
| Cleanup (now : Z).

Definition applyOp (st : t) (op : Op) : t :=
  match op with
  | Create content room type nowId nowTs =>
      snd (createMessage content room type nowId nowTs st)
  | Receive message => receiveMessage st message
  | Cleanup now => cleanup now st
  end.

Definition runOps (st : t) (ops : list Op) : t := foldl applyOp st ops.

(** An operation that brings no [NaN] into the engine: the clock of a
    received message holds numbers proper. *)
Definition integral (op : Op) : Prop :=
  match op with
  | Receive message => numeric (msg_vectorClock message)
  | _ => True
  end.

(** The clocks of the buffered messages hold numbers proper. *)
Definition pending_numeric (st : t) : Prop :=
  Forall (fun e => numeric (msg_vectorClock (snd e))) (pendingMessages st).

(** Every entry of a message map is filed under the id of its message. *)
Definition keyed (m : JsMap.t SyncMessage) : Prop :=
  Forall (fun e => fst e = msg_id (snd e)) m.

(** Shape of the two maps of an engine. *)
Definition well_shaped (st : t) : Prop :=
  NoDup (JsMap.keys (messageHistory st))
  ∧ keyed (messageHistory st)
  ∧ JsMap.size (messageHistory st) <= maxHistorySize
  ∧ NoDup (JsMap.keys (pendingMessages st))
  ∧ keyed (pendingMessages st).

(** The author and the author's own counter a message carries, if any. *)
Definition stamp (m : SyncMessage) : option (string * number) :=
  (fun c => (msg_from m, c)) <$> (msg_vectorClock m !! msg_from m).

Definition stamps (l : list SyncMessage) : list (string * number) :=
  omap stamp l.

(** An engine with its pending buffer replaced. *)
Definition with_pending (p : JsMap.t SyncMessage) (st : t) : t :=
  {| vectorClock := vectorClock st;
     peerId := peerId st;
     messageHistory := messageHistory st;
     pendingMessages := p;
     ready := ready st;
     resolved := resolved st |}.

(** Every delivered stamp is unique and covered by the clock. *)
Definition delivered_once (s : t) : Prop :=
  NoDup (stamps (ready s))
  ∧ ∀ q c, (q, c) ∈ stamps (ready s) →
           ∃ z, c = Num z ∧ z <= known (vectorClock s) q.

(** What a stretch of deliveries [new] adds to an engine [s]: the log
    grows by [new], history gains at most the ids of [new], and each
    dependency of a message of [new] was known before it. *)
Definition extends (s s' : t) : Prop :=
  ∃ new,
    ready s' = ready s ++ new
    ∧ (∀ k, k ∈ JsMap.keys (messageHistory s') →
            k ∈ JsMap.keys (messageHistory s) ∨ k ∈ msg_id <$> new)
    ∧ (∀ i m d, new !! i = Some m → d ∈ msg_causality m →
                d ∈ JsMap.keys (messageHistory s)
                ∨ d ∈ msg_id <$> take i new).

(** The part of [well_shaped] that speaks of one map. *)
Definition tidy (bound : Z) (h : JsMap.t SyncMessage) : Prop :=
  NoDup (JsMap.keys h) ∧ keyed h ∧ JsMap.size h <= bound.

(** An entry survives the sweep over [l] when no stale entry of [l] has
    its key. *)
Definition survives (oneHourAgo : Z) (l : list (string * SyncMessage))
    (e : string * SyncMessage) : bool :=
  forallb (fun e' => negb ((msg_timestamp (snd e') <? oneHourAgo)
                           && String.eqb (fst e) (fst e'))) l.

(** The clock has no negative counter and covers the author counter of
    every message in history. *)
Definition covers_history (s : t) : Prop :=
  (∀ p, 0 <= known (vectorClock s) p)
  ∧ ∀ e, e ∈ messageHistory s →
         known (msg_vectorClock (snd e)) (msg_from (snd e))
         <= known (vectorClock s) (msg_from (snd e)).

(** The arguments of one [createMessage] call, with its two clock
    readings. *)
Record Draft := mkDraft {
  draft_content : string;
  draft_room : string;
  draft_type : MessageType;
  draft_nowId : Z;
  draft_nowTs : Z
}.

(** Successive [createMessage] calls: the messages written, in order,
    and the author's engine afterwards. *)
Definition createAll (st : t) (ds : list Draft) : list SyncMessage * t :=
  foldl (fun acc d =>
           let r := createMessage (draft_content d) (draft_room d)
                      (draft_type d) (draft_nowId d) (draft_nowTs d)
                      (snd acc) in
           (fst acc ++ [fst r], snd r))
    ([], st) ds.

(** What ties a reader that got an author's messages in order to the
    author: same history, everything delivered, nothing pending. *)
Definition in_step (author : string) (ms : list SyncMessage) (A B : t)
  : Prop :=
  peerId A = author
  ∧ vectorClock A = <[author := Num (Z.of_nat (length ms))]> ∅
  ∧ tidy maxHistorySize (messageHistory A)
  ∧ (∀ k, k ∈ JsMap.keys (messageHistory A) → k ∈ msg_id <$> ms)
  ∧ ready B = ms
  ∧ pendingMessages B = []
  ∧ messageHistory B = messageHistory A
  ∧ known (vectorClock B) author = Z.of_nat (length ms).

(** The engine has a number on record for itself. *)
Definition counts_itself (s : t) : Prop :=
  ∃ z, vectorClock s !! peerId s = Some (Num z).
End Host.

End MessageSync.

(** ** Peer registry (backend/src/peer-registry.ts) *)

Record Peer := mkPeer {
  peer_id : string;
  peer_socketId : string;
  peer_ip : string;
  peer_rooms : list string;
  peer_lastSeen : Z;
  peer_nickname : option string;
  peer_publicKey : option string
}.

Record RoomInfo := mkRoomInfo {
  room_id : string;
  room_name : string;
  room_peers : list string;
  room_createdAt : Z;
  room_isPrivate : bool
}.

(** An entry of [peers]: the peer, the id of its socket, and the handle of
    its pending liveness timer. *)
Record PeerData := mkPeerData {
  pd_peer : Peer;
  pd_socket : string;
  pd_heartbeatTimer : option nat
}.

Record RoomData := mkRoomData {
  rd_info : RoomInfo;
  rd_peers : JsSet.t
}.

Module PeerRegistryManager.

(** The three maps, and the handles passed to [clearTimeout] so far. *)
Record t := mk {
  peers : gmap string PeerData;
  rooms : gmap string RoomData;
  socketToPeer : gmap string string;
  cleared : list nat
}.

Definition empty : t :=
  {| peers := ∅; rooms := ∅; socketToPeer := ∅; cleared := [] |}.

Definition with_rooms (r : gmap string RoomData) (reg : t) : t :=
  {| peers := peers reg; rooms := r;
     socketToPeer := socketToPeer reg; cleared := cleared reg |}.

Definition createRoom (roomInfo : RoomInfo) (reg : t) : t :=
  with_rooms
    (<[room_id roomInfo := {| rd_info := roomInfo; rd_peers := [] |}]>
       (rooms reg))
    reg.

Definition set_room_peers (members : JsSet.t) (room : RoomData) : RoomData :=
  {| rd_info :=
       {| room_id := room_id (rd_info room);
          room_name := room_name (rd_info room);
          room_peers := members;
          room_createdAt := room_createdAt (rd_info room);
          room_isPrivate := room_isPrivate (rd_info room) |};
     rd_peers := members |}.

Definition addPeerToRoom (now : Z) (peerId roomId : string) (reg : t) : t :=
  let reg1 :=
    match rooms reg !! roomId with
    | Some _ => reg
    | None =>
        createRoom
          {| room_id := roomId; room_name := roomId; room_peers := [];
             room_createdAt := now; room_isPrivate := false |}
          reg
    end in
  match rooms reg1 !! roomId with
  | Some room =>
      with_rooms
        (<[roomId := set_room_peers (JsSet.add peerId (rd_peers room)) room]>
           (rooms reg1))
        reg1
  | None => reg1
  end.

Definition removePeerFromRoom (peerId roomId : string) (reg : t) : t :=
  match rooms reg !! roomId with
  | Some room =>
      let members := JsSet.delete peerId (rd_peers room) in
      if (JsSet.size members =? 0) && String.prefix "temp_" roomId
      then with_rooms (delete roomId (rooms reg)) reg
      else with_rooms
             (<[roomId := set_room_peers members room]> (rooms reg)) reg
  | None => reg
  end.

Definition unregisterPeer (peerId : string) (reg : t) : t :=
  match peers reg !! peerId with
  | None => reg
  | Some peerData =>
      let reg1 :=
        foldl (fun r roomId => removePeerFromRoom peerId roomId r)
          reg (peer_rooms (pd_peer peerData)) in
      {| peers := delete peerId (peers reg1);
         rooms := rooms reg1;
         socketToPeer := delete (pd_socket peerData) (socketToPeer reg1);
         cleared :=
           match pd_heartbeatTimer peerData with
           | Some h => cleared reg1 ++ [h]
           | None => cleared reg1
           end |}
  end.

Definition unregisterBySocket (socketId : string) (reg : t) : t :=
  match socketToPeer reg !! socketId with
  | Some peerId =>
      if String.eqb peerId "" then reg else unregisterPeer peerId reg
  | None => reg
  end.

Definition registerPeer (now : Z) (peer : Peer) (socket : string) (reg : t)
  : t :=
  let reg1 := unregisterBySocket socket reg in
  let reg2 :=
    {| peers :=
         <[peer_id peer :=
             {| pd_peer := peer; pd_socket := socket;
                pd_heartbeatTimer := None |}]> (peers reg1);
       rooms := rooms reg1;
       socketToPeer := <[socket := peer_id peer]> (socketToPeer reg1);
       cleared := cleared reg1 |} in
  foldl (fun r roomId => addPeerToRoom now (peer_id peer) roomId r)
    reg2 (peer_rooms peer).

Definition getPeer (peerId : string) (reg : t) : option Peer :=
  pd_peer <$> peers reg !! peerId.

Definition getPeerBySocket (socketId : string) (reg : t) : option Peer :=
  match socketToPeer reg !! socketId with
  | Some peerId => if String.eqb peerId "" then None else getPeer peerId reg
  | None => None
  end.

Definition updateHeartbeat (now : Z) (peerId : string) (reg : t) : t :=
  match peers reg !! peerId with
  | Some peerData =>
      let p := pd_peer peerData in
      {| peers :=
           <[peerId :=
               {| pd_peer :=
                    {| peer_id := peer_id p; peer_socketId := peer_socketId p;
                       peer_ip := peer_ip p; peer_rooms := peer_rooms p;
                       peer_lastSeen := now;
                       peer_nickname := peer_nickname p;
                       peer_publicKey := peer_publicKey p |};
                  pd_socket := pd_socket peerData;
                  pd_heartbeatTimer := pd_heartbeatTimer peerData |}]>
             (peers reg);
         rooms := rooms reg;
         socketToPeer := socketToPeer reg;
         cleared := cleared reg |}
  | None => reg
  end.

Definition setHeartbeatTimer (peerId : string) (timer : nat) (reg : t) : t :=
  match peers reg !! peerId with
  | Some peerData =>
      {| peers :=
           <[peerId :=
               {| pd_peer := pd_peer peerData;
                  pd_socket := pd_socket peerData;
                  pd_heartbeatTimer := Some timer |}]> (peers reg);
         rooms := rooms reg;
         socketToPeer := socketToPeer reg;
         cleared :=
           match pd_heartbeatTimer peerData with
           | Some h => cleared reg ++ [h]
           | None => cleared reg
           end |}
  | None => reg
  end.

Definition getPeersInRoom (roomId : string) (reg : t) : list Peer :=
  match rooms reg !! roomId with
  | None => []
  | Some room => omap (fun peerId => getPeer peerId reg) (rd_peers room)
  end.

Definition getRoom (roomId : string) (reg : t) : option RoomInfo :=
  rd_info <$> rooms reg !! roomId.

(** The peers map is filed by peer id and agrees with the socket index:
    every registered peer is found under its own, non-empty id, carries
    the id of the socket it registered on, and that socket leads back to
    it. *)
Definition indexed (reg : t) : Prop :=
  (∀ peerId peerData,
     peers reg !! peerId = Some peerData →
     peerId ≠ ""
     ∧ peer_id (pd_peer peerData) = peerId
     ∧ peer_socketId (pd_peer peerData) = pd_socket peerData
     ∧ socketToPeer reg !! pd_socket peerData = Some peerId)
  ∧ ∀ socketId peerId, socketToPeer reg !! socketId = Some peerId → peerId ≠ "".

(** Every room is filed under its id, its descriptor lists the members
    of its member set, and the member set has no repetition. *)
Definition rooms_tidy (reg : t) : Prop :=
  ∀ roomId room,
    rooms reg !! roomId = Some room →
    room_id (rd_info room) = roomId
    ∧ room_peers (rd_info room) = rd_peers room
    ∧ NoDup (rd_peers room).

(** Every member of a room is a registered peer that lists the room. *)
Definition members_listed (reg : t) : Prop :=
  ∀ roomId room peerId,
    rooms reg !! roomId = Some room →
    peerId ∈ rd_peers room →
    ∃ peerData,
      peers reg !! peerId = Some peerData
      ∧ roomId ∈ peer_rooms (pd_peer peerData).

(** Operations on rooms leave the peers and the socket index alone. *)
Definition same_peers (reg reg' : t) : Prop :=
  peers reg' = peers reg ∧ socketToPeer reg' = socketToPeer reg.

End PeerRegistryManager.

(** ** Discovery and signalling service (backend/src/discovery-service.ts) *)

Inductive SignalType := Offer | Answer | IceCandidate.

Record WebRTCSignal := mkSignal {
  sig_from : string;
  sig_to : string;
  sig_type : SignalType;
  sig_data : string;
  sig_timestamp : Z
}.

Inductive ServerEvent :=
| peer_list (ps : list Peer)
| webrtc_signal (s : WebRTCSignal)
| peer_joined (p : Peer)
| peer_left (peerId : string)
| room_created (r : RoomInfo)
| error (message : string).

(** What a handler does to the outside world, in order. *)
Inductive Effect :=
| SocketEmit (socketId : string) (ev : ServerEvent)
| SocketToRoomEmit (socketId roomId : string) (ev : ServerEvent)
| IoToEmit (target : string) (ev : ServerEvent)
| SocketJoin (socketId roomId : string)
| SocketLeave (socketId roomId : string)
| SocketDisconnect (socketId : string)
| SetTimeout (timer : nat) (peerId socketId : string) (delay : Z).

Record RegisterData := mkRegisterData {
  reg_nickname : string;
  reg_rooms : option (list string);
  reg_publicKey : string
}.

Module DiscoveryService.

Record t := mk {
  peerRegistry : PeerRegistryManager.t;
  heartbeatInterval : Z;
  effects : list Effect
}.

Definition constructor (interval : Z) : t :=
  {| peerRegistry := PeerRegistryManager.empty;
     heartbeatInterval := interval;
     effects := [] |}.

Definition update (reg : PeerRegistryManager.t) (out : list Effect) (s : t)
  : t :=
  {| peerRegistry := reg;
     heartbeatInterval := heartbeatInterval s;
     effects := effects s ++ out |}.

(** [x || 'general'] for a possibly missing first room id *)
Definition firstRoomOrGeneral (rs : list string) : string :=
  match rs with
  | r :: _ => if String.eqb r "" then "general" else r
  | [] => "general"
  end.

(** [peer_register]; [nowId] and [nowSeen] are the clock readings for the
    id and for [lastSeen] (the latter also dates the rooms created on the
    way), [rnd] is the base-36 suffix drawn for the id, [timer] the handle
    returned by [setTimeout]. *)
Definition on_peer_register (socketId address : string) (data : RegisterData)
    (nowId nowSeen : Z) (rnd : string) (timer : nat) (s : t) : t :=
  let peer :=
    {| peer_id := "peer_" +:+ pretty nowId +:+ "_" +:+ rnd;
       peer_socketId := socketId;
       peer_ip := address;
       peer_rooms := default ["general"] (reg_rooms data);
       peer_lastSeen := nowSeen;
       peer_nickname := Some (reg_nickname data);
       peer_publicKey := Some (reg_publicKey data) |} in
  let reg1 :=
    PeerRegistryManager.registerPeer nowSeen peer socketId (peerRegistry s) in
  let reg2 := PeerRegistryManager.setHeartbeatTimer (peer_id peer) timer reg1 in
  let roomPeers :=
    PeerRegistryManager.getPeersInRoom
      (firstRoomOrGeneral (peer_rooms peer)) reg2 in
  update reg2
    ([SetTimeout timer (peer_id peer) socketId (heartbeatInterval s * 2)]
     ++ flat_map (fun roomId =>
                    [SocketJoin socketId roomId;
                     SocketToRoomEmit socketId roomId (peer_joined peer)])
          (peer_rooms peer)
     ++ [SocketEmit socketId
           (peer_list
              (List.filter
                 (fun p => negb (String.eqb (peer_id p) (peer_id peer)))
                 roomPeers))])
    s.

Definition on_peer_discover (socketId roomId : string) (s : t) : t :=
  let peers := PeerRegistryManager.getPeersInRoom roomId (peerRegistry s) in
  update (peerRegistry s) [SocketEmit socketId (peer_list peers)] s.

Definition on_webrtc_signal (signal : WebRTCSignal) (now : Z) (s : t) : t :=
  match PeerRegistryManager.getPeer (sig_to signal) (peerRegistry s) with
  | Some targetPeer =>
      update (peerRegistry s)
        [IoToEmit (peer_socketId targetPeer)
           (webrtc_signal
              {| sig_from := sig_from signal;
                 sig_to := sig_to signal;
                 sig_type := sig_type signal;
                 sig_data := sig_data signal;
                 sig_timestamp := now |})]
        s
  | None => s
  end.

Definition on_peer_heartbeat (socketId : string) (now : Z) (timer : nat)
    (s : t) : t :=
  match PeerRegistryManager.getPeerBySocket socketId (peerRegistry s) with
  | Some peer =>
      let reg1 :=
        PeerRegistryManager.updateHeartbeat now (peer_id peer)
          (peerRegistry s) in
      match PeerRegistryManager.getPeer (peer_id peer) reg1 with
      | Some _ =>
          update
            (PeerRegistryManager.setHeartbeatTimer (peer_id peer) timer reg1)
            [SetTimeout timer (peer_id peer) socketId
               (heartbeatInterval s * 2)]
            s
      | None => update reg1 [] s
      end
  | None => s
  end.

Definition on_join_room (socketId roomId : string) (now : Z) (s : t) : t :=
  match PeerRegistryManager.getPeerBySocket socketId (peerRegistry s) with
  | Some peer =>
      update
        (PeerRegistryManager.addPeerToRoom now (peer_id peer) roomId
           (peerRegistry s))
        [SocketJoin socketId roomId;
         SocketToRoomEmit socketId roomId (peer_joined peer)]
        s
  | None => s
  end.

Definition on_leave_room (socketId roomId : string) (s : t) : t :=
  match PeerRegistryManager.getPeerBySocket socketId (peerRegistry s) with
  | Some peer =>
      update
        (PeerRegistryManager.removePeerFromRoom (peer_id peer) roomId
           (peerRegistry s))
        [SocketLeave socketId roomId;
         SocketToRoomEmit socketId roomId (peer_left (peer_id peer))]
        s
  | None => s
  end.

Definition on_create_room (socketId name : string) (isPrivate : bool)
    (nowId nowCreated : Z) (rnd : string) (s : t) : t :=
  let roomInfo :=
    {| room_id := "room_" +:+ pretty nowId +:+ "_" +:+ rnd;
       room_name := name;
       room_peers := [];
       room_createdAt := nowCreated;
       room_isPrivate := isPrivate |} in
  update (PeerRegistryManager.createRoom roomInfo (peerRegistry s))
    [SocketEmit socketId (room_created roomInfo)] s.

Definition on_disconnect (socketId : string) (s : t) : t :=
  match PeerRegistryManager.getPeerBySocket socketId (peerRegistry s) with
  | Some peer =>
      update
        (PeerRegistryManager.unregisterPeer (peer_id peer) (peerRegistry s))
        (map (fun roomId =>
                SocketToRoomEmit socketId roomId (peer_left (peer_id peer)))
           (peer_rooms peer))
        s
  | None => s
  end.

(** The liveness timer of [peerId] on [socketId] fires: the peer is
    unregistered and the socket disconnected, which runs the
    [disconnect] handler. *)
Definition on_timeout (peerId socketId : string) (s : t) : t :=
  on_disconnect socketId
    (update (PeerRegistryManager.unregisterPeer peerId (peerRegistry s))
       [SocketDisconnect socketId] s).

(** The events a service instance reacts to. *)
Inductive Event :=
| EvRegister (socketId address : string) (data : RegisterData)
    (nowId nowSeen : Z) (rnd : string) (timer : nat)
| EvDiscover (socketId roomId : string)
| EvSignal (signal : WebRTCSignal) (now : Z)
| EvHeartbeat (socketId : string) (now : Z) (timer : nat)
| EvJoinRoom (socketId roomId : string) (now : Z)
| EvLeaveRoom (socketId roomId : string)
| EvCreateRoom (socketId name : string) (isPrivate : bool)
    (nowId nowCreated : Z) (rnd : string)
| EvDisconnect (socketId : string)
| EvTimeout (peerId socketId : string).

Definition step (s : t) (e : Event) : t :=
  match e with
  | EvRegister sid addr data n1 n2 rnd tm =>
      on_peer_register sid addr data n1 n2 rnd tm s
  | EvDiscover sid room => on_peer_discover sid room s
  | EvSignal sg now => on_webrtc_signal sg now s
  | EvHeartbeat sid now tm => on_peer_heartbeat sid now tm s
  | EvJoinRoom sid room now => on_join_room sid room now s
  | EvLeaveRoom sid room => on_leave_room sid room s
  | EvCreateRoom sid name priv n1 n2 rnd =>
      on_create_room sid name priv n1 n2 rnd s
  | EvDisconnect sid => on_disconnect sid s
  | EvTimeout pid sid => on_timeout pid sid s
  end.

Definition run (s : t) (es : list Event) : t := foldl step s es.

(** The registry invariant of the data model: every member id of every
    room is the id of a registered peer. *)
Definition roomsWithinPeers (reg : PeerRegistryManager.t) : Prop :=
  ∀ roomId room peerId,
    PeerRegistryManager.rooms reg !! roomId = Some room →
    peerId ∈ rd_peers room →
    is_Some (PeerRegistryManager.peers reg !! peerId).

(** Runs in which every registration draws an id that is not in use and
    no client sends [join_room]. *)
Fixpoint fresh_run (s : t) (es : list Event) : Prop :=
  match es with
  | [] => True
  | e :: rest =>
      match e with
      | EvRegister _ _ _ nowId _ rnd _ =>
          PeerRegistryManager.peers (peerRegistry s)
            !! ("peer_" +:+ pretty nowId +:+ "_" +:+ rnd) = None
      | EvJoinRoom _ _ _ => False
      | _ => True
      end
      ∧ fresh_run (step s e) rest
  end.

End DiscoveryService.

(** ** Data-channel send (WebRTCClient.sendMessage) *)

(** How the evaluation of a JavaScript expression ends. *)
Inductive Completion (A : Type) : Type :=
| Normal (a : A)
| Throw (err : string).
Arguments Normal {A} a.
Arguments Throw {A} err.

Inductive RTCDataChannelState := Connecting | Open | Closing | Closed.

Definition is_open (s : RTCDataChannelState) : bool :=
  match s with Open => true | _ => false end.

(** A data channel as the client sees it: its [readyState] and what its
    host method [send] does with a buffer. *)
Record RTCDataChannel := mkChannel {
  readyState : RTCDataChannelState;
  channel_send : string → Completion unit
}.

Module WebRTCClient.

(** The channels, the byte counter of the performance monitor, and the
    buffers handed to a channel so far. *)
Record t := mk {
  dataChannels : gmap string RTCDataChannel;
  dataTransferredBytes : Z;
  sent : list (string * string)
}.

(** Computations that read and write the client and may throw. *)
Definition M (A : Type) : Type := t → Completion A * t.

Definition ret {A} (a : A) : M A := fun st => (Normal a, st).

Definition bind {A B} (c : M A) (k : A → M B) : M B :=
  fun st =>
    match c st with
    | (Normal a, st1) => k a st1
    | (Throw err, st1) => (Throw err, st1)
    end.

Definition try_catch {A} (body : M A) (handler : string → M A) : M A :=
  fun st =>
    match body st with
    | (Normal a, st1) => (Normal a, st1)
    | (Throw err, st1) => handler err st1
    end.

Definition lift {A} (c : Completion A) : M A := fun st => (c, st).

#[local] Instance M_ret : MRet M := @ret.
#[local] Instance M_bind : MBind M := fun A B k c => bind c k.

Section Host.
(** The payload type ([any]), the object spread [{...data, timestamp}]
    and [JSON.stringify], which throws on some values. *)
Context {Data : Type}.
Variable withTimestamp : Data → Z → Data.
Variable stringify : Data → Completion string.

(** The UTF-8 bytes of the JSON text; a string here is its bytes. *)
Definition serializeMessage (data : Data) : M string :=
  lift (stringify data).

Definition byteLength (buffer : string) : Z :=
  Z.of_nat (String.length buffer).

Definition recordDataTransfer (bytes : Z) : M unit :=
  fun st =>
    (Normal tt,
     {| dataChannels := dataChannels st;
        dataTransferredBytes := dataTransferredBytes st + bytes;
        sent := sent st |}).

(** [dataChannel.send(serialized)] *)
Definition send (peerId : string) (ch : RTCDataChannel) (buffer : string)
  : M unit :=
  fun st =>
    match channel_send ch buffer with
    | Normal _ =>
        (Normal tt,
         {| dataChannels := dataChannels st;
            dataTransferredBytes := dataTransferredBytes st;
            sent := sent st ++ [(peerId, buffer)] |})
    | Throw err => (Throw err, st)
    end.

Definition sendMessage (peerId : string) (data : Data) (now : Z) : M bool :=
  fun st =>
    match dataChannels st !! peerId with
    | None => ret false st
    | Some dataChannel =>
        if negb (is_open (readyState dataChannel)) then ret false st
        else
          try_catch
            (serialized ← serializeMessage (withTimestamp data now);
             send peerId dataChannel serialized;;
             recordDataTransfer (byteLength serialized);;
             mret true)
            (fun _ => ret false)
            st
    end.
End Host.

(** [isConnected] *)
Definition isConnected (peerId : string) (st : t) : bool :=
  match dataChannels st !! peerId with
  | Some dataChannel => is_open (readyState dataChannel)
  | None => false
  end.

(** Calls of the host methods [close] made while tearing down. *)
Inductive CloseCall :=
| CloseDataChannel (peerId : string)
| ClosePeerConnection (peerId : string).

(** The client with its remaining per-peer tables: the connections (a
    [Map], iterated in insertion order), the connection states, the
    initiator flags and the buffer pool.  The host objects held by
    [connections] and [connectionStates] are not inspected by the
    teardown and stay abstract. *)
Record Session (Conn CState : Type) := mkSession {
  client : t;
  connections : JsMap.t Conn;
  connectionStates : gmap string CState;
  isInitiator : gmap string bool;
  messagePool : list string;
  closeCalls : list CloseCall
}.
Arguments mkSession {Conn CState}.
Arguments client {Conn CState}.
Arguments connections {Conn CState}.
Arguments connectionStates {Conn CState}.
Arguments isInitiator {Conn CState}.
Arguments messagePool {Conn CState}.
Arguments closeCalls {Conn CState}.

Definition closePeerConnection {Conn CState : Type} (peerId : string)
    (ss : Session Conn CState) : Session Conn CState :=
  let hasChannel :=
    match dataChannels (client ss) !! peerId with
    | Some _ => true
    | None => false
    end in
  let hasConnection := JsMap.has peerId (connections ss) in
  {| client :=
       {| dataChannels := delete peerId (dataChannels (client ss));
          dataTransferredBytes := dataTransferredBytes (client ss);
          sent := sent (client ss) |};
     connections := JsMap.delete peerId (connections ss);
     connectionStates := delete peerId (connectionStates ss);
     isInitiator := delete peerId (isInitiator ss);
     messagePool := messagePool ss;
     closeCalls :=
       closeCalls ss
       ++ (if hasChannel then [CloseDataChannel peerId] else [])
       ++ (if hasConnection then [ClosePeerConnection peerId] else []) |}.

Definition closeAllConnections {Conn CState : Type}
    (ss : Session Conn CState) : Session Conn CState :=
  let peerIds := JsMap.keys (connections ss) in
  let ss1 := foldl (fun acc peerId => closePeerConnection peerId acc) ss peerIds in
  {| client := client ss1;
     connections := connections ss1;
     connectionStates := connectionStates ss1;
     isInitiator := isInitiator ss1;
     messagePool := [];
     closeCalls := closeCalls ss1 |}.

End WebRTCClient.

(** ** Reconnecting to the discovery server (PeerDiscovery) *)

Module PeerDiscovery.

(** [attemptReconnect]: the delay after which [connect] is tried again,
    or nothing once the configured number of attempts is used up.  The
    attempt counter starts at 0 and is only reset or incremented. *)
Definition attemptReconnect (reconnectAttempts : nat) (maxAttempts : Z)
  : option Z :=
  if Z.of_nat reconnectAttempts >=? maxAttempts then None
  else Some (Z.min (1000 * 2 ^ Z.of_nat reconnectAttempts) 30000).

End PeerDiscovery.

(** ** The specification's wording of four tests

    These definitions follow the specification text, not the code; they
    are compared with [canProcessMessage], [detectConflicts],
    [handleSyncRequest] and the [webrtc_signal] handler. *)

Module Spec.
(** "every id in the dependency set is already in history; the sender's
    clock entry in the message equals this engine's currently known
    counter for that sender plus exactly 1; every other peer's clock
    entry in the message is ≤ this engine's corresponding known
    counter" *)
Definition deliverable (st : MessageSync.t) (m : SyncMessage) : Prop :=
  (∀ d, d ∈ msg_causality m →
        JsMap.has d (MessageSync.messageHistory st) = true)
  ∧ (msg_vectorClock m !! msg_from m)
      = Some (Num (known (MessageSync.vectorClock st) (msg_from m) + 1))
  ∧ (∀ p c, p ≠ msg_from m → msg_vectorClock m !! p = Some c →
            ∃ z, c = Num z ∧ z <= known (MessageSync.vectorClock st) p).

(** "history entries whose sender-entry exceeds the requester's recorded
    counter for that sender", a missing entry of the requester counting
    as 0 *)
Definition missing (peerClock : VectorClock) (m : SyncMessage) : Prop :=
  ∃ c, msg_vectorClock m !! msg_from m = Some (Num c)
       ∧ known peerClock (msg_from m) < c.

(** "within the same room, any two non-deduplicate messages whose
    timestamps differ by less than a fixed window (1s) and which are not
    mutually present in each other's dependency set are flagged
    concurrent" *)
Definition concurrent (m h : SyncMessage) : Prop :=
  msg_room h = msg_room m
  ∧ msg_id h ≠ msg_id m
  ∧ Z.abs (msg_timestamp h - msg_timestamp m) < 1000
  ∧ (msg_id h ∉ msg_causality m)
  ∧ (msg_id m ∉ msg_causality h).

(** "forwarded verbatim to the addressed peer's bound transport if
    present; otherwise dropped silently" *)
Definition relayed (s : DiscoveryService.t) (signal : WebRTCSignal)
    (out : list Effect) : Prop :=
  match PeerRegistryManager.getPeer (sig_to signal)
          (DiscoveryService.peerRegistry s) with
  | Some target => out = [IoToEmit (peer_socketId target) (webrtc_signal signal)]
  | None => out = []
  end.
End Spec.

(** ** Concrete runs used by the scenario statements *)

Module Scenario.
Import MessageSync.

(** A host collation for the concrete runs.  Like the collations of ICU
    it passes over the control characters U+0000 to U+0008; what remains
    is compared code unit by code unit. *)
Definition ignorable (c : Ascii.ascii) : bool :=
  (Ascii.N_of_ascii c <? 9)%N.

Fixpoint strip (s : string) : string :=
  match s with
  | EmptyString => EmptyString
  | String c r => if ignorable c then strip r else String c (strip r)
  end.

Definition collation : Collation :=
  fun a b =>
    match String.compare (strip a) (strip b) with
    | Lt => -1
    | Eq => 0
    | Gt => 1
    end.

(** Peer A writes five messages in room "ops". *)
Definition A0 : MessageSync.t := constructor "A".
Definition A1 := createMessage "one" "ops" TText 100 100 A0.
Definition A2 := createMessage "two" "ops" TText 200 200 (snd A1).
Definition A3 := createMessage "three" "ops" TText 300 300 (snd A2).
Definition A4 := createMessage "four" "ops" TText 400 400 (snd A3).
Definition A5 := createMessage "five" "ops" TText 500 500 (snd A4).
Definition m1 : SyncMessage := fst A1.
Definition m2 : SyncMessage := fst A2.
Definition m3 : SyncMessage := fst A3.
Definition m4 : SyncMessage := fst A4.
Definition m5 : SyncMessage := fst A5.

(** Peer B starts with no knowledge of A. *)
Definition B0 : MessageSync.t := constructor "B".

(** A message whose clock carries no entry at all. *)
Definition bare : SyncMessage :=
  {| msg_id := "A_bare"; msg_from := "A"; msg_to := None;
     msg_room := "ops"; msg_content := "x"; msg_timestamp := 50;
     msg_vectorClock := ∅; msg_encrypted := false;
     msg_signature := None; msg_type := TText; msg_causality := [] |}.

(** A message with an empty clock that depends on m2. *)
Definition bare2 : SyncMessage :=
  {| msg_id := "A_bare2"; msg_from := "A"; msg_to := None;
     msg_room := "ops"; msg_content := "x"; msg_timestamp := 250;
     msg_vectorClock := ∅; msg_encrypted := false;
     msg_signature := None; msg_type := TText;
     msg_causality := [msg_id m2] |}.

(** Two messages of one author, 10 ms apart, neither naming the other. *)
Definition solo1 : SyncMessage :=
  {| msg_id := "A_1_0"; msg_from := "A"; msg_to := None;
     msg_room := "ops"; msg_content := "x"; msg_timestamp := 0;
     msg_vectorClock := {["A" := Num 1]}; msg_encrypted := false;
     msg_signature := None; msg_type := TText; msg_causality := [] |}.
Definition solo2 : SyncMessage :=
  {| msg_id := "A_2_10"; msg_from := "A"; msg_to := None;
     msg_room := "ops"; msg_content := "y"; msg_timestamp := 10;
     msg_vectorClock := {["A" := Num 2]}; msg_encrypted := false;
     msg_signature := None; msg_type := TText; msg_causality := [] |}.

(** Two peers whose ids differ by the control character U+0001 each
    write a first message, in room "ops" at time 100. *)
Definition soh : string := String (Ascii.ascii_of_nat 1) EmptyString.
Definition x1 : SyncMessage :=
  fst (createMessage "left" "ops" TText 100 100 (constructor "A")).
Definition y1 : SyncMessage :=
  fst (createMessage "right" "ops" TText 100 100
         (constructor ("A" +:+ soh))).
Definition C0 : MessageSync.t := constructor "C".

(** A peer whose id is the name of a member of [Object.prototype]
    writes a first message. *)
Definition K1 :=
  createMessage "hello" "ops" TText 100 100 (constructor "constructor").
Definition k1 : SyncMessage := fst K1.

(** A message of peer A that also carries a counter for "constructor". *)
Definition tagged : SyncMessage :=
  {| msg_id := "A_1_70"; msg_from := "A"; msg_to := None;
     msg_room := "ops"; msg_content := "x"; msg_timestamp := 70;
     msg_vectorClock := <["A" := Num 1]> {["constructor" := Num 7]};
     msg_encrypted := false;
     msg_signature := None; msg_type := TText; msg_causality := [] |}.

Section Runs.
Context {host : Collation}.

(** B after A's five messages arrived in order, and B's own two
    messages written afterwards. *)
Definition B5 : MessageSync.t := receiveAll B0 [m1; m2; m3; m4; m5].
Definition B6 := createMessage "six" "ops" TText 600 600 B5.
Definition B7 := createMessage "seven" "ops" TText 700 700 (snd B6).
Definition b1 : SyncMessage := fst B6.
Definition b2 : SyncMessage := fst B7.
End Runs.

(** One client registers on socket "s1", later joins room "ops". *)
Definition alice : RegisterData :=
  {| reg_nickname := "alice"; reg_rooms := Some ["general"];
     reg_publicKey := "pk" |}.
Definition aliceId : string := "peer_1000_abc".
Definition S0 : DiscoveryService.t := DiscoveryService.constructor 30000.
Definition S1 : DiscoveryService.t :=
  DiscoveryService.on_peer_register "s1" "10.0.0.1" alice 1000 1000 "abc" 0%nat S0.

Definition offer : WebRTCSignal :=
  {| sig_from := "peer_2000_xyz"; sig_to := aliceId; sig_type := Offer;
     sig_data := "sdp"; sig_timestamp := 5 |}.

(** A client with one open channel to "p1" and a closed one to "p2";
    payloads are strings and every payload has a JSON text. *)
Definition okChannel : RTCDataChannel :=
  {| readyState := Open; channel_send := fun _ => Normal tt |}.
Definition closedChannel : RTCDataChannel :=
  {| readyState := Closed; channel_send := fun _ => Normal tt |}.
Definition client : WebRTCClient.t :=
  {| WebRTCClient.dataChannels :=
       <["p1" := okChannel]> (<["p2" := closedChannel]> ∅);
     WebRTCClient.dataTransferredBytes := 0;
     WebRTCClient.sent := [] |}.
Definition stampText (data : string) (now : Z) : string :=
  data +:+ "@" +:+ pretty now.
Definition jsonText (data : string) : Completion string := Normal data.
Definition drafts : list MessageSync.Draft :=
  [MessageSync.mkDraft "one" "ops" TText 100 100;
   MessageSync.mkDraft "two" "ops" TText 200 200;
   MessageSync.mkDraft "three" "ops" TText 300 300].
Definition session : WebRTCClient.Session unit unit :=
  {| WebRTCClient.client := client;
     WebRTCClient.connections := [("p1", tt); ("p2", tt)];
     WebRTCClient.connectionStates := ∅;
     WebRTCClient.isInitiator := <["p1" := true]> ∅;
     WebRTCClient.messagePool := [];
     WebRTCClient.closeCalls := [] |}.
End Scenario.

(** * Properties *)

(** ** Lists, loops and sorting *)

Lemma for_push_filter {A : Type} (keep : A → bool) (l : list A) :
  for_push keep l = List.filter keep l.
Proof.
  unfold for_push.
  assert (H : ∀ acc, foldl (fun acc x => if keep x then acc ++ [x] else acc) acc l
                     = acc ++ List.filter keep l).
  { induction l as [|x l IH]; intros acc; simpl.
    - by rewrite app_nil_r.
    - rewrite IH. destruct (keep x); [|done].
      by rewrite <- app_assoc. }
  apply (H []).
Qed.

Lemma elem_of_for_push {A : Type} (keep : A → bool) (l : list A) (x : A) :
  x ∈ for_push keep l ↔ x ∈ l ∧ keep x = true.
Proof.
  rewrite for_push_filter, !list_elem_of_In. apply filter_In.
Qed.

Section SortFacts.
Context {A : Type} (cmp : A → A → Z).

Hypothesis cmp_total : ∀ a b, cmp_le cmp a b ∨ cmp_le cmp b a.
Hypothesis cmp_trans : ∀ a b c, cmp_le cmp a b → cmp_le cmp b c → cmp_le cmp a c.

Lemma sort_insert_perm (x : A) (l : list A) :
  sort_insert cmp x l ≡ₚ x :: l.
Proof.
  induction l as [|y l IH]; simpl; [done|].
  destruct (cmp x y <=? 0); [done|].
  rewrite IH. apply perm_swap.
Qed.

Lemma js_sort_perm (l : list A) : js_sort cmp l ≡ₚ l.
Proof.
  induction l as [|x l IH]; simpl; [done|].
  unfold js_sort in *. simpl.
  rewrite sort_insert_perm. by rewrite IH.
Qed.

Lemma sort_insert_sorted (x : A) (l : list A) :
  StronglySorted (cmp_le cmp) l → StronglySorted (cmp_le cmp) (sort_insert cmp x l).
Proof.
  induction 1 as [|y l Hs IH Hy]; simpl.
  - constructor; [constructor | constructor].
  - destruct (Z.leb_spec (cmp x y) 0) as [Hle|Hgt].
    + constructor; [by constructor|].
      constructor; [done|].
      eapply Forall_impl; [exact Hy|].
      intros z Hz. by eapply cmp_trans.
    + constructor; [done|].
      rewrite sort_insert_perm. constructor; [|done].
      destruct (cmp_total x y) as [Hxy|Hyx]; [|done].
      unfold cmp_le in Hxy. lia.
Qed.

Lemma js_sort_sorted (l : list A) : StronglySorted (cmp_le cmp) (js_sort cmp l).
Proof.
  induction l as [|x l IH]; [constructor|].
  by apply sort_insert_sorted.
Qed.

(** Two sorted arrangements of the same elements coincide when the
    comparator separates the elements. *)
Lemma sorted_perm_unique (l1 l2 : list A) :
  (∀ a b, a ∈ l1 → b ∈ l1 → cmp_le cmp a b → cmp_le cmp b a → a = b) →
  StronglySorted (cmp_le cmp) l1 → StronglySorted (cmp_le cmp) l2 →
  l1 ≡ₚ l2 → l1 = l2.
Proof.
  revert l2. induction l1 as [|a l1 IH]; intros l2 Hanti H1 H2 Hp.
  - by apply Permutation_nil in Hp.
  - destruct l2 as [|b l2].
    { symmetry in Hp. by apply Permutation_nil in Hp. }
    apply StronglySorted_inv in H1 as [H1 Ha].
    apply StronglySorted_inv in H2 as [H2 Hb].
    assert (a = b) as ->.
    { assert (Hain : a ∈ b :: l2) by (rewrite <- Hp; left).
      assert (Hbin : b ∈ a :: l1) by (rewrite Hp; left).
      apply elem_of_cons in Hain as [->|Hain]; [done|].
      apply elem_of_cons in Hbin as [->|Hbin]; [done|].
      rewrite Forall_forall in Ha, Hb.
      apply Hanti; [left | by right | by apply Ha | by apply Hb]. }
    f_equal. apply IH; [|done|done|by apply Permutation_cons_inv in Hp].
    intros x y Hx Hy. apply Hanti; by right.
Qed.

Lemma js_sort_perm_invariant (l1 l2 : list A) :
  (∀ a b, a ∈ l1 → b ∈ l1 → cmp_le cmp a b → cmp_le cmp b a → a = b) →
  l1 ≡ₚ l2 → js_sort cmp l1 = js_sort cmp l2.
Proof.
  intros Hanti Hp. apply sorted_perm_unique.
  - intros a b Ha Hb. rewrite js_sort_perm in Ha, Hb. by apply Hanti.
  - apply js_sort_sorted.
  - apply js_sort_sorted.
  - by rewrite !js_sort_perm.
Qed.
End SortFacts.

Lemma StronglySorted_weaken {A : Type} (R S : A → A → Prop) (l : list A) :
  (∀ a b, R a b → S a b) → StronglySorted R l → StronglySorted S l.
Proof.
  intros HRS. induction 1 as [|x l Hs IH Hx]; constructor; [done|].
  eapply Forall_impl; [exact Hx|]. intros y. apply HRS.
Qed.

(** ** Insertion-ordered maps *)

Section JsMapFacts.
Context {V : Type}.
Implicit Types (m : JsMap.t V) (k : string) (v : V).

Lemma JsMap_get_set k v m : JsMap.get k (JsMap.set k v m) = Some v.
Proof.
  induction m as [|[k' v'] m IH]; simpl.
  - by rewrite String.eqb_refl.
  - destruct (String.eqb_spec k' k) as [->|Hne]; simpl.
    + by rewrite String.eqb_refl.
    + by destruct (String.eqb_spec k' k).
Qed.

Lemma JsMap_get_Some k v m : JsMap.get k m = Some v → (k, v) ∈ m.
Proof.
  induction m as [|[k' v'] m IH]; simpl; [done|].
  destruct (String.eqb_spec k' k) as [->|Hne].
  - intros [= ->]. left.
  - intros H. right. by apply IH.
Qed.

Lemma JsMap_get_None k m : JsMap.get k m = None ↔ k ∉ JsMap.keys m.
Proof.
  unfold JsMap.keys. induction m as [|[k' v'] m IH]; simpl.
  - split; [intros _; apply not_elem_of_nil|done].
  - rewrite not_elem_of_cons.
    destruct (String.eqb_spec k' k) as [->|Hne]; [split; [done|tauto]|].
    rewrite IH. split; [|tauto]. intros H. split; [congruence|done].
Qed.

Lemma JsMap_has_keys k m : JsMap.has k m = true ↔ k ∈ JsMap.keys m.
Proof.
  unfold JsMap.has. destruct (JsMap.get k m) as [v|] eqn:Hg.
  - split; [intros _|done].
    destruct (decide (k ∈ JsMap.keys m)) as [|Hn]; [done|].
    apply JsMap_get_None in Hn. congruence.
  - split; [done|]. intros Hin. by apply JsMap_get_None in Hg.
Qed.

Lemma JsMap_get_unique k v m :
  NoDup (JsMap.keys m) → (k, v) ∈ m → JsMap.get k m = Some v.
Proof.
  unfold JsMap.keys.
  induction m as [|[k' v'] m IH]; simpl; intros Hnd Hin.
  - by apply elem_of_nil in Hin.
  - apply NoDup_cons in Hnd as [Hk' Hnd].
    destruct (String.eqb_spec k' k) as [->|Hne].
    + apply elem_of_cons in Hin as [[= ->]|Hin]; [done|].
      destruct Hk'. apply list_elem_of_fmap. by exists (k, v).
    + apply elem_of_cons in Hin as [[= -> ->]|Hin]; [done|]. by apply IH.
Qed.

Lemma JsMap_keys_set k v m :
  JsMap.keys (JsMap.set k v m)
  = if JsMap.has k m then JsMap.keys m else JsMap.keys m ++ [k].
Proof.
  unfold JsMap.has, JsMap.keys.
  induction m as [|[k' v'] m IH]; simpl; [done|].
  destruct (String.eqb_spec k' k) as [->|Hne]; simpl; [done|].
  rewrite IH. by destruct (JsMap.get k m).
Qed.

Lemma JsMap_set_elem k v m e :
  e ∈ JsMap.set k v m → e = (k, v) ∨ e ∈ m.
Proof.
  induction m as [|[k' v'] m IH]; simpl.
  - intros ->%list_elem_of_singleton. by left.
  - destruct (String.eqb_spec k' k) as [->|Hne].
    + intros [->|Hin]%elem_of_cons; [by left|]. right. by right.
    + intros [->|Hin]%elem_of_cons; [right; left|].
      destruct (IH Hin) as [->|Hm]; [by left|]. right. by right.
Qed.

Lemma JsMap_set_length k v m :
  (length (JsMap.set k v m) ≤ S (length m))%nat.
Proof.
  induction m as [|[k' v'] m IH]; simpl; [lia|].
  destruct (String.eqb k' k); simpl; lia.
Qed.

Lemma JsMap_keys_delete k m :
  JsMap.keys (JsMap.delete k m) = List.filter (fun x => negb (String.eqb x k)) (JsMap.keys m).
Proof.
  unfold JsMap.keys. induction m as [|[k' v'] m IH]; simpl; [done|].
  destruct (String.eqb k' k); simpl; by rewrite IH.
Qed.

Lemma JsMap_delete_elem k m e :
  e ∈ JsMap.delete k m ↔ e ∈ m ∧ fst e ≠ k.
Proof.
  induction m as [|[k' v'] m IH]; simpl.
  - split; [by intros ?%elem_of_nil|by intros [?%elem_of_nil _]].
  - destruct (String.eqb_spec k' k) as [->|Hne].
    + rewrite IH, elem_of_cons. split; [tauto|].
      intros [[->|H] Hk]; [done|tauto].
    + rewrite !elem_of_cons, IH. split.
      * intros [->|[H Hk]]; [split; [by left|done]|tauto].
      * intros [[->|H] Hk]; [by left|tauto].
Qed.

Lemma JsMap_delete_length k m :
  (length (JsMap.delete k m) ≤ length m)%nat.
Proof.
  induction m as [|[k' v'] m IH]; simpl; [lia|].
  destruct (String.eqb k' k); simpl; lia.
Qed.

Lemma JsMap_delete_length_lt k m :
  k ∈ JsMap.keys m → (length (JsMap.delete k m) < length m)%nat.
Proof.
  unfold JsMap.keys. induction m as [|[k' v'] m IH]; simpl.
  - by intros ?%elem_of_nil.
  - destruct (String.eqb_spec k' k) as [->|Hne].
    + intros _. pose proof (JsMap_delete_length k m). lia.
    + intros [?|Hin]%elem_of_cons; [congruence|].
      simpl. specialize (IH Hin). lia.
Qed.

Lemma JsMap_get_delete k k' m :
  JsMap.get k' (JsMap.delete k m)
  = if String.eqb k' k then None else JsMap.get k' m.
Proof.
  induction m as [|[k1 v1] m IH]; simpl.
  - by destruct (String.eqb k' k).
  - destruct (String.eqb_spec k1 k) as [->|Hne].
    + rewrite IH. destruct (String.eqb_spec k' k) as [->|Hne']; [done|].
      by destruct (String.eqb_spec k k').
    + simpl. rewrite IH.
      destruct (String.eqb_spec k1 k') as [->|Hne1]; [|done].
      by destruct (String.eqb_spec k' k).
Qed.

Lemma JsMap_NoDup_set k v m :
  NoDup (JsMap.keys m) → NoDup (JsMap.keys (JsMap.set k v m)).
Proof.
  intros Hnd. rewrite JsMap_keys_set.
  destruct (JsMap.has k m) eqn:Hh; [done|].
  apply NoDup_app. split; [done|]. split; [|apply NoDup_singleton].
  intros x Hx ->%list_elem_of_singleton.
  apply JsMap_has_keys in Hx. congruence.
Qed.

Lemma JsMap_NoDup_delete k m :
  NoDup (JsMap.keys m) → NoDup (JsMap.keys (JsMap.delete k m)).
Proof.
  intros Hnd. rewrite JsMap_keys_delete.
  apply NoDup_ListNoDup, List.NoDup_filter. by apply NoDup_ListNoDup.
Qed.
End JsMapFacts.

(** ** Conflict resolution *)

Section Resolution.
Context {host : Collation}.

(** Two messages handed to conflict resolution: the host's collation of
    their ids decides which comes first, and a tie keeps the order in
    which they were handed over. *)
Lemma resolveConflicts_pair (a b : SyncMessage) :
  MessageSync.resolveConflicts [a; b]
  = if localeCompare (msg_id a) (msg_id b) <=? 0 then [a; b] else [b; a].
Proof. reflexivity. Qed.

(** C3. Evaluation for the first messages x1 and y1 of two peers whose
    ids differ by the control character U+0001 only, on any host whose
    collation compares the two message ids as equal (a collation that
    passes over that character does).  The ids are different strings,
    yet the sort of [resolveConflicts] leaves the two messages in the
    order in which they were handed over, the message just delivered
    first: an engine that receives x1 then y1 resolves the conflict to
    [y1; x1], and an engine that receives y1 then x1 resolves the same
    two messages to [x1; y1]. *)
Theorem resolveConflicts_follows_arrival_on_tie :
  let first :=
    MessageSync.receiveAll Scenario.C0 [Scenario.x1; Scenario.y1] in
  let second :=
    MessageSync.receiveAll Scenario.C0 [Scenario.y1; Scenario.x1] in
  localeCompare (msg_id Scenario.x1) (msg_id Scenario.y1) = 0 →
  localeCompare (msg_id Scenario.y1) (msg_id Scenario.x1) = 0 →
  msg_id Scenario.x1 ≠ msg_id Scenario.y1
  ∧ MessageSync.ready first = [Scenario.x1; Scenario.y1]
  ∧ MessageSync.ready second = [Scenario.y1; Scenario.x1]
  ∧ MessageSync.resolved first = [[Scenario.y1; Scenario.x1]]
  ∧ MessageSync.resolved second = [[Scenario.x1; Scenario.y1]].
Proof.
  intros first second Hxy Hyx.
  assert (Hpair1 : MessageSync.resolveConflicts [Scenario.y1; Scenario.x1]
                   = [Scenario.y1; Scenario.x1])
    by (by rewrite resolveConflicts_pair, Hyx).
  assert (Hpair2 : MessageSync.resolveConflicts [Scenario.x1; Scenario.y1]
                   = [Scenario.x1; Scenario.y1])
    by (by rewrite resolveConflicts_pair, Hxy).
  assert (H1 : MessageSync.resolved first
               = [MessageSync.resolveConflicts [Scenario.y1; Scenario.x1]])
    by (by vm_compute).
  assert (H2 : MessageSync.resolved second
               = [MessageSync.resolveConflicts [Scenario.x1; Scenario.y1]])
    by (by vm_compute).
  split; [by vm_compute|]. split; [by vm_compute|]. split; [by vm_compute|].
  split; [by rewrite H1, Hpair1|by rewrite H2, Hpair2].
Qed.
End Resolution.

Section ResolutionRun.
#[local] Existing Instance Scenario.collation.

Lemma resolveConflicts_follows_arrival_on_tie_witness :
  localeCompare (msg_id Scenario.x1) (msg_id Scenario.y1) = 0
  ∧ localeCompare (msg_id Scenario.y1) (msg_id Scenario.x1) = 0
  ∧ MessageSync.resolved
      (MessageSync.receiveAll Scenario.C0 [Scenario.x1; Scenario.y1])
    = [[Scenario.y1; Scenario.x1]]
  ∧ MessageSync.resolved
      (MessageSync.receiveAll Scenario.C0 [Scenario.y1; Scenario.x1])
    = [[Scenario.x1; Scenario.y1]].
Proof.
  assert (Hxy : localeCompare (msg_id Scenario.x1) (msg_id Scenario.y1) = 0)
    by (by vm_compute).
  assert (Hyx : localeCompare (msg_id Scenario.y1) (msg_id Scenario.x1) = 0)
    by (by vm_compute).
  split; [exact Hxy|]. split; [exact Hyx|].
  exact (proj2 (proj2 (proj2
           (resolveConflicts_follows_arrival_on_tie Hxy Hyx)))).
Defined.
End ResolutionRun.

(** ** Reading a counter *)

Section Reading.
Implicit Types (vc : VectorClock) (p : string) (c : number) (z : Z).

Lemma orZero_Count vc p z : orZero vc p = Count z → z = known vc p.
Proof.
  unfold orZero, known.
  destruct (vc !! p) as [[x|]|]; [by intros [= ->]|by intros [= <-]|].
  destruct (inherited p); [done|by intros [= <-]].
Qed.

Lemma orZero_Member vc p :
  orZero vc p = Member ↔ vc !! p = None ∧ inherited p = true.
Proof.
  unfold orZero. destruct (vc !! p) as [[x|]|].
  - split; [done|by intros [? _]].
  - split; [done|by intros [? _]].
  - destruct (inherited p); split; try done. by intros [_ ?].
Qed.

(** Where the prototype is not reached, the read is the recorded
    counter. *)
Lemma orZero_known vc p :
  (vc !! p = None → inherited p = false) → orZero vc p = Count (known vc p).
Proof.
  unfold orZero, known. destruct (vc !! p) as [[x|]|]; [done|done|].
  intros H. by rewrite H.
Qed.

Lemma orZero_cases vc p :
  orZero vc p = Count (known vc p)
  ∨ (orZero vc p = Member ∧ vc !! p = None ∧ inherited p = true).
Proof.
  destruct (orZero vc p) as [z|] eqn:H.
  - left. by rewrite (orZero_Count _ _ _ H).
  - right. by apply orZero_Member in H as [? ?].
Qed.

Lemma isNext_true c (o : operand) :
  isNext c o = true ↔ ∃ z, o = Count z ∧ c = Num (z + 1).
Proof.
  unfold isNext. destruct c as [x|], o as [z|]; split; try done.
  - intros ->%Z.eqb_eq. by exists z.
  - intros (z' & [= <-] & [= ->]). apply Z.eqb_refl.
  - by intros (z' & ? & ?).
  - by intros (z' & ? & ?).
  - by intros (z' & ? & ?).
Qed.

Lemma greater_Count c z :
  greater c (Count z) = false ↔ ∀ x, c = Num x → x <= z.
Proof.
  unfold greater. destruct c as [x|].
  - rewrite Z.gtb_ltb, Z.ltb_ge. split; [by intros ? ? [= <-]|auto].
  - split; [done|by intros _].
Qed.

Lemma greater_Member c : greater c Member = false.
Proof. by destruct c. Qed.

Lemma assign_lookup_ne (k p : string) (v : number) vc :
  k ≠ p → assign k v vc !! p = vc !! p.
Proof.
  intros Hne. unfold assign.
  destruct (vc !! k); [by rewrite lookup_insert_ne|].
  destruct (String.eqb k "__proto__"); [done|by rewrite lookup_insert_ne].
Qed.

(** A write is lost only under the name "__proto__", and only while the
    object has no own property of that name. *)
Lemma assign_lookup_eq (k : string) (v : number) vc :
  assign k v vc !! k
  = if decide (k = "__proto__" ∧ vc !! k = None) then None else Some v.
Proof.
  unfold assign. destruct (vc !! k) as [w|] eqn:Hk.
  - rewrite lookup_insert_eq. by rewrite decide_False by (by intros [_ ?]).
  - destruct (String.eqb_spec k "__proto__") as [->|Hne].
    + by rewrite decide_True.
    + rewrite lookup_insert_eq. by rewrite decide_False by (by intros [? _]).
Qed.

Lemma assign_stored (k : string) (v : number) vc :
  (vc !! k = None → inherited k = false) → assign k v vc !! k = Some v.
Proof.
  intros H. rewrite assign_lookup_eq.
  destruct (decide _) as [[-> Hn]|]; [|done].
  by specialize (H Hn).
Qed.
End Reading.

(** ** The deliverability test *)

Section Deliverability.
Import MessageSync.
Context {host : Collation}.

Lemma clockEntryOk_sender (vc : VectorClock) (from : string) (c : number) :
  clockEntryOk vc from (from, c) = true
  ↔ ∃ z, orZero vc from = Count z ∧ c = Num (z + 1).
Proof.
  unfold clockEntryOk. simpl. rewrite String.eqb_refl. apply isNext_true.
Qed.

Lemma clockEntryOk_other (vc : VectorClock) (from p : string) (c : number) :
  p ≠ from →
  clockEntryOk vc from (p, c) = true ↔ greater c (orZero vc p) = false.
Proof.
  intros Hne. unfold clockEntryOk. simpl.
  destruct (String.eqb_spec p from) as [->|_]; [done|].
  apply negb_true_iff.
Qed.

(** The test accepts [m] exactly when its dependencies are in history
    and every entry its clock carries passes: the sender's entry is the
    number that follows the engine's read of its counter, and no other
    entry is greater than the engine's read. *)
Lemma canProcessMessage_iff (st : t) (m : SyncMessage) :
  canProcessMessage st m = true ↔
    (∀ d, d ∈ msg_causality m → JsMap.has d (messageHistory st) = true)
    ∧ (∀ c, msg_vectorClock m !! msg_from m = Some c →
            ∃ z, orZero (vectorClock st) (msg_from m) = Count z
                 ∧ c = Num (z + 1))
    ∧ (∀ p c, p ≠ msg_from m → msg_vectorClock m !! p = Some c →
              greater c (orZero (vectorClock st) p) = false).
Proof.
  unfold canProcessMessage.
  rewrite andb_true_iff, !forallb_forall. split.
  - intros [Hdeps Hclock]. split; [|split].
    + intros d Hd. apply Hdeps. by apply list_elem_of_In.
    + intros c Hc. apply clockEntryOk_sender.
      apply Hclock, list_elem_of_In. by apply elem_of_map_to_list.
    + intros p c Hne Hc. apply (clockEntryOk_other _ (msg_from m)); [done|].
      apply Hclock, list_elem_of_In. by apply elem_of_map_to_list.
  - intros (Hdeps & Hsender & Hother). split.
    + intros d Hd. apply Hdeps. by apply list_elem_of_In.
    + intros [p c] Hin%list_elem_of_In%elem_of_map_to_list.
      destruct (decide (p = msg_from m)) as [->|Hne].
      * apply clockEntryOk_sender. by apply Hsender.
      * apply clockEntryOk_other; [done|]. by apply Hother.
Qed.

Lemma canProcessMessage_deps (st : t) (m : SyncMessage) (d : string) :
  canProcessMessage st m = true → d ∈ msg_causality m →
  JsMap.has d (messageHistory st) = true.
Proof. intros (H & _)%canProcessMessage_iff. apply H. Qed.

(** An accepted sender entry is the recorded counter plus 1, and the
    engine's read of that counter did not reach the prototype. *)
Lemma canProcessMessage_sender (st : t) (m : SyncMessage) (c : number) :
  canProcessMessage st m = true →
  msg_vectorClock m !! msg_from m = Some c →
  c = Num (known (vectorClock st) (msg_from m) + 1)
  ∧ orZero (vectorClock st) (msg_from m)
    = Count (known (vectorClock st) (msg_from m)).
Proof.
  intros (_ & H & _)%canProcessMessage_iff Hc.
  destruct (H c Hc) as (z & Hz & ->).
  by rewrite Hz, (orZero_Count _ _ _ Hz).
Qed.

(** The test in terms of the recorded counters, for a clock whose names
    do not reach the prototype. *)
Lemma canProcessMessage_ordinary (st : t) (m : SyncMessage) :
  ordinary (msg_vectorClock m) →
  canProcessMessage st m = true ↔
    (∀ d, d ∈ msg_causality m → JsMap.has d (messageHistory st) = true)
    ∧ (∀ c, msg_vectorClock m !! msg_from m = Some c →
            c = Num (known (vectorClock st) (msg_from m) + 1))
    ∧ (∀ p c, p ≠ msg_from m → msg_vectorClock m !! p = Some (Num c) →
              c <= known (vectorClock st) p).
Proof.
  intros Hord. rewrite canProcessMessage_iff.
  assert (Hread : ∀ p c, msg_vectorClock m !! p = Some c →
            orZero (vectorClock st) p = Count (known (vectorClock st) p)).
  { intros p c Hc. apply orZero_known. intros _. apply Hord. by eexists. }
  split; intros (Hdeps & Hsender & Hother); (split; [done|]); split.
  - intros c Hc. destruct (Hsender c Hc) as (z & Hz & ->).
    by rewrite (orZero_Count _ _ _ Hz).
  - intros p c Hne Hc. specialize (Hother p _ Hne Hc).
    rewrite (Hread _ _ Hc) in Hother.
    by apply (proj1 (greater_Count _ _) Hother).
  - intros c Hc. exists (known (vectorClock st) (msg_from m)).
    split; [by eapply Hread|by apply Hsender].
  - intros p c Hne Hc. rewrite (Hread _ _ Hc). apply greater_Count.
    intros x ->. by apply Hother.
Qed.

(** The pending scan only appends to the delivery log. *)
Lemma pending_fold_ready (l : list (string * SyncMessage))
    (acc : t * list string) :
  ∃ rest, ready (fst (foldl pendingStep acc l)) = ready (fst acc) ++ rest.
Proof.
  revert acc. induction l as [|e l IH]; intros acc; simpl.
  - exists []. by rewrite app_nil_r.
  - destruct (IH (pendingStep acc e)) as [rest Hrest].
    rewrite Hrest. unfold pendingStep.
    destruct (canProcessMessage (fst acc) (snd e)); simpl.
    + exists (snd e :: rest). by rewrite <- app_assoc.
    + by exists rest.
Qed.

Lemma processPendingMessages_ready (st : t) :
  ∃ rest, ready (processPendingMessages st) = ready st ++ rest.
Proof.
  unfold processPendingMessages.
  destruct (pending_fold_ready (JsMap.entries (pendingMessages st)) (st, []))
    as [rest Hrest].
  destruct (foldl pendingStep (st, []) (JsMap.entries (pendingMessages st)))
    as [st1 processed].
  by exists rest.
Qed.

(** A scan in which no entry passes the test changes nothing. *)
Lemma pending_fold_idle (l : list (string * SyncMessage)) (st : t) :
  (∀ e, e ∈ l → canProcessMessage st (snd e) = false) →
  foldl pendingStep (st, []) l = (st, []).
Proof.
  induction l as [|e l IH]; intros Hall; simpl; [done|].
  unfold pendingStep at 2. simpl. rewrite (Hall e) by left.
  apply IH. intros e' He'. apply Hall. by right.
Qed.

Lemma processPendingMessages_idle (st : t) :
  (∀ e, e ∈ pendingMessages st → canProcessMessage st (snd e) = false) →
  processPendingMessages st = st.
Proof.
  intros Hall. unfold processPendingMessages, JsMap.entries.
  rewrite pending_fold_idle by done. by destruct st.
Qed.

End Deliverability.

(** ** Causal delivery *)

Section Delivery.
Context {host : Collation}.

(** C1. Evaluation at the arrival order m3, m2, m1 of three messages that
    peer A wrote in that causal order: when m1 arrives, the single scan
    of the pending buffer visits m3 before m2, delivers only m2 and
    returns; m3 stays buffered although it has become deliverable, while
    arrival in order delivers all three. *)
Theorem receiveMessage_reverse_arrival_strands :
  let inorder := MessageSync.receiveAll Scenario.B0
                   [Scenario.m1; Scenario.m2; Scenario.m3] in
  let reversed := MessageSync.receiveAll Scenario.B0
                    [Scenario.m3; Scenario.m2; Scenario.m1] in
  MessageSync.ready inorder = [Scenario.m1; Scenario.m2; Scenario.m3]
  ∧ MessageSync.pendingMessages inorder = []
  ∧ MessageSync.ready reversed = [Scenario.m1; Scenario.m2]
  ∧ MessageSync.pendingMessages reversed
    = [(msg_id Scenario.m3, Scenario.m3)]
  ∧ MessageSync.canProcessMessage reversed Scenario.m3 = true.
Proof. vm_compute. done. Qed.

(** C10. Evaluation at the arrival order bare2, m2, m1, where bare2 is a
    message of A with an empty clock, so without an entry for its
    sender, that depends on m2.  When m1 arrives, the single scan of the
    pending buffer visits bare2 before m2, delivers m2 and returns:
    bare2 stays buffered although its dependency is now in history and
    it carries no entry at all, so that the test accepts it.  Had bare2
    arrived after m2 it would have been delivered on arrival, and the
    engine's counter for A would have stayed at 2. *)
Theorem sender_free_message_strands :
  let late := MessageSync.receiveAll Scenario.B0
                [Scenario.bare2; Scenario.m2; Scenario.m1] in
  let timely := MessageSync.receiveAll Scenario.B0
                  [Scenario.m1; Scenario.m2; Scenario.bare2] in
  msg_vectorClock Scenario.bare2 = ∅
  ∧ msg_vectorClock Scenario.bare2 !! msg_from Scenario.bare2 = None
  ∧ MessageSync.ready late = [Scenario.m1; Scenario.m2]
  ∧ MessageSync.pendingMessages late
    = [(msg_id Scenario.bare2, Scenario.bare2)]
  ∧ (∀ d, d ∈ msg_causality Scenario.bare2 →
          JsMap.has d (MessageSync.messageHistory late) = true)
  ∧ MessageSync.canProcessMessage late Scenario.bare2 = true
  ∧ MessageSync.ready timely = [Scenario.m1; Scenario.m2; Scenario.bare2]
  ∧ MessageSync.pendingMessages timely = []
  ∧ MessageSync.vectorClock timely !! "A" = Some (Num 2).
Proof.
  split; [done|].
  split; [done|]. split; [by vm_compute|]. split; [by vm_compute|].
  split.
  { intros d [->|Hd]%elem_of_cons; [by vm_compute|by apply elem_of_nil in Hd]. }
  split; [by vm_compute|]. split; [by vm_compute|]. split; by vm_compute.
Qed.

(** C2, amended. For a message [m] not yet in history whose clock names
    no member of [Object.prototype], [receiveMessage] delivers [m] on
    arrival if and only if (1) every id of its dependency set is in
    history, (2) the entry for its sender, if its clock carries one, is
    the engine's counter for the sender plus 1, and (3) no other entry it
    carries is greater than the engine's counter.  When the test fails
    [m] is put in the pending buffer and the buffer is scanned; if no
    message of the buffer passes the test at that moment the call ends
    there: [m] is buffered, nothing is delivered and nothing else
    changes.  In the scenario, B buffers m2, and on receiving m1
    delivers m1 then m2. *)
Theorem receiveMessage_delivers_iff (st : MessageSync.t) (m : SyncMessage) :
  JsMap.has (msg_id m) (MessageSync.messageHistory st) = false →
  ordinary (msg_vectorClock m) →
  (MessageSync.canProcessMessage st m = true ↔
     (∀ d, d ∈ msg_causality m →
           JsMap.has d (MessageSync.messageHistory st) = true)
     ∧ (∀ c, msg_vectorClock m !! msg_from m = Some c →
             c = Num (known (MessageSync.vectorClock st) (msg_from m) + 1))
     ∧ (∀ p c, p ≠ msg_from m → msg_vectorClock m !! p = Some (Num c) →
               c <= known (MessageSync.vectorClock st) p))
  ∧ (MessageSync.canProcessMessage st m = true →
     MessageSync.receiveMessage st m
     = MessageSync.processPendingMessages (MessageSync.processMessage st m)
     ∧ ∃ rest, MessageSync.ready (MessageSync.receiveMessage st m)
               = MessageSync.ready st ++ m :: rest)
  ∧ (MessageSync.canProcessMessage st m = false →
     MessageSync.receiveMessage st m
     = MessageSync.processPendingMessages (MessageSync.addPending st m)
     ∧ ((∀ e, e ∈ MessageSync.pendingMessages st →
              MessageSync.canProcessMessage st (snd e) = false) →
        MessageSync.receiveMessage st m = MessageSync.addPending st m
        ∧ JsMap.get (msg_id m)
            (MessageSync.pendingMessages (MessageSync.receiveMessage st m))
          = Some m
        ∧ MessageSync.ready (MessageSync.receiveMessage st m)
          = MessageSync.ready st
        ∧ MessageSync.messageHistory (MessageSync.receiveMessage st m)
          = MessageSync.messageHistory st
        ∧ MessageSync.vectorClock (MessageSync.receiveMessage st m)
          = MessageSync.vectorClock st))
  ∧ (let B1 := MessageSync.receiveMessage Scenario.B0 Scenario.m2 in
     let B2 := MessageSync.receiveMessage B1 Scenario.m1 in
     MessageSync.ready B1 = []
     ∧ MessageSync.pendingMessages B1 = [(msg_id Scenario.m2, Scenario.m2)]
     ∧ MessageSync.ready B2 = [Scenario.m1; Scenario.m2]
     ∧ MessageSync.pendingMessages B2 = []).
Proof.
  intros Hnew Hord. split; [by apply canProcessMessage_ordinary|].
  split; [|split].
  - intros Hcan. unfold MessageSync.receiveMessage. rewrite Hnew, Hcan.
    split; [done|].
    destruct (processPendingMessages_ready (MessageSync.processMessage st m))
      as [rest Hrest].
    exists rest. rewrite Hrest. simpl. by rewrite <- app_assoc.
  - intros Hcan.
    assert (Hscan : MessageSync.receiveMessage st m
              = MessageSync.processPendingMessages
                  (MessageSync.addPending st m))
      by (unfold MessageSync.receiveMessage; by rewrite Hnew, Hcan).
    split; [exact Hscan|]. intros Hidle.
    assert (Heq : MessageSync.receiveMessage st m = MessageSync.addPending st m).
    { rewrite Hscan.
      apply processPendingMessages_idle. intros e He.
      cbn [MessageSync.addPending MessageSync.pendingMessages] in He.
      change (MessageSync.canProcessMessage (MessageSync.addPending st m) (snd e))
        with (MessageSync.canProcessMessage st (snd e)).
      apply JsMap_set_elem in He as [->|He]; [done|by apply Hidle]. }
    rewrite Heq. split; [done|]. split; [apply JsMap_get_set|done].
  - vm_compute. done.
Qed.
End Delivery.

Section DeliveryRuns.
#[local] Existing Instance Scenario.collation.

(** C2, as stated, fails: a message whose clock has no entry for its
    sender is delivered at once by a fresh engine, although its sender
    entry does not equal the known counter plus 1. *)
Lemma receiveMessage_delivers_without_sender_entry :
  JsMap.has (msg_id Scenario.bare) (MessageSync.messageHistory Scenario.B0)
    = false
  ∧ MessageSync.ready (MessageSync.receiveMessage Scenario.B0 Scenario.bare)
    = [Scenario.bare]
  ∧ ¬ Spec.deliverable Scenario.B0 Scenario.bare.
Proof.
  split; [done|]. split; [by vm_compute|].
  intros (_ & Hsender & _). vm_compute in Hsender. discriminate.
Qed.

Lemma receiveMessage_delivers_iff_witness :
  JsMap.has (msg_id Scenario.m2) (MessageSync.messageHistory Scenario.B0)
    = false
  ∧ ordinary (msg_vectorClock Scenario.m2)
  ∧ MessageSync.canProcessMessage Scenario.B0 Scenario.m2 = false
  ∧ MessageSync.receiveMessage Scenario.B0 Scenario.m2
    = MessageSync.addPending Scenario.B0 Scenario.m2.
Proof.
  assert (Hnew : JsMap.has (msg_id Scenario.m2)
                   (MessageSync.messageHistory Scenario.B0) = false)
    by reflexivity.
  assert (Hord : ordinary (msg_vectorClock Scenario.m2)).
  { intros k [c Hk].
    destruct (decide (k = "A")) as [->|Hne]; [reflexivity|].
    exfalso. revert Hk.
    change (msg_vectorClock Scenario.m2 !! k)
      with ((<["A" := Num 2]> (∅ : VectorClock)) !! k) at 1.
    by rewrite lookup_insert_ne, lookup_empty. }
  assert (Hcan : MessageSync.canProcessMessage Scenario.B0 Scenario.m2 = false)
    by (vm_compute; reflexivity).
  assert (Hidle : ∀ e, e ∈ MessageSync.pendingMessages Scenario.B0 →
            MessageSync.canProcessMessage Scenario.B0 (snd e) = false).
  { intros e He. by apply elem_of_nil in He. }
  split; [exact Hnew|]. split; [exact Hord|]. split; [exact Hcan|].
  exact (proj1 (proj2 (proj1 (proj2 (proj2 (receiveMessage_delivers_iff
           Scenario.B0 Scenario.m2 Hnew Hord))) Hcan) Hidle)).
Defined.
End DeliveryRuns.

(** ** Conflict detection *)

Lemma existsb_eqb_elem_of (a : string) (l : list string) :
  existsb (String.eqb a) l = true ↔ a ∈ l.
Proof.
  rewrite existsb_exists. split.
  - intros (x & Hin & ->%String.eqb_eq). by apply list_elem_of_In.
  - intros Hin. exists a. split; [by apply list_elem_of_In|].
    apply String.eqb_refl.
Qed.

Lemma isCausallyRelated_false (m h : SyncMessage) :
  MessageSync.isCausallyRelated m h = false ↔
    (msg_id h ∉ msg_causality m) ∧ (msg_id m ∉ msg_causality h).
Proof.
  unfold MessageSync.isCausallyRelated.
  rewrite orb_false_iff, <- !not_true_iff_false, !existsb_eqb_elem_of. done.
Qed.

Lemma conflictsWith_iff (m h : SyncMessage) :
  MessageSync.conflictsWith m h = true ↔
    msg_from h ≠ msg_from m ∧ Spec.concurrent m h.
Proof.
  unfold MessageSync.conflictsWith, Spec.concurrent, MessageSync.timeWindow.
  destruct (String.eqb_spec (msg_id h) (msg_id m)) as [Hid|Hid].
  { split; [done|]. intros (_ & _ & Hne & _). done. }
  rewrite !andb_true_iff, !negb_true_iff, isCausallyRelated_false.
  rewrite Z.ltb_lt, String.eqb_eq, String.eqb_neq. tauto.
Qed.

Section DetectionRun.
#[local] Existing Instance Scenario.collation.

(** C4, as stated, fails: two messages of the same author in one room,
    10 ms apart and naming neither the other, satisfy the stated
    conditions, and the earlier one is not flagged when the later one is
    delivered. *)
Lemma detectConflicts_skips_same_author :
  let st := MessageSync.receiveAll Scenario.B0
              [Scenario.solo1; Scenario.solo2] in
  MessageSync.ready st = [Scenario.solo1; Scenario.solo2]
  ∧ Scenario.solo1 ∈ JsMap.values (MessageSync.messageHistory st)
  ∧ Spec.concurrent Scenario.solo2 Scenario.solo1
  ∧ (Scenario.solo1
      ∉ MessageSync.detectConflicts (MessageSync.messageHistory st)
          Scenario.solo2)
  ∧ MessageSync.resolved st = [].
Proof.
  assert (Hc : Spec.concurrent Scenario.solo2 Scenario.solo1).
  { unfold Spec.concurrent. simpl. split; [done|]. split; [done|].
    split; [lia|]. split; apply not_elem_of_nil. }
  split; [by vm_compute|]. split; [vm_compute; left|]. split; [exact Hc|].
  split; [|by vm_compute].
  unfold MessageSync.detectConflicts.
  rewrite elem_of_for_push, conflictsWith_iff. intros (_ & Hne & _).
  by apply Hne.
Qed.

End DetectionRun.

Section Detection.
Context {host : Collation}.

(** C4, amended. When a message [m] is delivered, conflict detection
    flags exactly those history messages that come from a different
    sender than [m], are in the same room as [m], have a different id,
    have a timestamp less than 1000 ms from [m]'s, and are not causally
    related to [m] (neither id is in the other's dependency set); they
    are flagged in history order, and a non-empty flagged list is handed,
    with [m], to conflict resolution. *)
Theorem detectConflicts_flags_iff
    (st : MessageSync.t) (m h : SyncMessage) :
  let delivered := MessageSync.processMessage st m in
  (h ∈ MessageSync.detectConflicts (MessageSync.messageHistory delivered) m ↔
     h ∈ JsMap.values (MessageSync.messageHistory delivered)
     ∧ msg_from h ≠ msg_from m
     ∧ Spec.concurrent m h)
  ∧ MessageSync.detectConflicts (MessageSync.messageHistory delivered) m
    = List.filter (MessageSync.conflictsWith m)
        (JsMap.values (MessageSync.messageHistory delivered))
  ∧ MessageSync.resolved delivered
    = match MessageSync.detectConflicts
              (MessageSync.messageHistory delivered) m with
      | [] => MessageSync.resolved st
      | c :: cs =>
          MessageSync.resolved st ++ [MessageSync.resolveConflicts (m :: c :: cs)]
      end.
Proof.
  intros delivered. split; [|split].
  - unfold MessageSync.detectConflicts.
    by rewrite elem_of_for_push, conflictsWith_iff.
  - apply for_push_filter.
  - subst delivered. unfold MessageSync.processMessage.
    cbn [MessageSync.resolved MessageSync.messageHistory].
    by destruct (MessageSync.detectConflicts _ m).
Qed.
End Detection.

(** ** Catch-up requests *)

Section CatchUpRequest.
Context {host : Collation}.

(** C5. Evaluation for an engine whose own id is "constructor", the name
    of a member of [Object.prototype], after it wrote its first message
    k1.  The message's own counter for its author is 1 and a requester
    with an empty clock has recorded nothing for that author, so k1 is
    an entry the requester is missing.  The read
    [peerClock["constructor"] || 0] finds the inherited member instead of
    0, the comparison with it is false, and [handleSyncRequest] returns
    nothing.  For the ordinary ids of the scenario the request clock
    {A:3, B:1} against B's history A:1..A:5, B:1..B:2 returns A:4, A:5
    and B:2. *)
Theorem handleSyncRequest_skips_inherited_name :
  Scenario.k1 ∈ JsMap.values (MessageSync.messageHistory (snd Scenario.K1))
  ∧ msg_from Scenario.k1 = "constructor"
  ∧ Spec.missing ∅ Scenario.k1
  ∧ orZero ∅ "constructor" = Member
  ∧ MessageSync.handleSyncRequest (snd Scenario.K1) ∅ = []
  ∧ (map (fun m => (msg_from m, known (msg_vectorClock m) (msg_from m)))
       (JsMap.values (MessageSync.messageHistory (snd Scenario.B7)))
     = [("A", 1); ("A", 2); ("A", 3); ("A", 4); ("A", 5);
        ("B", 1); ("B", 2)]
     ∧ MessageSync.handleSyncRequest (snd Scenario.B7)
         (<["A" := Num 3]> (<["B" := Num 1]> ∅))
       = [Scenario.m4; Scenario.m5; Scenario.b2]).
Proof.
  split; [vm_compute; left|]. split; [done|]. split.
  { exists 1. split; [by vm_compute|]. by vm_compute. }
  split; [done|]. split; [by vm_compute|]. by vm_compute.
Qed.
End CatchUpRequest.

(** ** The registry and the signalling service *)

(** C6. Evaluation at the run: a client registers on socket s1 (room
    "general"), joins room "ops" with [join_room], and disconnects.
    Unregistering clears the registration-time room only: the peer is no
    longer registered, yet its id is still a member of room "ops", so the
    member sets are not within the registered peers. *)
Theorem unregister_leaves_joined_room_member :
  let joined :=
    DiscoveryService.run Scenario.S0
      [DiscoveryService.EvRegister "s1" "10.0.0.1" Scenario.alice
         1000 1000 "abc" 0%nat;
       DiscoveryService.EvJoinRoom "s1" "ops" 2000] in
  let final := DiscoveryService.step joined (DiscoveryService.EvDisconnect "s1") in
  let reg := DiscoveryService.peerRegistry final in
  is_Some (PeerRegistryManager.peers (DiscoveryService.peerRegistry joined)
             !! Scenario.aliceId)
  ∧ PeerRegistryManager.peers reg = ∅
  ∧ rd_peers <$> PeerRegistryManager.rooms reg !! "general" = Some []
  ∧ rd_peers <$> PeerRegistryManager.rooms reg !! "ops"
    = Some [Scenario.aliceId]
  ∧ ¬ DiscoveryService.roomsWithinPeers reg.
Proof.
  intros joined final reg.
  assert (Hpeers : PeerRegistryManager.peers reg = ∅)
    by (vm_compute; reflexivity).
  assert (Hops : rd_peers <$> PeerRegistryManager.rooms reg !! "ops"
                 = Some [Scenario.aliceId])
    by (vm_compute; reflexivity).
  split; [vm_compute; eauto|]. split; [exact Hpeers|].
  split; [vm_compute; reflexivity|]. split; [exact Hops|].
  intros Hinv.
  destruct (PeerRegistryManager.rooms reg !! "ops") as [room|] eqn:Hroom;
    [|discriminate Hops].
  injection Hops as Hmembers.
  destruct (Hinv "ops" room Scenario.aliceId Hroom) as [pd Hpd].
  - rewrite Hmembers. left.
  - rewrite Hpeers, lookup_empty in Hpd. discriminate Hpd.
Qed.

(** C7. Evaluation at the state after one client registered on socket s1
    in room "general": its [peer_discover] for "general" is answered with
    the unfiltered member list, which contains the caller itself, whereas
    the list sent at registration has the caller filtered out.  In
    general the handler sends [getPeersInRoom] as it is. *)
Theorem peer_discover_lists_caller :
  (∀ s socketId roomId,
     DiscoveryService.effects
       (DiscoveryService.on_peer_discover socketId roomId s)
     = DiscoveryService.effects s
       ++ [SocketEmit socketId
             (peer_list
                (PeerRegistryManager.getPeersInRoom roomId
                   (DiscoveryService.peerRegistry s)))])
  ∧ ∃ caller,
      PeerRegistryManager.getPeerBySocket "s1"
        (DiscoveryService.peerRegistry Scenario.S1) = Some caller
      ∧ peer_id caller = Scenario.aliceId
      ∧ rd_peers
          <$> PeerRegistryManager.rooms
                (DiscoveryService.peerRegistry Scenario.S1) !! "general"
        = Some [peer_id caller]
      ∧ last (DiscoveryService.effects Scenario.S1)
        = Some (SocketEmit "s1" (peer_list []))
      ∧ last (DiscoveryService.effects
                (DiscoveryService.on_peer_discover "s1" "general" Scenario.S1))
        = Some (SocketEmit "s1" (peer_list [caller])).
Proof.
  split; [done|].
  eexists. split; [vm_compute; reflexivity|].
  repeat split; vm_compute; reflexivity.
Qed.

(** C8, as stated, fails: the signal that reaches the addressed peer is
    not the signal received; its timestamp is the server's clock at relay
    time. *)
Lemma webrtc_signal_restamped :
  let out :=
    [IoToEmit "s1"
       (webrtc_signal
          {| sig_from := "peer_2000_xyz"; sig_to := Scenario.aliceId;
             sig_type := Offer; sig_data := "sdp"; sig_timestamp := 7 |})] in
  DiscoveryService.effects
    (DiscoveryService.on_webrtc_signal Scenario.offer 7 Scenario.S1)
  = DiscoveryService.effects Scenario.S1 ++ out
  ∧ ¬ Spec.relayed Scenario.S1 Scenario.offer out.
Proof.
  intros out. split; [vm_compute; reflexivity|].
  unfold Spec.relayed.
  replace (PeerRegistryManager.getPeer (sig_to Scenario.offer)
             (DiscoveryService.peerRegistry Scenario.S1))
    with (PeerRegistryManager.getPeerBySocket "s1"
            (DiscoveryService.peerRegistry Scenario.S1))
    by (vm_compute; reflexivity).
  destruct (PeerRegistryManager.getPeerBySocket "s1"
              (DiscoveryService.peerRegistry Scenario.S1)) as [target|];
    subst out; intros Heq; [|discriminate Heq].
  injection Heq as _ Hstamp. discriminate Hstamp.
Qed.

(** C8, amended. For every [webrtc_signal] received: if the addressed
    peer is registered, one signal is sent to that peer's socket, with
    [from], [to], [type] and [data] as received and the timestamp
    replaced by the server's current time; if it is not registered,
    nothing is sent to anyone.  In both cases the registry is
    unchanged. *)
Theorem on_webrtc_signal_relays
    (s : DiscoveryService.t) (signal : WebRTCSignal) (now : Z) :
  let s' := DiscoveryService.on_webrtc_signal signal now s in
  DiscoveryService.peerRegistry s' = DiscoveryService.peerRegistry s
  ∧ DiscoveryService.effects s'
    = DiscoveryService.effects s
      ++ match PeerRegistryManager.peers (DiscoveryService.peerRegistry s)
               !! sig_to signal with
         | Some target =>
             [IoToEmit (peer_socketId (pd_peer target))
                (webrtc_signal
                   {| sig_from := sig_from signal;
                      sig_to := sig_to signal;
                      sig_type := sig_type signal;
                      sig_data := sig_data signal;
                      sig_timestamp := now |})]
         | None => []
         end.
Proof.
  unfold DiscoveryService.on_webrtc_signal, PeerRegistryManager.getPeer.
  destruct (PeerRegistryManager.peers (DiscoveryService.peerRegistry s)
              !! sig_to signal) as [target|]; simpl.
  - done.
  - by rewrite app_nil_r.
Qed.

(** ** Sending on a data channel *)

(** C9. [sendMessage] never throws: it always returns a boolean.  When
    the peer has no data channel, or its channel is not in the open
    state, it returns false and changes nothing.  It returns true only
    when the peer's channel is open and the serialised payload was handed
    to that channel's [send], which accepted it. *)
Theorem sendMessage_false_unless_open {Data : Type}
    (withTimestamp : Data → Z → Data) (stringify : Data → Completion string)
    (st : WebRTCClient.t) (peerId : string) (data : Data) (now : Z) :
  let r := WebRTCClient.sendMessage withTimestamp stringify peerId data now st in
  (∃ b : bool, fst r = Normal b)
  ∧ ((∀ ch, WebRTCClient.dataChannels st !! peerId = Some ch →
            readyState ch ≠ Open) →
     r = (Normal false, st))
  ∧ (fst r = Normal true →
     ∃ ch buffer,
       WebRTCClient.dataChannels st !! peerId = Some ch
       ∧ readyState ch = Open
       ∧ stringify (withTimestamp data now) = Normal buffer
       ∧ channel_send ch buffer = Normal tt
       ∧ WebRTCClient.sent (snd r) = WebRTCClient.sent st ++ [(peerId, buffer)]).
Proof.
  intros r. subst r. unfold WebRTCClient.sendMessage.
  destruct (WebRTCClient.dataChannels st !! peerId) as [ch|] eqn:Hch.
  2:{ split; [by exists false|]. split; [done|]. simpl. discriminate. }
  destruct (readyState ch) eqn:Hstate; simpl;
    try (split; [by exists false|]; split; [done|]; discriminate).
  unfold WebRTCClient.try_catch, mbind, WebRTCClient.M_bind, WebRTCClient.bind,
    WebRTCClient.serializeMessage, WebRTCClient.lift, WebRTCClient.send,
    WebRTCClient.recordDataTransfer, mret, WebRTCClient.M_ret, WebRTCClient.ret.
  destruct (stringify (withTimestamp data now)) as [buffer|err] eqn:Hjson.
  2:{ split; [by exists false|]. split; [|simpl; discriminate].
      intros Hno. by destruct (Hno ch). }
  destruct (channel_send ch buffer) as [[]|err] eqn:Hsend; simpl.
  - split; [by exists true|]. split.
    + intros Hno. by destruct (Hno ch).
    + intros _. by exists ch, buffer.
  - split; [by exists false|]. split; [|discriminate].
    intros Hno. by destruct (Hno ch).
Qed.

Lemma sendMessage_false_unless_open_witness :
  (∀ ch, WebRTCClient.dataChannels Scenario.client !! "p2" = Some ch →
         readyState ch ≠ Open)
  ∧ WebRTCClient.sendMessage Scenario.stampText Scenario.jsonText
      "p2" "hello" 42 Scenario.client
    = (Normal false, Scenario.client).
Proof.
  assert (Hno : ∀ ch, WebRTCClient.dataChannels Scenario.client !! "p2"
                      = Some ch → readyState ch ≠ Open).
  { intros ch Hch. vm_compute in Hch. injection Hch as <-. discriminate. }
  split; [exact Hno|].
  exact (proj1 (proj2 (sendMessage_false_unless_open
                         Scenario.stampText Scenario.jsonText
                         Scenario.client "p2" "hello" 42)) Hno).
Defined.

(** * Further properties of the code *)

(** ** Merging vector clocks *)

Section ClockMerge.
Implicit Types (vc r : VectorClock) (p : string) (l : list (string * number)).

Lemma numericb_numeric (c : VectorClock) : numericb c = true → numeric c.
Proof.
  unfold numericb. rewrite forallb_forall. intros H k Hk.
  apply elem_of_map_to_list, list_elem_of_In, H in Hk. done.
Qed.

Lemma ordinaryb_ordinary (c : VectorClock) : ordinaryb c = true → ordinary c.
Proof.
  unfold ordinaryb. rewrite forallb_forall. intros H k [v Hk].
  apply elem_of_map_to_list, list_elem_of_In, H in Hk.
  by apply negb_true_iff in Hk.
Qed.

Lemma numeric_lookup (c : VectorClock) (k : string) (v : number) :
  numeric c → c !! k = Some v → ∃ z, v = Num z.
Proof.
  intros Hn Hk. destruct v as [z|]; [by exists z|]. by destruct (Hn k).
Qed.

Local Abbreviation merge_step :=
  (fun acc (e : string * number) =>
     assign (fst e) (mathMax (orZero acc (fst e)) (snd e)) acc).

Lemma orZero_ext vc vc' p : vc !! p = vc' !! p → orZero vc p = orZero vc' p.
Proof. unfold orZero. by intros ->. Qed.

Lemma merge_fold_untouched l vc p :
  p ∉ l.*1 → foldl merge_step vc l !! p = vc !! p.
Proof.
  revert vc. induction l as [|[q c] l IH]; intros vc Hp; [done|].
  simpl in *. apply not_elem_of_cons in Hp as [Hne Hp].
  rewrite IH by done. by apply assign_lookup_ne.
Qed.

Lemma merge_fold_hit l vc p c :
  NoDup l.*1 → (p, c) ∈ l →
  foldl merge_step vc l !! p = assign p (mathMax (orZero vc p) c) vc !! p.
Proof.
  revert vc. induction l as [|[q c'] l IH]; intros vc Hnd Hin.
  - by apply elem_of_nil in Hin.
  - simpl in *. apply NoDup_cons in Hnd as [Hq Hnd].
    apply elem_of_cons in Hin as [[= -> ->]|Hin].
    + by rewrite merge_fold_untouched.
    + assert (Hne : q ≠ p).
      { intros ->. apply Hq, list_elem_of_fmap. by exists (p, c). }
      rewrite (IH _ Hnd Hin).
      assert (Hsame : assign q (mathMax (orZero vc q) c') vc !! p = vc !! p)
        by by apply assign_lookup_ne.
      rewrite !assign_lookup_eq, (orZero_ext _ vc p Hsame), Hsame. done.
Qed.

(** The merge writes, under each name of the received clock, the
    maximum of the engine's read and the received counter, and leaves
    every other entry alone. *)
Lemma updateVectorClock_lookup vc r p :
  MessageSync.updateVectorClock vc r !! p
  = match r !! p with
    | Some c => assign p (mathMax (orZero vc p) c) vc !! p
    | None => vc !! p
    end.
Proof.
  unfold MessageSync.updateVectorClock.
  destruct (r !! p) as [c|] eqn:Hr.
  - apply merge_fold_hit; [apply NoDup_fst_map_to_list|].
    by apply elem_of_map_to_list.
  - apply merge_fold_untouched.
    intros ([q c] & -> & Hin%elem_of_map_to_list)%list_elem_of_fmap.
    simpl in Hr. congruence.
Qed.

(** A number merged under a name whose read does not reach the
    prototype. *)
Lemma updateVectorClock_counted vc r p c :
  r !! p = Some (Num c) → (vc !! p = None → inherited p = false) →
  MessageSync.updateVectorClock vc r !! p = Some (Num (Z.max (known vc p) c)).
Proof.
  intros Hr Hp. rewrite updateVectorClock_lookup, Hr.
  rewrite assign_stored by done. by rewrite orZero_known.
Qed.

(** A counter merged under a name of the prototype that the engine has
    not recorded. *)
Lemma updateVectorClock_member vc r p c :
  r !! p = Some c → vc !! p = None → inherited p = true →
  MessageSync.updateVectorClock vc r !! p
  = if String.eqb p "__proto__" then None else Some NaN.
Proof.
  intros Hr Hvc Hp. rewrite updateVectorClock_lookup, Hr, assign_lookup_eq.
  assert (Hm : orZero vc p = Member) by by apply orZero_Member.
  rewrite Hm. simpl.
  destruct (String.eqb_spec p "__proto__") as [->|Hne].
  - by rewrite decide_True.
  - by rewrite decide_False by (by intros [? _]).
Qed.

Lemma updateVectorClock_known vc r p :
  known (MessageSync.updateVectorClock vc r) p
  = match r !! p with
    | Some c => match mathMax (orZero vc p) c with Num z => z | NaN => 0 end
    | None => known vc p
    end.
Proof.
  unfold known at 1. rewrite updateVectorClock_lookup.
  destruct (r !! p) as [c|]; [|done]. rewrite assign_lookup_eq.
  destruct (decide _) as [[-> Hn]|]; [|done].
  assert (Hm : orZero vc "__proto__" = Member) by by apply orZero_Member.
  by rewrite Hm.
Qed.

(** A received number never lowers the recorded counter. *)
Lemma updateVectorClock_mono vc r p :
  r !! p ≠ Some NaN →
  known vc p <= known (MessageSync.updateVectorClock vc r) p.
Proof.
  intros Hr. rewrite updateVectorClock_known.
  destruct (r !! p) as [[c|]|]; [|done|lia].
  destruct (orZero_cases vc p) as [->|(-> & Hn & _)]; simpl; [lia|].
  unfold known. rewrite Hn. lia.
Qed.

Lemma updateVectorClock_mono_numeric vc r p :
  numeric r → known vc p <= known (MessageSync.updateVectorClock vc r) p.
Proof. intros Hr. apply updateVectorClock_mono, Hr. Qed.
End ClockMerge.

(** X1. After a merge, an entry the received clock does not name is
    exactly as it was.  An entry it names with a number, under a name the
    engine has recorded or that is no member of [Object.prototype], holds
    the maximum of the recorded counter (0 if none, or if [NaN]) and the
    received number.  Under a name of [Object.prototype] that the engine
    has not recorded the merge leaves [NaN], whatever was received, and
    nothing at all for "__proto__".  A received [NaN] is stored as it is.
    Unless [NaN] was received for it, no recorded counter is lowered. *)
Theorem updateVectorClock_entrywise_max
    (vc received : VectorClock) (p : string) :
  (received !! p = None →
   MessageSync.updateVectorClock vc received !! p = vc !! p)
  ∧ (∀ c, received !! p = Some (Num c) →
          (vc !! p = None → inherited p = false) →
          MessageSync.updateVectorClock vc received !! p
          = Some (Num (Z.max (known vc p) c)))
  ∧ (∀ c, received !! p = Some c → vc !! p = None → inherited p = true →
          MessageSync.updateVectorClock vc received !! p
          = if String.eqb p "__proto__" then None else Some NaN)
  ∧ (received !! p = Some NaN →
     (vc !! p = None → inherited p = false) →
     MessageSync.updateVectorClock vc received !! p = Some NaN)
  ∧ (received !! p ≠ Some NaN →
     known vc p <= known (MessageSync.updateVectorClock vc received) p).
Proof.
  split; [|split; [|split; [|split]]].
  - intros Hn. by rewrite updateVectorClock_lookup, Hn.
  - intros c. apply updateVectorClock_counted.
  - intros c. apply updateVectorClock_member.
  - intros Hr Hp. rewrite updateVectorClock_lookup, Hr.
    rewrite assign_stored by done. by destruct (orZero vc p).
  - apply updateVectorClock_mono.
Qed.

Lemma updateVectorClock_entrywise_max_witness :
  (<["constructor" := Num 7]> (∅ : VectorClock)) !! "constructor"
  = Some (Num 7)
  ∧ (∅ : VectorClock) !! "constructor" = None
  ∧ inherited "constructor" = true
  ∧ MessageSync.updateVectorClock ∅ (<["constructor" := Num 7]> ∅)
      !! "constructor"
    = Some NaN.
Proof.
  assert (H1 : (<["constructor" := Num 7]> (∅ : VectorClock)) !! "constructor"
               = Some (Num 7)) by reflexivity.
  assert (H2 : (∅ : VectorClock) !! "constructor" = None) by reflexivity.
  assert (H3 : inherited "constructor" = true) by reflexivity.
  split; [exact H1|]. split; [exact H2|]. split; [exact H3|].
  exact (proj1 (proj2 (proj2 (updateVectorClock_entrywise_max
                  ∅ (<["constructor" := Num 7]> ∅) "constructor")))
           (Num 7) H1 H2 H3).
Defined.

(** X2. For received clocks that hold numbers proper under names that
    are no members of [Object.prototype], merging is idempotent and
    order-independent: merging the same clock twice is merging it once,
    and merging two clocks in either order gives the same vector
    clock. *)
Theorem updateVectorClock_idempotent_commutative (vc a b : VectorClock) :
  numeric a → ordinary a → numeric b → ordinary b →
  MessageSync.updateVectorClock (MessageSync.updateVectorClock vc a) a
  = MessageSync.updateVectorClock vc a
  ∧ MessageSync.updateVectorClock (MessageSync.updateVectorClock vc a) b
    = MessageSync.updateVectorClock (MessageSync.updateVectorClock vc b) a.
Proof.
  intros Hna Hoa Hnb Hob.
  assert (Hhit : ∀ (r : VectorClock) v p c,
            numeric r → ordinary r → r !! p = Some c →
            ∃ z, c = Num z
                 ∧ MessageSync.updateVectorClock v r !! p
                   = Some (Num (Z.max (known v p) z))).
  { intros r v p c Hn Ho Hc.
    destruct (numeric_lookup _ _ _ Hn Hc) as [z ->]. exists z.
    split; [done|]. apply updateVectorClock_counted; [done|].
    intros _. apply Ho. by eexists. }
  assert (Hmiss : ∀ (r : VectorClock) v p,
            r !! p = None → MessageSync.updateVectorClock v r !! p = v !! p).
  { intros r v p Hc. by rewrite updateVectorClock_lookup, Hc. }
  assert (Hk : ∀ (v : VectorClock) p z, v !! p = Some (Num z) → known v p = z).
  { intros v p z Hv. unfold known. by rewrite Hv. }
  split; apply map_eq; intros p.
  - destruct (a !! p) as [c|] eqn:Ha.
    + destruct (Hhit a vc p c Hna Hoa Ha) as (z & -> & E1).
      destruct (Hhit a (MessageSync.updateVectorClock vc a) p _ Hna Hoa Ha)
        as (z' & [= <-] & E2).
      rewrite E2, E1, (Hk _ _ _ E1). do 2 f_equal. lia.
    + by rewrite !Hmiss.
  - destruct (a !! p) as [ca|] eqn:Ha, (b !! p) as [cb|] eqn:Hb.
    + destruct (Hhit a vc p _ Hna Hoa Ha) as (za & -> & Ea).
      destruct (Hhit b vc p _ Hnb Hob Hb) as (zb & -> & Eb).
      destruct (Hhit b (MessageSync.updateVectorClock vc a) p _ Hnb Hob Hb)
        as (? & [= <-] & ->).
      destruct (Hhit a (MessageSync.updateVectorClock vc b) p _ Hna Hoa Ha)
        as (? & [= <-] & ->).
      rewrite (Hk _ _ _ Ea), (Hk _ _ _ Eb). do 2 f_equal. lia.
    + destruct (Hhit a vc p _ Hna Hoa Ha) as (za & -> & Ea).
      destruct (Hhit a (MessageSync.updateVectorClock vc b) p _ Hna Hoa Ha)
        as (? & [= <-] & ->).
      rewrite (Hmiss b) by done. rewrite Ea. do 2 f_equal.
      unfold known. by rewrite (Hmiss b).
    + destruct (Hhit b vc p _ Hnb Hob Hb) as (zb & -> & Eb).
      destruct (Hhit b (MessageSync.updateVectorClock vc a) p _ Hnb Hob Hb)
        as (? & [= <-] & ->).
      rewrite (Hmiss a _ _ Ha), Eb. do 2 f_equal.
      unfold known. by rewrite (Hmiss a).
    + by rewrite !Hmiss.
Qed.

Lemma updateVectorClock_idempotent_commutative_witness :
  let vc : VectorClock := <["A" := Num 5]> ∅ in
  let a : VectorClock := <["A" := Num 7]> (<["B" := Num 1]> ∅) in
  let b : VectorClock := <["B" := Num 3]> ∅ in
  numeric a ∧ ordinary a ∧ numeric b ∧ ordinary b
  ∧ MessageSync.updateVectorClock (MessageSync.updateVectorClock vc a) b
    = MessageSync.updateVectorClock (MessageSync.updateVectorClock vc b) a.
Proof.
  intros vc a b.
  assert (Hna : numeric a) by (apply numericb_numeric; by vm_compute).
  assert (Hoa : ordinary a) by (apply ordinaryb_ordinary; by vm_compute).
  assert (Hnb : numeric b) by (apply numericb_numeric; by vm_compute).
  assert (Hob : ordinary b) by (apply ordinaryb_ordinary; by vm_compute).
  split; [exact Hna|]. split; [exact Hoa|]. split; [exact Hnb|].
  split; [exact Hob|].
  exact (proj2 (updateVectorClock_idempotent_commutative vc a b
                  Hna Hoa Hnb Hob)).
Defined.

(** ** The pending scan, step by step *)

Section ScanSteps.
Import MessageSync.
Context {host : Collation}.

Lemma processPendingMessages_unfold (st : t) :
  ∃ st1 processed,
    foldl pendingStep (st, []) (JsMap.entries (pendingMessages st))
    = (st1, processed)
    ∧ processPendingMessages st
      = with_pending
          (foldl (fun p id => JsMap.delete id p) (pendingMessages st1)
             processed)
          st1.
Proof.
  unfold processPendingMessages.
  destruct (foldl pendingStep (st, []) (JsMap.entries (pendingMessages st)))
    as [st1 processed]. by exists st1, processed.
Qed.

Lemma pending_fold_pending (l : list (string * SyncMessage))
    (acc : t * list string) :
  pendingMessages (fst (foldl pendingStep acc l)) = pendingMessages (fst acc).
Proof.
  revert acc. induction l as [|e l IH]; intros acc; simpl; [done|].
  rewrite IH. unfold pendingStep.
  by destruct (canProcessMessage (fst acc) (snd e)).
Qed.

Lemma fold_delete_elem {V : Type} (ks : list string) (m : JsMap.t V)
    (e : string * V) :
  e ∈ foldl (fun p id => JsMap.delete id p) m ks → e ∈ m.
Proof.
  revert m. induction ks as [|k ks IH]; intros m; simpl; [done|].
  intros He%IH. by apply JsMap_delete_elem in He as [? _].
Qed.

(** The scan adds nothing to the pending buffer. *)
Lemma processPendingMessages_pending_elem (st : t)
    (e : string * SyncMessage) :
  e ∈ pendingMessages (processPendingMessages st) → e ∈ pendingMessages st.
Proof.
  destruct (processPendingMessages_unfold st) as (st1 & processed & Hf & ->).
  cbn [with_pending pendingMessages]. intros He%fold_delete_elem.
  pose proof (pending_fold_pending (JsMap.entries (pendingMessages st))
                (st, [])) as Hp.
  rewrite Hf in Hp. simpl in Hp. by rewrite <- Hp.
Qed.

(** A call of [receiveMessage] adds at most the message received. *)
Lemma receiveMessage_pending_elem (st : t) (m : SyncMessage)
    (e : string * SyncMessage) :
  e ∈ pendingMessages (receiveMessage st m) →
  e = (msg_id m, m) ∨ e ∈ pendingMessages st.
Proof.
  unfold receiveMessage.
  destruct (JsMap.has (msg_id m) (messageHistory st)); [by right|].
  intros He%processPendingMessages_pending_elem.
  destruct (canProcessMessage st m); [by right|].
  by apply JsMap_set_elem in He.
Qed.

Lemma JsMap_delete_filter {V : Type} (k : string) (m : JsMap.t V) :
  JsMap.delete k m = List.filter (fun e => negb (String.eqb (fst e) k)) m.
Proof.
  induction m as [|[k' v'] m IH]; simpl; [done|].
  destruct (String.eqb k' k); simpl; by rewrite IH.
Qed.

Lemma filter_filter_andb {A : Type} (f g : A → bool) (l : list A) :
  List.filter f (List.filter g l) = List.filter (fun x => g x && f x) l.
Proof.
  induction l as [|x l IH]; simpl; [done|].
  destruct (g x); simpl; [|done]. destruct (f x); by rewrite IH.
Qed.

Lemma sweep_fold_filter (oneHourAgo : Z) (l acc : list (string * SyncMessage)) :
  foldl (fun acc e =>
           if msg_timestamp (snd e) <? oneHourAgo
           then JsMap.delete (fst e) acc else acc) acc l
  = List.filter (survives oneHourAgo l) acc.
Proof.
  revert acc. induction l as [|e' l IH]; intros acc; cbn [foldl].
  - induction acc as [|x acc IHa]; simpl; [done|]. by rewrite <- IHa.
  - rewrite IH. unfold survives. cbn [forallb].
    destruct (msg_timestamp (snd e') <? oneHourAgo); cbn [andb negb].
    + rewrite JsMap_delete_filter, filter_filter_andb. done.
    + done.
Qed.

Lemma sweep_elem (oneHourAgo : Z) (h : JsMap.t SyncMessage)
    (e : string * SyncMessage) :
  e ∈ sweep oneHourAgo h → e ∈ h.
Proof.
  unfold sweep. rewrite sweep_fold_filter.
  intros He%list_elem_of_In%filter_In. by apply list_elem_of_In, He.
Qed.
End ScanSteps.

(** ** Lifting a step property to [receiveMessage] and to runs *)

Section Lift.
Import MessageSync.
Context {host : Collation}.

(** The messages that are let in, and a relation between the engine
    before and after, which does not look at the pending buffer of the
    later state. *)
Variable Q : SyncMessage → Prop.
Variable R : t → t → Prop.
Hypothesis R_refl : ∀ s, R s s.
Hypothesis R_trans : ∀ a b c, R a b → R b c → R a c.
Hypothesis R_pending : ∀ s s' p, R s s' → R s (with_pending p s').
Hypothesis R_process :
  ∀ s m, Q m → canProcessMessage s m = true → R s (processMessage s m).

Lemma pending_fold_rel (l : list (string * SyncMessage))
    (acc : t * list string) :
  (∀ e, e ∈ l → Q (snd e)) →
  R (fst acc) (fst (foldl pendingStep acc l)).
Proof.
  revert acc. induction l as [|e l IH]; intros acc HQ; simpl; [done|].
  eapply R_trans; [|apply IH; intros e' He'; apply HQ; by right].
  unfold pendingStep.
  destruct (canProcessMessage (fst acc) (snd e)) eqn:Hcan; simpl; [|done].
  apply R_process; [|done]. apply HQ. left.
Qed.

Lemma processPendingMessages_with_pending (st : t) :
  ∃ p, processPendingMessages st
       = with_pending p
           (fst (foldl pendingStep (st, [])
                   (JsMap.entries (pendingMessages st)))).
Proof.
  unfold processPendingMessages.
  destruct (foldl pendingStep (st, []) (JsMap.entries (pendingMessages st)))
    as [st1 processed]. by eexists.
Qed.

Lemma processPendingMessages_rel (st : t) :
  (∀ e, e ∈ pendingMessages st → Q (snd e)) →
  R st (processPendingMessages st).
Proof.
  intros HQ. destruct (processPendingMessages_with_pending st) as [p ->].
  apply R_pending. by apply (pending_fold_rel _ (st, [])).
Qed.

Lemma receiveMessage_rel (st : t) (m : SyncMessage) :
  Q m → (∀ e, e ∈ pendingMessages st → Q (snd e)) →
  R st (receiveMessage st m).
Proof.
  intros Hm HQ. unfold receiveMessage.
  destruct (JsMap.has (msg_id m) (messageHistory st)); [done|].
  destruct (canProcessMessage st m) eqn:Hcan.
  - eapply R_trans; [by apply R_process|].
    by apply processPendingMessages_rel.
  - eapply R_trans; [|apply processPendingMessages_rel].
    + change (addPending st m)
        with (with_pending
                (JsMap.set (msg_id m) m (pendingMessages st)) st).
      by apply R_pending.
    + intros e [->|He]%JsMap_set_elem; [done|by apply HQ].
Qed.

Lemma receiveAll_rel (ms : list SyncMessage) (st : t) :
  (∀ m, m ∈ ms → Q m) → (∀ e, e ∈ pendingMessages st → Q (snd e)) →
  R st (receiveAll st ms).
Proof.
  revert st. induction ms as [|m ms IH]; intros st Hms HQ; simpl; [done|].
  eapply R_trans; [apply receiveMessage_rel; [apply Hms; left|done]|].
  apply IH; [intros m' Hm'; apply Hms; by right|].
  intros e [->|He]%receiveMessage_pending_elem; [apply Hms; left|by apply HQ].
Qed.

Hypothesis R_create :
  ∀ s content room type nowId nowTs,
    R s (snd (createMessage content room type nowId nowTs s)).
Hypothesis R_cleanup : ∀ s now, R s (cleanup now s).

Lemma runOps_rel (ops : list Op) (st : t) :
  (∀ m, Receive m ∈ ops → Q m) →
  (∀ e, e ∈ pendingMessages st → Q (snd e)) →
  R st (runOps st ops).
Proof.
  revert st. induction ops as [|op ops IH]; intros st Hops HQ; simpl; [done|].
  assert (Hrest : ∀ m, Receive m ∈ ops → Q m)
    by (intros m Hm; apply Hops; by right).
  destruct op as [content room type nowId nowTs|m|now]; simpl.
  - eapply R_trans; [apply R_create|]. by apply IH.
  - eapply R_trans; [apply receiveMessage_rel; [apply Hops; left|done]|].
    apply IH; [done|].
    intros e [->|He]%receiveMessage_pending_elem; [apply Hops; left|by apply HQ].
  - eapply R_trans; [apply R_cleanup|]. apply IH; [done|].
    intros e He%sweep_elem. by apply HQ.
Qed.
End Lift.

(** ** Counters never decrease *)

Section Counters.
Import MessageSync.
Context {host : Collation}.

Lemma increment_lookup_ne (k p : string) (vc : VectorClock) :
  k ≠ p → increment k vc !! p = vc !! p.
Proof. apply assign_lookup_ne. Qed.

Lemma increment_counted (k : string) (vc : VectorClock) (z : Z) :
  vc !! k = Some (Num z) → increment k vc !! k = Some (Num (z + 1)).
Proof.
  intros Hk. unfold increment. rewrite Hk, assign_stored; [done|].
  by rewrite Hk.
Qed.

Lemma increment_known (k p : string) (vc : VectorClock) :
  known (increment k vc) p
  = if decide (p = k) then
      match vc !! k with
      | Some (Num z) => z + 1
      | _ => 0
      end
    else known vc p.
Proof.
  destruct (decide (p = k)) as [->|Hne].
  - unfold known, increment. rewrite assign_lookup_eq.
    destruct (vc !! k) as [[z|]|] eqn:Hk.
    + by rewrite decide_False by (by intros [_ ?]).
    + by rewrite decide_False by (by intros [_ ?]).
    + by destruct (decide _).
  - unfold known. by rewrite increment_lookup_ne.
Qed.

Lemma increment_mono (k p : string) (vc : VectorClock) :
  known vc p <= known (increment k vc) p.
Proof.
  rewrite increment_known. destruct (decide (p = k)) as [->|]; [|lia].
  unfold known. destruct (vc !! k) as [[z|]|]; lia.
Qed.

Lemma integral_received (ops : list Op) (m : SyncMessage) :
  Forall integral ops → Receive m ∈ ops → numeric (msg_vectorClock m).
Proof. rewrite Forall_forall. intros H Hin. apply (H _ Hin). Qed.

Lemma pending_numeric_elem (st : t) (e : string * SyncMessage) :
  pending_numeric st → e ∈ pendingMessages st →
  numeric (msg_vectorClock (snd e)).
Proof. unfold pending_numeric. rewrite Forall_forall. auto. Qed.

Lemma pending_numeric_constructor (peer : string) (e : string * SyncMessage) :
  e ∈ pendingMessages (constructor peer) → numeric (msg_vectorClock (snd e)).
Proof. intros He. by apply elem_of_nil in He. Qed.

(** X3. When the clocks of the messages that arrive, and of those
    already buffered, hold numbers proper, no operation of the engine
    lowers a counter of its vector clock: after any run of
    [createMessage], [receiveMessage] and [cleanup] calls, every peer's
    recorded counter is at least what it was. *)
Theorem vectorClock_never_decreases
    (st : MessageSync.t) (ops : list MessageSync.Op) (p : string) :
  Forall integral ops → pending_numeric st →
  known (MessageSync.vectorClock st) p
  <= known (MessageSync.vectorClock (MessageSync.runOps st ops)) p.
Proof.
  intros Hops Hpend. revert p.
  apply (runOps_rel (fun m => numeric (msg_vectorClock m))
           (fun s s' => ∀ p, known (MessageSync.vectorClock s) p
                             <= known (MessageSync.vectorClock s') p)).
  - intros s p. lia.
  - intros a b c Hab Hbc p. specialize (Hab p). specialize (Hbc p). lia.
  - intros s s' q H. exact H.
  - intros s m Hm _ p. simpl. by apply updateVectorClock_mono_numeric.
  - intros s content room type nowId nowTs p. simpl. apply increment_mono.
  - intros s now p. simpl. lia.
  - intros m. by apply integral_received.
  - intros e. by apply pending_numeric_elem.
Qed.
End Counters.

Section CountersRun.
Import MessageSync.
#[local] Existing Instance Scenario.collation.

Lemma vectorClock_never_decreases_witness :
  let ops := [Receive Scenario.m1; Create "hi" "ops" TText 150 150;
              Receive Scenario.m2; Cleanup 4000000] in
  Forall integral ops
  ∧ pending_numeric Scenario.B0
  ∧ known (vectorClock Scenario.B0) "A"
    <= known (vectorClock (runOps Scenario.B0 ops)) "A"
  ∧ known (vectorClock (runOps Scenario.B0 ops)) "A" = 2.
Proof.
  intros ops.
  assert (Hops : Forall integral ops).
  { repeat constructor; apply numericb_numeric; by vm_compute. }
  assert (Hpend : pending_numeric Scenario.B0) by constructor.
  split; [exact Hops|]. split; [exact Hpend|].
  split; [|by vm_compute].
  exact (vectorClock_never_decreases Scenario.B0 ops "A" Hops Hpend).
Defined.
End CountersRun.

(** ** Delivery happens at most once *)

Section AtMostOnce.
Import MessageSync.
Context {host : Collation}.

Lemma stamps_snoc (l : list SyncMessage) (m : SyncMessage) :
  stamps (l ++ [m])
  = stamps l ++ match stamp m with Some x => [x] | None => [] end.
Proof. unfold stamps. rewrite omap_app. simpl. by destruct (stamp m). Qed.

Lemma stamp_Some (m : SyncMessage) (q : string) (c : number) :
  stamp m = Some (q, c) ↔ q = msg_from m ∧ msg_vectorClock m !! msg_from m = Some c.
Proof.
  unfold stamp. destruct (msg_vectorClock m !! msg_from m) as [c'|]; simpl.
  - split; [by intros [= <- <-]|by intros [-> [= ->]]].
  - split; [done|by intros [_ ?]].
Qed.

Lemma delivered_once_process (s : t) (m : SyncMessage) :
  numeric (msg_vectorClock m) →
  canProcessMessage s m = true →
  delivered_once s → delivered_once (processMessage s m).
Proof.
  intros Hnum Hcan [Hnd Hle]. unfold delivered_once. simpl.
  rewrite stamps_snoc.
  assert (Hmono : ∀ q, known (vectorClock s) q
            <= known (updateVectorClock (vectorClock s) (msg_vectorClock m)) q)
    by (intros q; by apply updateVectorClock_mono_numeric).
  destruct (stamp m) as [[q c]|] eqn:Hst.
  - apply stamp_Some in Hst as [-> Hc].
    destruct (canProcessMessage_sender _ _ _ Hcan Hc) as [-> Hread].
    split.
    + apply NoDup_app. split; [done|]. split; [|apply NoDup_singleton].
      intros x Hx ->%list_elem_of_singleton.
      destruct (Hle _ _ Hx) as (z & [= <-] & Hz). lia.
    + intros q c' [Hin|Hin%list_elem_of_singleton]%elem_of_app.
      * destruct (Hle _ _ Hin) as (z & -> & Hz). exists z.
        split; [done|]. specialize (Hmono q). lia.
      * injection Hin as -> ->. eexists. split; [done|].
        rewrite updateVectorClock_known, Hc, Hread. simpl. lia.
  - rewrite app_nil_r. split; [done|].
    intros q c Hin. destruct (Hle _ _ Hin) as (z & -> & Hz). exists z.
    split; [done|]. specialize (Hmono q). lia.
Qed.

Lemma delivered_once_run (peer : string) (ops : list Op) :
  Forall integral ops → delivered_once (runOps (constructor peer) ops).
Proof.
  intros Hops.
  assert (H0 : delivered_once (constructor peer)).
  { split; [constructor|]. intros q c Hin. by apply elem_of_nil in Hin. }
  revert H0.
  apply (runOps_rel (fun m => numeric (msg_vectorClock m))
           (fun s s' => delivered_once s → delivered_once s')).
  - done.
  - auto.
  - intros s s' p H Hs. exact (H Hs).
  - intros s m Hm Hcan. by apply delivered_once_process.
  - intros s content room type nowId nowTs [Hnd Hle]. split; [done|].
    intros q c Hin. destruct (Hle _ _ Hin) as (z & -> & Hz). exists z.
    split; [done|]. simpl.
    pose proof (increment_mono (peerId s) q (vectorClock s)). lia.
  - intros s now H. exact H.
  - intros m. by apply integral_received.
  - apply pending_numeric_constructor.
Qed.

Lemma NoDup_omap_lookup {A B : Type} (f : A → option B) (l : list A)
    (i j : nat) (x : A) :
  NoDup (omap f l) → is_Some (f x) →
  l !! i = Some x → l !! j = Some x → i = j.
Proof.
  intros Hnd [y Hy]. revert i j Hnd.
  induction l as [|a l IH]; intros i j Hnd Hi Hj; [done|].
  assert (Hin : ∀ k, l !! k = Some x → y ∈ omap f l).
  { intros k Hk. apply list_elem_of_omap. exists x.
    split; [by eapply list_elem_of_lookup_2|done]. }
  simpl in Hnd. destruct i as [|i], j as [|j]; simpl in *.
  - done.
  - injection Hi as ->. rewrite Hy in Hnd.
    apply NoDup_cons in Hnd as [Hnot _]. destruct Hnot. by eapply Hin.
  - injection Hj as ->. rewrite Hy in Hnd.
    apply NoDup_cons in Hnd as [Hnot _]. destruct Hnot. by eapply Hin.
  - f_equal. apply IH; [|done|done].
    destruct (f a); [by apply NoDup_cons in Hnd as [_ ?]|done].
Qed.

(** X4. In every state an engine reaches from its constructor, as long
    as the clocks of the messages that arrived hold numbers proper, no
    two delivered messages carry the same author with the same author
    counter.  A message that carries its author's counter is therefore
    handed to [onMessageReady] at most once, and once delivered it never
    passes the deliverability test again, whether or not it is still in
    history. *)
Theorem delivered_at_most_once (peer : string) (ops : list Op) :
  let st := runOps (constructor peer) ops in
  Forall integral ops →
  NoDup (stamps (ready st))
  ∧ (∀ i j m, is_Some (msg_vectorClock m !! msg_from m) →
              ready st !! i = Some m → ready st !! j = Some m → i = j)
  ∧ (∀ m, is_Some (msg_vectorClock m !! msg_from m) →
          m ∈ ready st → canProcessMessage st m = false).
Proof.
  intros st Hops. destruct (delivered_once_run peer ops Hops) as [Hnd Hle].
  fold st in Hnd, Hle. split; [done|]. split.
  - intros i j m [c Hc] Hi Hj.
    eapply (NoDup_omap_lookup stamp); [exact Hnd| |exact Hi|exact Hj].
    exists (msg_from m, c). by apply stamp_Some.
  - intros m [c Hc] Hin.
    apply not_true_is_false. intros Hcan.
    destruct (canProcessMessage_sender _ _ _ Hcan Hc) as [-> _].
    assert (Hst : (msg_from m,
                   Num (known (vectorClock st) (msg_from m) + 1))
                  ∈ stamps (ready st)).
    { apply list_elem_of_omap. exists m. split; [done|].
      by apply stamp_Some. }
    destruct (Hle _ _ Hst) as (z & [= <-] & Hz). lia.
Qed.
End AtMostOnce.

Section AtMostOnceRun.
Import MessageSync.
#[local] Existing Instance Scenario.collation.

Lemma delivered_at_most_once_witness :
  Forall integral [Receive Scenario.m1; Cleanup 10000000]
  ∧ is_Some (msg_vectorClock Scenario.m1 !! msg_from Scenario.m1)
  ∧ Scenario.m1
      ∈ ready (runOps (constructor "B")
                 [Receive Scenario.m1; Cleanup 10000000])
  ∧ canProcessMessage
      (runOps (constructor "B") [Receive Scenario.m1; Cleanup 10000000])
      Scenario.m1 = false.
Proof.
  assert (Hops : Forall integral [Receive Scenario.m1; Cleanup 10000000]).
  { repeat constructor. apply numericb_numeric. by vm_compute. }
  assert (Hs : is_Some (msg_vectorClock Scenario.m1 !! msg_from Scenario.m1))
    by (vm_compute; eauto).
  assert (Hin : Scenario.m1
                  ∈ ready (runOps (constructor "B")
                             [Receive Scenario.m1; Cleanup 10000000]))
    by (vm_compute; left).
  split; [exact Hops|]. split; [exact Hs|]. split; [exact Hin|].
  exact (proj2 (proj2 (delivered_at_most_once "B"
                         [Receive Scenario.m1; Cleanup 10000000] Hops))
           Scenario.m1 Hs Hin).
Defined.
End AtMostOnceRun.

(** ** Delivery respects the dependency sets *)

Section CausalSafety.
Import MessageSync.
Context {host : Collation}.

Lemma addToHistory_elem (h : JsMap.t SyncMessage) (m : SyncMessage)
    (e : string * SyncMessage) :
  e ∈ addToHistory h m → e = (msg_id m, m) ∨ e ∈ h.
Proof.
  unfold addToHistory.
  destruct (maxHistorySize <? JsMap.size (JsMap.set (msg_id m) m h)).
  - destruct (js_sort _ _) as [|oldest rest].
    + apply JsMap_set_elem.
    + intros [Hin _]%JsMap_delete_elem. by apply JsMap_set_elem in Hin.
  - apply JsMap_set_elem.
Qed.

Lemma addToHistory_elem_stored (h : JsMap.t SyncMessage) (m : SyncMessage) :
  JsMap.size (JsMap.set (msg_id m) m h) <= 1000 →
  JsMap.get (msg_id m) (addToHistory h m) = Some m.
Proof.
  intros Hroom. unfold addToHistory.
  destruct (Z.ltb_spec maxHistorySize (JsMap.size (JsMap.set (msg_id m) m h)))
    as [Hlt|_]; [unfold maxHistorySize in Hlt; lia|].
  apply JsMap_get_set.
Qed.

Lemma addToHistory_keys (h : JsMap.t SyncMessage) (m : SyncMessage)
    (k : string) :
  k ∈ JsMap.keys (addToHistory h m) → k = msg_id m ∨ k ∈ JsMap.keys h.
Proof.
  unfold JsMap.keys.
  intros ([k' v] & -> & Hin)%list_elem_of_fmap.
  apply addToHistory_elem in Hin as [[= -> ->]|Hin]; [by left|].
  right. apply list_elem_of_fmap. by exists (k', v).
Qed.

Lemma extends_refl (s : t) : extends s s.
Proof.
  exists []. split; [by rewrite app_nil_r|]. split; [by left|].
  intros i m d Hi. by rewrite lookup_nil in Hi.
Qed.

Lemma extends_trans (a b c : t) : extends a b → extends b c → extends a c.
Proof.
  intros (n1 & Hr1 & Hk1 & Hd1) (n2 & Hr2 & Hk2 & Hd2).
  exists (n1 ++ n2). split; [by rewrite Hr2, Hr1, app_assoc|]. split.
  - intros k Hk. rewrite fmap_app, elem_of_app.
    destruct (Hk2 k Hk) as [Hb|?]; [|tauto].
    destruct (Hk1 k Hb); tauto.
  - intros i m d Hi Hd.
    destruct (decide (i < length n1)%nat) as [Hlt|Hge].
    + rewrite lookup_app_l in Hi by done.
      rewrite take_app_le by lia. by eapply Hd1.
    + rewrite lookup_app_r in Hi by lia.
      rewrite take_app_ge by lia. rewrite fmap_app, elem_of_app.
      destruct (Hd2 _ _ _ Hi Hd) as [Hb|?]; [|tauto].
      destruct (Hk1 d Hb); tauto.
Qed.

Lemma extends_process (s : t) (m : SyncMessage) :
  canProcessMessage s m = true → extends s (processMessage s m).
Proof.
  intros Hcan. exists [m]. split; [done|]. split.
  - intros k Hk. simpl in Hk. apply addToHistory_keys in Hk as [->|?].
    + right. simpl. left.
    + by left.
  - intros [|i] m' d Hi Hd; [|by destruct i].
    injection Hi as <-. left.
    apply canProcessMessage_iff in Hcan as (Hdeps & _).
    by apply JsMap_has_keys, Hdeps.
Qed.

(** X5. Whatever arrives in whatever order, a message is delivered only
    after its dependencies: in the stretch of deliveries that a sequence
    of [receiveMessage] calls appends to the log, every dependency id of
    a delivered message was in the engine's history at the start or is
    the id of a message delivered earlier in the stretch.  The log
    itself is only ever extended. *)
Theorem delivery_respects_dependencies (st : t) (ms : list SyncMessage) :
  ∃ new,
    ready (receiveAll st ms) = ready st ++ new
    ∧ ∀ i m d, new !! i = Some m → d ∈ msg_causality m →
               d ∈ JsMap.keys (messageHistory st)
               ∨ ∃ j m', (j < i)%nat ∧ new !! j = Some m' ∧ msg_id m' = d.
Proof.
  assert (H : extends st (receiveAll st ms)).
  { apply (receiveAll_rel (fun _ => True) extends).
    - apply extends_refl.
    - apply extends_trans.
    - intros s s' p H. exact H.
    - intros s m _. apply extends_process.
    - done.
    - done. }
  destruct H as (new & Hr & _ & Hd). exists new. split; [done|].
  intros i m d Hi Hdep. destruct (Hd _ _ _ Hi Hdep) as [?|Hin]; [by left|].
  right. apply list_elem_of_fmap in Hin as (m' & -> & Hin).
  apply list_elem_of_lookup in Hin as [j Hj].
  apply lookup_take_Some in Hj as [Hj Hlt]. by exists j, m'.
Qed.
End CausalSafety.

(** ** The pending scan *)

Section PendingScan.
Import MessageSync.
Context {host : Collation}.

Lemma pending_fold_processed (l : list (string * SyncMessage))
    (acc : t * list string) (k : string) :
  k ∈ snd (foldl pendingStep acc l) →
  k ∈ snd acc
  ∨ ∃ v, (k, v) ∈ l ∧ v ∈ ready (fst (foldl pendingStep acc l)).
Proof.
  revert acc. induction l as [|e l IH]; intros acc; simpl; [by left|].
  intros Hk. destruct (IH _ Hk) as [Hacc|(v & Hin & Hv)].
  - unfold pendingStep in Hacc.
    destruct (canProcessMessage (fst acc) (snd e)) eqn:Hcan; [|by left].
    simpl in Hacc. apply elem_of_app in Hacc as [?| ->%list_elem_of_singleton];
      [by left|].
    right. exists (snd e). split; [destruct e; left|].
    destruct (pending_fold_ready l (pendingStep acc e)) as [rest ->].
    unfold pendingStep. rewrite Hcan. simpl.
    rewrite !elem_of_app, list_elem_of_singleton. tauto.
  - right. exists v. split; [by right|done].
Qed.

Lemma JsMap_get_fold_delete {V : Type} (ks : list string) (m : JsMap.t V)
    (k : string) :
  JsMap.get k (foldl (fun p id => JsMap.delete id p) m ks)
  = if decide (k ∈ ks) then None else JsMap.get k m.
Proof.
  revert m. induction ks as [|k' ks IH]; intros m.
  - destruct (decide (k ∈ [])) as [Hin|_]; [by apply elem_of_nil in Hin|done].
  - cbn [foldl]. rewrite IH, JsMap_get_delete.
    destruct (decide (k ∈ ks)) as [Hin|Hnin];
      destruct (decide (k ∈ k' :: ks)) as [Hin'|Hnin']; try done.
    + destruct Hnin'. by right.
    + apply elem_of_cons in Hin' as [->|?]; [|done].
      by rewrite String.eqb_refl.
    + destruct (String.eqb_spec k k') as [->|Hne]; [|done].
      destruct Hnin'. left.
Qed.

(** X6. A message handed to [receiveMessage] is not lost: if it is not
    yet in history (and the pending buffer has no duplicate keys), then
    after the call it has been delivered or it sits in the pending
    buffer under its id. *)
Theorem receiveMessage_delivers_or_buffers (st : t) (m : SyncMessage) :
  NoDup (JsMap.keys (pendingMessages st)) →
  JsMap.has (msg_id m) (messageHistory st) = false →
  m ∈ ready (receiveMessage st m)
  ∨ JsMap.get (msg_id m) (pendingMessages (receiveMessage st m)) = Some m.
Proof.
  intros Hnd Hnew. unfold receiveMessage. rewrite Hnew.
  destruct (canProcessMessage st m) eqn:Hcan.
  - left. destruct (processPendingMessages_ready (processMessage st m))
      as [rest ->].
    simpl. rewrite !elem_of_app, list_elem_of_singleton. tauto.
  - destruct (processPendingMessages_unfold (addPending st m))
      as (st1 & processed & Hfold & ->).
    pose proof (pending_fold_pending
                  (JsMap.entries (pendingMessages (addPending st m)))
                  (addPending st m, [])) as Hp.
    rewrite Hfold in Hp. simpl in Hp.
    cbn [with_pending ready pendingMessages]. rewrite JsMap_get_fold_delete.
    destruct (decide (msg_id m ∈ processed)) as [Hin|Hnin].
    + left.
      pose proof (pending_fold_processed
                    (JsMap.entries (pendingMessages (addPending st m)))
                    (addPending st m, []) (msg_id m)) as Hproc.
      rewrite Hfold in Hproc. simpl in Hproc.
      destruct (Hproc Hin) as [Hnil|(v & Hv & Hready)];
        [by apply elem_of_nil in Hnil|].
      unfold JsMap.entries, addPending in Hv. cbn [pendingMessages] in Hv.
      apply JsMap_get_unique in Hv; [|by apply JsMap_NoDup_set].
      rewrite JsMap_get_set in Hv. by injection Hv as <-.
    + right. rewrite Hp. apply JsMap_get_set.
Qed.

End PendingScan.

Section PendingScanRun.
Import MessageSync.
#[local] Existing Instance Scenario.collation.

Lemma receiveMessage_delivers_or_buffers_witness :
  NoDup (JsMap.keys (pendingMessages Scenario.B0))
  ∧ JsMap.has (msg_id Scenario.m2) (messageHistory Scenario.B0) = false
  ∧ (Scenario.m2 ∈ ready (receiveMessage Scenario.B0 Scenario.m2)
     ∨ JsMap.get (msg_id Scenario.m2)
         (pendingMessages (receiveMessage Scenario.B0 Scenario.m2))
       = Some Scenario.m2).
Proof.
  assert (Hnd : NoDup (JsMap.keys (pendingMessages Scenario.B0)))
    by constructor.
  assert (Hnew : JsMap.has (msg_id Scenario.m2) (messageHistory Scenario.B0)
                 = false) by reflexivity.
  split; [exact Hnd|]. split; [exact Hnew|].
  exact (receiveMessage_delivers_or_buffers Scenario.B0 Scenario.m2 Hnd Hnew).
Defined.
End PendingScanRun.

(** ** Shape of the history and of the pending buffer *)

Section Shape.
Import MessageSync.
Context {host : Collation}.

Lemma keyed_set (h : JsMap.t SyncMessage) (m : SyncMessage) :
  keyed h → keyed (JsMap.set (msg_id m) m h).
Proof.
  unfold keyed. rewrite !Forall_forall. intros Hk e He.
  apply JsMap_set_elem in He as [->|He]; [done|by apply Hk].
Qed.

Lemma keyed_delete (h : JsMap.t SyncMessage) (k : string) :
  keyed h → keyed (JsMap.delete k h).
Proof.
  unfold keyed. rewrite !Forall_forall. intros Hk e He.
  apply JsMap_delete_elem in He as [He _]. by apply Hk.
Qed.

Lemma tidy_delete (bound : Z) (h : JsMap.t SyncMessage) (k : string) :
  tidy bound h → tidy bound (JsMap.delete k h).
Proof.
  intros (Hnd & Hk & Hs). split; [by apply JsMap_NoDup_delete|].
  split; [by apply keyed_delete|].
  unfold JsMap.size in *. pose proof (JsMap_delete_length k h). lia.
Qed.

Lemma tidy_fold_delete (bound : Z) (ks : list string)
    (h : JsMap.t SyncMessage) :
  tidy bound h → tidy bound (foldl (fun p id => JsMap.delete id p) h ks).
Proof.
  revert h. induction ks as [|k ks IH]; intros h Hh; simpl; [done|].
  by apply IH, tidy_delete.
Qed.

Lemma tidy_sweep (bound oneHourAgo : Z) (h : JsMap.t SyncMessage) :
  tidy bound h → tidy bound (sweep oneHourAgo h).
Proof.
  unfold sweep. generalize (JsMap.entries h) as l. intros l. revert h.
  induction l as [|e l IH]; intros h Hh; simpl; [done|].
  apply IH. destruct (msg_timestamp (snd e) <? oneHourAgo); [|done].
  by apply tidy_delete.
Qed.

Lemma js_sort_head_elem {A : Type} (cmp : A → A → Z) (l : list A)
    (x : A) (rest : list A) :
  js_sort cmp l = x :: rest → x ∈ l.
Proof.
  intros Hs. rewrite <- (js_sort_perm cmp l), Hs. left.
Qed.

Lemma tidy_addToHistory (h : JsMap.t SyncMessage) (m : SyncMessage) :
  tidy maxHistorySize h → tidy maxHistorySize (addToHistory h m).
Proof.
  intros (Hnd & Hk & Hs). unfold addToHistory.
  assert (Hnd1 : NoDup (JsMap.keys (JsMap.set (msg_id m) m h)))
    by by apply JsMap_NoDup_set.
  assert (Hk1 : keyed (JsMap.set (msg_id m) m h)) by by apply keyed_set.
  pose proof (JsMap_set_length (msg_id m) m h) as Hlen.
  destruct (Z.ltb_spec maxHistorySize (JsMap.size (JsMap.set (msg_id m) m h)))
    as [Hfull|Hroom].
  - destruct (js_sort _ _) as [|oldest rest] eqn:Hsort.
    + apply (f_equal length) in Hsort.
      rewrite (Permutation_length (js_sort_perm _ _)) in Hsort.
      unfold JsMap.entries, JsMap.size, maxHistorySize in *. simpl in Hsort.
      lia.
    + apply js_sort_head_elem in Hsort.
      split; [by apply JsMap_NoDup_delete|]. split; [by apply keyed_delete|].
      assert (Hin : fst oldest ∈ JsMap.keys (JsMap.set (msg_id m) m h)).
      { apply list_elem_of_fmap. by exists oldest. }
      apply JsMap_delete_length_lt in Hin.
      unfold JsMap.size, maxHistorySize in *. lia.
  - done.
Qed.

Lemma well_shaped_tidy (s : t) :
  well_shaped s ↔
    tidy maxHistorySize (messageHistory s)
    ∧ tidy (JsMap.size (pendingMessages s)) (pendingMessages s).
Proof.
  unfold well_shaped, tidy. split.
  - intros (?&?&?&?&?). repeat split; done || lia.
  - intros ((?&?&?)&(?&?&?)). done.
Qed.

Lemma well_shaped_process (s : t) (m : SyncMessage) :
  well_shaped s → well_shaped (processMessage s m).
Proof.
  rewrite !well_shaped_tidy. intros [Hh Hp]. split; [|done].
  by apply tidy_addToHistory.
Qed.

Lemma well_shaped_pending_fold (l : list (string * SyncMessage))
    (acc : t * list string) :
  well_shaped (fst acc) → well_shaped (fst (foldl pendingStep acc l)).
Proof.
  apply (pending_fold_rel (fun _ => True)
           (fun s s' => well_shaped s → well_shaped s')).
  - done.
  - auto.
  - intros s m _ _. apply well_shaped_process.
  - done.
Qed.

Lemma well_shaped_receive (s : t) (m : SyncMessage) :
  well_shaped s → well_shaped (receiveMessage s m).
Proof.
  intros Hs. unfold receiveMessage.
  destruct (JsMap.has (msg_id m) (messageHistory s)); [done|].
  set (s1 := if canProcessMessage s m then processMessage s m
             else addPending s m).
  assert (H1 : well_shaped s1).
  { subst s1. destruct (canProcessMessage s m);
      [by apply well_shaped_process|].
    destruct Hs as (?&?&?&?&?). repeat split; try done.
    - by apply JsMap_NoDup_set.
    - by apply keyed_set. }
  destruct (processPendingMessages_unfold s1)
    as (s2 & processed & Hfold & ->).
  pose proof (well_shaped_pending_fold
                (JsMap.entries (pendingMessages s1)) (s1, []) H1) as H2.
  rewrite Hfold in H2. simpl in H2. destruct H2 as (?&?&?&Hnd&Hk).
  assert (Ht : tidy (JsMap.size (pendingMessages s2)) (pendingMessages s2)).
  { split; [done|]. split; [done|]. lia. }
  apply (tidy_fold_delete _ processed) in Ht as (?&?&_).
  by repeat split.
Qed.

Lemma well_shaped_run (ops : list Op) (s : t) :
  well_shaped s → well_shaped (runOps s ops).
Proof.
  revert s. induction ops as [|op ops IH]; intros s Hs; simpl; [done|].
  apply IH. destruct op; simpl.
  - apply well_shaped_tidy in Hs as [Hh Hp].
    apply well_shaped_tidy. split; [|done]. by apply tidy_addToHistory.
  - by apply well_shaped_receive.
  - apply well_shaped_tidy in Hs as [Hh Hp].
    destruct (tidy_sweep _ (now - 60 * 60 * 1000) _ Hh) as (?&?&?).
    destruct (tidy_sweep _ (now - 60 * 60 * 1000) _ Hp) as (?&?&_).
    by repeat split.
Qed.

Lemma well_shaped_constructor (peer : string) : well_shaped (constructor peer).
Proof. repeat split; try constructor. done. Qed.

(** X7. In every state an engine reaches from its constructor, history
    holds at most 1000 messages, history and the pending buffer hold at
    most one entry per key, and every entry is filed under the id of its
    message. *)
Theorem engine_maps_well_shaped (peer : string) (ops : list Op) :
  let st := runOps (constructor peer) ops in
  JsMap.size (messageHistory st) <= 1000
  ∧ NoDup (JsMap.keys (messageHistory st))
  ∧ NoDup (JsMap.keys (pendingMessages st))
  ∧ (∀ k m, (k, m) ∈ messageHistory st ∨ (k, m) ∈ pendingMessages st →
            k = msg_id m).
Proof.
  intros st.
  destruct (well_shaped_run ops _ (well_shaped_constructor peer))
    as (Hnd & Hk & Hs & Hnd' & Hk').
  split; [done|]. split; [done|]. split; [done|].
  unfold keyed in *. rewrite Forall_forall in Hk, Hk'.
  intros k m [Hin|Hin]; [apply (Hk _ Hin)|apply (Hk' _ Hin)].
Qed.
End Shape.

(** ** Sorting by timestamp *)

Lemma StronglySorted_app_split {A : Type} (R : A → A → Prop) (l1 l2 : list A) :
  StronglySorted R (l1 ++ l2) →
  StronglySorted R l1 ∧ StronglySorted R l2
  ∧ ∀ x y, x ∈ l1 → y ∈ l2 → R x y.
Proof.
  induction l1 as [|a l1 IH]; simpl; intros Hs.
  - split; [constructor|]. split; [done|]. intros x y Hx. by apply elem_of_nil in Hx.
  - apply StronglySorted_inv in Hs as [Hs Ha].
    destruct (IH Hs) as (H1 & H2 & H12).
    apply Forall_app in Ha as [Ha1 Ha2].
    split; [by constructor|]. split; [done|].
    intros x y [->|Hx]%elem_of_cons Hy.
    + rewrite Forall_forall in Ha2. by apply Ha2.
    + by apply H12.
Qed.

Section ByTimestamp.
Context {A : Type} (ts : A → Z).

Lemma oldest_first_sorted (l : list A) :
  StronglySorted (fun a b => ts a <= ts b)
    (js_sort (fun a b => ts a - ts b) l).
Proof.
  eapply StronglySorted_weaken; [|apply js_sort_sorted].
  - unfold cmp_le. intros a b. lia.
  - unfold cmp_le. intros a b. lia.
  - unfold cmp_le. intros a b c. lia.
Qed.

Lemma newest_first_sorted (l : list A) :
  StronglySorted (fun a b => ts b <= ts a)
    (js_sort (fun a b => ts b - ts a) l).
Proof.
  eapply StronglySorted_weaken; [|apply js_sort_sorted].
  - unfold cmp_le. intros a b. lia.
  - unfold cmp_le. intros a b. lia.
  - unfold cmp_le. intros a b c. lia.
Qed.

(** The first [k] of a list sorted newest first. *)
Lemma newest_first_take (k : nat) (l : list A) :
  let sorted := js_sort (fun a b => ts b - ts a) l in
  length (take k sorted) = (k `min` length l)%nat
  ∧ take k sorted ++ drop k sorted ≡ₚ l
  ∧ StronglySorted (fun a b => ts b <= ts a) (take k sorted)
  ∧ ∀ x y, x ∈ take k sorted → y ∈ drop k sorted → ts y <= ts x.
Proof.
  intros sorted.
  pose proof (newest_first_sorted l) as Hs. fold sorted in Hs.
  rewrite <- (take_drop k sorted) in Hs.
  apply StronglySorted_app_split in Hs as (H1 & _ & H12).
  split.
  - rewrite length_take. subst sorted.
    by rewrite (Permutation_length (js_sort_perm _ l)).
  - split; [|done]. rewrite take_drop. apply js_sort_perm.
Qed.
End ByTimestamp.

(** ** History: eviction, sweeping, listing *)

Section History.
Import MessageSync.

(** X8. [addToHistory] files the message under its id; while the map
    then holds at most 1000 entries nothing else happens.  When it holds
    more, exactly one entry is removed, one with the smallest timestamp
    of all entries, the new one included: a message older than every
    other entry of a full history is therefore dropped at once and is not
    found in history afterwards. *)
Theorem addToHistory_evicts_oldest (h : JsMap.t SyncMessage) (m : SyncMessage) :
  NoDup (JsMap.keys h) →
  let h1 := JsMap.set (msg_id m) m h in
  (JsMap.size h1 <= 1000 →
   addToHistory h m = h1 ∧ JsMap.get (msg_id m) (addToHistory h m) = Some m)
  ∧ (1000 < JsMap.size h1 →
     ∃ oldest,
       oldest ∈ h1
       ∧ (∀ e, e ∈ h1 → msg_timestamp (snd oldest) <= msg_timestamp (snd e))
       ∧ addToHistory h m = JsMap.delete (fst oldest) h1
       ∧ JsMap.get (fst oldest) (addToHistory h m) = None)
  ∧ (1000 < JsMap.size h1 →
     (∀ e, e ∈ h → fst e ≠ msg_id m →
           msg_timestamp m < msg_timestamp (snd e)) →
     JsMap.has (msg_id m) (addToHistory h m) = false).
Proof.
  intros Hnd h1.
  assert (Hfull : 1000 < JsMap.size h1 →
    ∃ oldest,
      oldest ∈ h1
      ∧ (∀ e, e ∈ h1 → msg_timestamp (snd oldest) <= msg_timestamp (snd e))
      ∧ addToHistory h m = JsMap.delete (fst oldest) h1
      ∧ JsMap.get (fst oldest) (addToHistory h m) = None).
  { intros Hbig. unfold addToHistory. fold h1.
    destruct (Z.ltb_spec maxHistorySize (JsMap.size h1)) as [_|Hle];
      [|unfold maxHistorySize in Hle; lia].
    pose proof (oldest_first_sorted (fun e : string * SyncMessage =>
                  msg_timestamp (snd e)) (JsMap.entries h1)) as Hs.
    pose proof (js_sort_perm
                  (fun a b : string * SyncMessage =>
                     msg_timestamp (snd a) - msg_timestamp (snd b))
                  (JsMap.entries h1)) as Hp.
    destruct (js_sort _ (JsMap.entries h1)) as [|oldest rest].
    { apply Permutation_length in Hp. unfold JsMap.size, JsMap.entries in *.
      simpl in Hp. lia. }
    exists oldest. split; [rewrite <- Hp; left|].
    split; [|split; [done|]].
    - intros e He. unfold JsMap.entries in Hp. rewrite <- Hp in He.
      apply StronglySorted_inv in Hs as [_ Hall].
      apply elem_of_cons in He as [->|He]; [lia|].
      rewrite Forall_forall in Hall. by apply Hall.
    - by rewrite JsMap_get_delete, String.eqb_refl. }
  split; [|split; [exact Hfull|]].
  - intros Hroom. unfold addToHistory. fold h1.
    destruct (Z.ltb_spec maxHistorySize (JsMap.size h1)) as [Hlt|_];
      [unfold maxHistorySize in Hlt; lia|].
    split; [done|]. apply JsMap_get_set.
  - intros Hbig Holder.
    destruct (Hfull Hbig) as (oldest & Hin & Hmin & -> & _).
    unfold JsMap.has. rewrite JsMap_get_delete.
    destruct (String.eqb_spec (msg_id m) (fst oldest)) as [_|Hne]; [done|].
    exfalso.
    assert (Hm : (msg_id m, m) ∈ h1)
      by (apply JsMap_get_Some, JsMap_get_set).
    specialize (Hmin _ Hm). simpl in Hmin.
    apply JsMap_set_elem in Hin as [->|Hin]; [done|].
    specialize (Holder _ Hin (not_eq_sym Hne)). lia.
Qed.

Lemma addToHistory_evicts_oldest_witness :
  NoDup (JsMap.keys (messageHistory Scenario.B0))
  ∧ JsMap.size (JsMap.set (msg_id Scenario.m1) Scenario.m1
                  (messageHistory Scenario.B0)) <= 1000
  ∧ JsMap.get (msg_id Scenario.m1)
      (addToHistory (messageHistory Scenario.B0) Scenario.m1)
    = Some Scenario.m1.
Proof.
  assert (Hnd : NoDup (JsMap.keys (messageHistory Scenario.B0)))
    by constructor.
  assert (Hs : JsMap.size (JsMap.set (msg_id Scenario.m1) Scenario.m1
                             (messageHistory Scenario.B0)) <= 1000)
    by (vm_compute; discriminate).
  split; [exact Hnd|]. split; [exact Hs|].
  exact (proj2 (proj1 (addToHistory_evicts_oldest
                         (messageHistory Scenario.B0) Scenario.m1 Hnd) Hs)).
Defined.
End History.

Section Sweep.
Import MessageSync.

Lemma JsMap_NoDup_filter {V : Type} (f : string * V → bool) (m : JsMap.t V) :
  NoDup (JsMap.keys m) → NoDup (JsMap.keys (List.filter f m)).
Proof.
  unfold JsMap.keys. induction m as [|e m IH]; simpl; [done|].
  intros [Hnot Hnd]%NoDup_cons. destruct (f e); simpl; [|by apply IH].
  apply NoDup_cons. split; [|by apply IH].
  intros (e' & He & Hin)%list_elem_of_fmap. apply Hnot.
  apply list_elem_of_fmap. exists e'. split; [done|].
  apply list_elem_of_In in Hin. apply filter_In in Hin as [Hin _].
  by apply list_elem_of_In.
Qed.

Lemma sweep_filter (oneHourAgo : Z) (h : JsMap.t SyncMessage) :
  NoDup (JsMap.keys h) →
  sweep oneHourAgo h
  = List.filter (fun e => negb (msg_timestamp (snd e) <? oneHourAgo)) h.
Proof.
  intros Hnd. unfold sweep, JsMap.entries. rewrite sweep_fold_filter.
  apply filter_ext_in. intros e He%list_elem_of_In.
  unfold survives.
  destruct (msg_timestamp (snd e) <? oneHourAgo) eqn:Hstale; simpl.
  - apply not_true_is_false. rewrite forallb_forall. intros Hall.
    specialize (Hall e (proj1 (list_elem_of_In _ _) He)).
    by rewrite Hstale, String.eqb_refl in Hall.
  - apply forallb_forall. intros e' He'%list_elem_of_In.
    destruct (String.eqb_spec (fst e) (fst e')) as [Heq|_];
      [|by rewrite andb_false_r].
    destruct e as [k v], e' as [k' v']. simpl in *. subst k'.
    apply (JsMap_get_unique _ _ _ Hnd) in He, He'.
    assert (v' = v) as -> by congruence. by rewrite Hstale.
Qed.

(** X9. [cleanup] keeps, in their order, exactly the entries of history
    and of the pending buffer whose timestamp is not more than one hour
    (3 600 000 ms) before the current time, and removes the others; the
    vector clock and the delivery log are untouched, and a second sweep
    at the same time changes nothing more. *)
Theorem cleanup_keeps_last_hour (now : Z) (st : t) :
  NoDup (JsMap.keys (messageHistory st)) →
  NoDup (JsMap.keys (pendingMessages st)) →
  let recent (e : string * SyncMessage) :=
    negb (msg_timestamp (snd e) <? now - 3600000) in
  messageHistory (cleanup now st) = List.filter recent (messageHistory st)
  ∧ pendingMessages (cleanup now st) = List.filter recent (pendingMessages st)
  ∧ vectorClock (cleanup now st) = vectorClock st
  ∧ ready (cleanup now st) = ready st
  ∧ cleanup now (cleanup now st) = cleanup now st.
Proof.
  intros Hh Hp recent.
  assert (E1 : messageHistory (cleanup now st)
               = List.filter recent (messageHistory st))
    by (simpl; by rewrite sweep_filter).
  assert (E2 : pendingMessages (cleanup now st)
               = List.filter recent (pendingMessages st))
    by (simpl; by rewrite sweep_filter).
  split; [done|]. split; [done|]. split; [done|]. split; [done|].
  assert (Hidem : ∀ h, NoDup (JsMap.keys h) →
            sweep (now - 60 * 60 * 1000) (sweep (now - 60 * 60 * 1000) h)
            = sweep (now - 60 * 60 * 1000) h).
  { intros h Hnd. rewrite (sweep_filter _ h) by done.
    rewrite sweep_filter.
    - rewrite filter_filter_andb. apply filter_ext. intros e.
      by destruct (negb _).
    - by apply JsMap_NoDup_filter. }
  unfold cleanup at 1 3. cbn [vectorClock peerId messageHistory
    pendingMessages ready resolved cleanup].
  by rewrite !Hidem.
Qed.

End Sweep.

Section SweepRun.
Import MessageSync.
#[local] Existing Instance Scenario.collation.

Lemma cleanup_keeps_last_hour_witness :
  NoDup (JsMap.keys (messageHistory Scenario.B5))
  ∧ NoDup (JsMap.keys (pendingMessages Scenario.B5))
  ∧ cleanup 3600300 (cleanup 3600300 Scenario.B5) = cleanup 3600300 Scenario.B5.
Proof.
  assert (Hh : NoDup (JsMap.keys (messageHistory Scenario.B5)))
    by compute_done.
  assert (Hp : NoDup (JsMap.keys (pendingMessages Scenario.B5)))
    by compute_done.
  split; [exact Hh|]. split; [exact Hp|].
  exact (proj2 (proj2 (proj2 (proj2
           (cleanup_keeps_last_hour 3600300 Scenario.B5 Hh Hp))))).
Defined.
End SweepRun.
Section Listing.
Import MessageSync.
Context {host : Collation}.

(** X10. [getGossipMessages(k)] returns min(k, history size) messages of
    history, newest first, and no message it leaves out is newer than
    one it returns. *)
Theorem getGossipMessages_most_recent (st : t) (k : nat) :
  let gossip := getGossipMessages st k in
  let all := JsMap.values (messageHistory st) in
  length gossip = (k `min` length all)%nat
  ∧ ∃ rest,
      gossip ++ rest ≡ₚ all
      ∧ StronglySorted (fun a b => msg_timestamp b <= msg_timestamp a) gossip
      ∧ ∀ x y, x ∈ gossip → y ∈ rest → msg_timestamp y <= msg_timestamp x.
Proof.
  intros gossip all.
  destruct (newest_first_take msg_timestamp k all) as (Hlen & Hp & Hs & Hle).
  split; [exact Hlen|].
  exists (drop k (js_sort (fun a b => msg_timestamp b - msg_timestamp a) all)).
  by split; [|split].
Qed.

(** X11. [getMessageHistory] lists every message of history exactly
    once, oldest first. *)
Theorem getMessageHistory_sorted (st : t) :
  getMessageHistory st ≡ₚ JsMap.values (messageHistory st)
  ∧ StronglySorted (fun a b => msg_timestamp a <= msg_timestamp b)
      (getMessageHistory st).
Proof.
  split; [apply js_sort_perm|apply (oldest_first_sorted msg_timestamp)].
Qed.

Lemma values_keys_keyed (h : JsMap.t SyncMessage) (x : SyncMessage) :
  keyed h → x ∈ JsMap.values h → msg_id x ∈ JsMap.keys h.
Proof.
  unfold keyed, JsMap.values, JsMap.keys. rewrite Forall_forall.
  intros Hk ([k v] & -> & Hin)%list_elem_of_fmap.
  apply list_elem_of_fmap. exists (k, v). split; [|done].
  symmetry. apply (Hk _ Hin).
Qed.

Lemma known_constructor (peer p : string) :
  known (vectorClock (constructor peer)) p = 0.
Proof.
  unfold known. simpl. destruct (decide (peer = p)) as [->|Hne].
  - rewrite assign_lookup_eq. by destruct (decide _).
  - by rewrite assign_lookup_ne, lookup_empty.
Qed.

(** An engine whose id is not "__proto__" keeps a number on record for
    itself, as long as no [NaN] arrives. *)
Lemma counts_itself_run (peer : string) (ops : list Op) :
  peer ≠ "__proto__" → Forall integral ops →
  peerId (runOps (constructor peer) ops) = peer
  ∧ counts_itself (runOps (constructor peer) ops).
Proof.
  intros Hpeer Hops.
  assert (H0 : counts_itself (constructor peer)).
  { exists 0. simpl. rewrite assign_lookup_eq.
    by rewrite decide_False by (by intros [? _]). }
  cut (peerId (runOps (constructor peer) ops) = peerId (constructor peer)
       ∧ (counts_itself (constructor peer) →
          counts_itself (runOps (constructor peer) ops))).
  { intros [H1 H2]. split; [exact H1|by apply H2]. }
  apply (runOps_rel (fun m => numeric (msg_vectorClock m))
           (fun s s' => peerId s' = peerId s
                        ∧ (counts_itself s → counts_itself s'))).
  - done.
  - intros a b c [Hab1 Hab2] [Hbc1 Hbc2]. split; [congruence|auto].
  - intros s s' p [H1 H2]. split; [exact H1|]. intros Hs.
    destruct (H2 Hs) as [z Hz]. by exists z.
  - intros s m Hm _. split; [done|]. intros [z Hz].
    unfold counts_itself. simpl. rewrite updateVectorClock_lookup.
    destruct (msg_vectorClock m !! peerId s) as [c|] eqn:Hc; [|by exists z].
    destruct (numeric_lookup _ _ _ Hm Hc) as [z' ->].
    rewrite assign_stored by (by rewrite Hz).
    unfold orZero. rewrite Hz. simpl. by eexists.
  - intros s content room type nowId nowTs. split; [done|]. intros [z Hz].
    exists (z + 1). simpl. by apply increment_counted.
  - intros s now. split; [done|]. intros [z Hz]. by exists z.
  - intros m. by apply integral_received.
  - apply pending_numeric_constructor.
Qed.

(** X12. A message written by an engine that was reached from its
    constructor, for an engine whose id is not "__proto__" and as long
    as the clocks of the messages that arrived hold numbers proper: the
    author's own counter goes up by exactly 1 and no other entry
    changes; the message carries the new clock, and its id is made of
    the author's id, the new counter and the time; its dependency set
    names at most 5 messages, all of them in the author's history, namely
    the ids of [getGossipMessages(5)] just before; nothing is delivered
    or buffered.  While history has room the message is stored, so that
    the author's own message coming back from the network is ignored. *)
Theorem createMessage_stamps_and_links (peer : string) (ops : list Op)
    (content room : string) (type : MessageType) (nowId nowTs : Z) :
  let st := runOps (constructor peer) ops in
  let m := fst (createMessage content room type nowId nowTs st) in
  let st' := snd (createMessage content room type nowId nowTs st) in
  peer ≠ "__proto__" → Forall integral ops →
  known (vectorClock st') (peerId st) = known (vectorClock st) (peerId st) + 1
  ∧ (∀ p, p ≠ peerId st → vectorClock st' !! p = vectorClock st !! p)
  ∧ msg_from m = peerId st
  ∧ msg_vectorClock m = vectorClock st'
  ∧ msg_id m
    = peerId st +:+ "_" +:+ pretty (known (vectorClock st') (peerId st))
        +:+ "_" +:+ pretty nowId
  ∧ msg_causality m = msg_id <$> getGossipMessages st 5
  ∧ (length (msg_causality m) ≤ 5)%nat
  ∧ (∀ d, d ∈ msg_causality m → JsMap.has d (messageHistory st) = true)
  ∧ ready st' = ready st
  ∧ pendingMessages st' = pendingMessages st
  ∧ (JsMap.size (messageHistory st) < 1000 →
     JsMap.get (msg_id m) (messageHistory st') = Some m
     ∧ receiveMessage st' m = st').
Proof.
  intros st m st' Hpeer Hops.
  destruct (well_shaped_run ops _ (well_shaped_constructor peer))
    as (Hnd & Hk & Hs & _). fold st in Hnd, Hk, Hs.
  destruct (counts_itself_run peer ops Hpeer Hops) as [_ [z Hz]].
  fold st in Hz.
  assert (Hz' : vectorClock st' !! peerId st = Some (Num (z + 1)))
    by (by apply increment_counted).
  split. { unfold known. by rewrite Hz', Hz. }
  split. { intros p Hp. simpl. by apply increment_lookup_ne. }
  split; [done|]. split; [done|].
  split.
  { unfold known. rewrite Hz'. subst m. simpl. unfold counterText.
    fold st. change (increment (peerId st) (vectorClock st))
      with (vectorClock st'). by rewrite Hz'. }
  split; [done|].
  split.
  { simpl. unfold getRecentCausality, slice0.
    rewrite length_map, length_take. lia. }
  split.
  { intros d Hd. apply JsMap_has_keys. simpl in Hd.
    unfold getRecentCausality, slice0 in Hd.
    apply list_elem_of_fmap in Hd as (x & -> & Hx).
    apply (subseteq_take 5) in Hx.
    rewrite (js_sort_perm _ (JsMap.values (messageHistory st))) in Hx.
    by apply values_keys_keyed. }
  split; [done|]. split; [done|].
  intros Hroom.
  assert (Hget : JsMap.get (msg_id m) (messageHistory st') = Some m).
  { apply (addToHistory_elem_stored (messageHistory st) m).
    pose proof (JsMap_set_length (msg_id m) m (messageHistory st)).
    unfold JsMap.size in *. lia. }
  split; [exact Hget|].
  unfold receiveMessage, JsMap.has. by rewrite Hget.
Qed.
End Listing.

Section ListingRun.
Import MessageSync.
#[local] Existing Instance Scenario.collation.

Lemma createMessage_stamps_and_links_witness :
  "A" ≠ "__proto__"
  ∧ Forall integral []
  ∧ JsMap.size (messageHistory (runOps (constructor "A") [])) < 1000
  ∧ msg_id Scenario.m1 = "A_1_100"
  ∧ receiveMessage (snd Scenario.A1) Scenario.m1 = snd Scenario.A1.
Proof.
  assert (Hpeer : "A" ≠ "__proto__") by discriminate.
  assert (Hops : Forall integral []) by constructor.
  assert (Hroom : JsMap.size (messageHistory (runOps (constructor "A") []))
                  < 1000) by reflexivity.
  split; [exact Hpeer|]. split; [exact Hops|]. split; [exact Hroom|].
  split; [reflexivity|].
  pose proof (createMessage_stamps_and_links "A" [] "one" "ops" TText 100 100
                Hpeer Hops) as H.
  cbv zeta in H. destruct H as (_&_&_&_&_&_&_&_&_&_&H).
  exact (proj2 (H Hroom)).
Defined.
End ListingRun.

(** ** Catch-up against a clock that is not behind *)

Section CatchUp.
Import MessageSync.
Context {host : Collation}.

Lemma covers_history_run (peer : string) (ops : list Op) :
  Forall integral ops → covers_history (runOps (constructor peer) ops).
Proof.
  intros Hops.
  assert (H0 : covers_history (constructor peer)).
  { split.
    - intros p. by rewrite known_constructor.
    - intros e He. by apply elem_of_nil in He. }
  revert H0.
  apply (runOps_rel (fun m => numeric (msg_vectorClock m))
           (fun s s' => covers_history s → covers_history s')).
  - done.
  - auto.
  - intros s s' p H Hs. exact (H Hs).
  - intros s m Hm Hcan [Hpos Hcov].
    assert (Hmono : ∀ q, known (vectorClock s) q
              <= known (updateVectorClock (vectorClock s)
                          (msg_vectorClock m)) q)
      by (intros q; by apply updateVectorClock_mono_numeric).
    split.
    + intros p. specialize (Hpos p). specialize (Hmono p). simpl. lia.
    + intros e He. simpl in He |- *.
      apply addToHistory_elem in He as [->|He].
      * simpl. destruct (msg_vectorClock m !! msg_from m) as [c|] eqn:Hc.
        -- destruct (canProcessMessage_sender _ _ _ Hcan Hc) as [-> Hread].
           rewrite updateVectorClock_known, Hc, Hread. simpl.
           unfold known at 1. rewrite Hc. lia.
        -- unfold known at 1. rewrite Hc.
           specialize (Hpos (msg_from m)). specialize (Hmono (msg_from m)).
           lia.
      * specialize (Hcov _ He). specialize (Hmono (msg_from (snd e))). lia.
  - intros s content room type nowId nowTs [Hpos Hcov]. split.
    + intros p. specialize (Hpos p). simpl.
      pose proof (increment_mono (peerId s) p (vectorClock s)). lia.
    + intros e He. cbn [snd createMessage messageHistory] in He.
      cbn [snd createMessage vectorClock].
      apply addToHistory_elem in He as [->|He].
      * cbn [snd msg_from msg_vectorClock]. lia.
      * specialize (Hcov _ He).
        pose proof (increment_mono (peerId s) (msg_from (snd e))
                      (vectorClock s)). lia.
  - intros s now [Hpos Hcov]. split; [done|].
    intros e He. simpl in He. apply sweep_elem in He. by apply Hcov.
  - intros m. by apply integral_received.
  - apply pending_numeric_constructor.
Qed.

Lemma filter_none {A : Type} (f : A → bool) (l : list A) :
  (∀ x, x ∈ l → f x = false) → List.filter f l = [].
Proof.
  induction l as [|x l IH]; intros H; simpl; [done|].
  rewrite (H x) by left. apply IH. intros y Hy. apply H. by right.
Qed.

(** X13. An engine reached from its constructor, as long as the clocks
    of the messages that arrived hold numbers proper, has nothing to send
    to a requester whose clock is not behind its own: if every counter of
    the requester is at least the engine's, [handleSyncRequest] returns
    the empty list.  In particular the reply to the engine's own
    [createSyncRequest] is empty. *)
Theorem handleSyncRequest_nothing_for_up_to_date
    (peer : string) (ops : list Op) (peerClock : VectorClock) :
  let st := runOps (constructor peer) ops in
  Forall integral ops →
  (∀ p, known (vectorClock st) p <= known peerClock p) →
  handleSyncRequest st peerClock = []
  ∧ handleSyncRequest st (createSyncRequest st) = [].
Proof.
  intros st Hops Hdom.
  destruct (covers_history_run peer ops Hops) as [_ Hcov]. fold st in Hcov.
  assert (Hempty : ∀ c : VectorClock,
            (∀ p, known (vectorClock st) p <= known c p) →
            handleSyncRequest st c = []).
  { intros c Hc. unfold handleSyncRequest, slice0.
    rewrite for_push_filter, filter_none; [done|].
    intros x ([k v] & -> & Hin)%list_elem_of_fmap.
    specialize (Hcov _ Hin). simpl in *. specialize (Hc (msg_from v)).
    unfold peerLacks. cbv zeta.
    destruct (orZero_cases (msg_vectorClock v) (msg_from v))
      as [->|(-> & _)]; [|done].
    destruct (orZero_cases c (msg_from v)) as [->|(-> & _)]; [|done].
    simpl. rewrite Z.gtb_ltb. apply Z.ltb_ge. lia. }
  split; [by apply Hempty|]. apply Hempty. intros p. unfold createSyncRequest.
  lia.
Qed.
End CatchUp.

Section CatchUpRun.
Import MessageSync.
#[local] Existing Instance Scenario.collation.

Lemma handleSyncRequest_nothing_for_up_to_date_witness :
  Forall integral [Receive Scenario.m1; Receive Scenario.m2]
  ∧ (∀ p, known (vectorClock (runOps (constructor "B")
                                [Receive Scenario.m1; Receive Scenario.m2])) p
          <= known (<["A" := Num 2]> (<["B" := Num 0]> ∅)) p)
  ∧ handleSyncRequest
      (runOps (constructor "B") [Receive Scenario.m1; Receive Scenario.m2])
      (<["A" := Num 2]> (<["B" := Num 0]> ∅)) = [].
Proof.
  assert (Hops : Forall integral [Receive Scenario.m1; Receive Scenario.m2]).
  { repeat constructor; apply numericb_numeric; by vm_compute. }
  assert (Hdom : ∀ p,
    known (vectorClock (runOps (constructor "B")
                          [Receive Scenario.m1; Receive Scenario.m2])) p
    <= known (<["A" := Num 2]> (<["B" := Num 0]> ∅)) p).
  { intros p.
    replace (vectorClock (runOps (constructor "B")
                            [Receive Scenario.m1; Receive Scenario.m2]))
      with (<["A" := Num 2]> (<["B" := Num 0]> (∅ : VectorClock)))
      by (vm_compute; reflexivity).
    lia. }
  split; [exact Hops|]. split; [exact Hdom|].
  exact (proj1 (handleSyncRequest_nothing_for_up_to_date "B"
                  [Receive Scenario.m1; Receive Scenario.m2]
                  (<["A" := Num 2]> (<["B" := Num 0]> ∅)) Hops Hdom)).
Defined.
End CatchUpRun.

(** ** Arrival in the order of writing *)

Section InOrder.
Import MessageSync.
Context {host : Collation}.

Lemma processPendingMessages_empty (st : t) :
  pendingMessages st = [] → processPendingMessages st = st.
Proof. destruct st. simpl. by intros ->. Qed.

Lemma createAll_snoc (st : t) (ds : list Draft) (d : Draft) :
  createAll st (ds ++ [d])
  = let r := createMessage (draft_content d) (draft_room d) (draft_type d)
               (draft_nowId d) (draft_nowTs d) (snd (createAll st ds)) in
    (fst (createAll st ds) ++ [fst r], snd r).
Proof. unfold createAll. by rewrite foldl_snoc. Qed.

Lemma in_step_next (author : string) (ms : list SyncMessage) (A B : t)
    (content room : string) (type : MessageType) (nowId nowTs : Z) :
  let m := fst (createMessage content room type nowId nowTs A) in
  inherited author = false →
  in_step author ms A B →
  msg_id m ∉ msg_id <$> ms →
  in_step author (ms ++ [m])
    (snd (createMessage content room type nowId nowTs A))
    (receiveMessage B m).
Proof.
  intros m Hauthor
    (Hpeer & HvcA & Htidy & Hkeys & Hready & Hpend & Hhist & HknownB) Hfresh.
  assert (Hvcm : msg_vectorClock m
                 = <[author := Num (Z.of_nat (length ms) + 1)]> ∅).
  { subst m. simpl. rewrite Hpeer, HvcA. unfold increment, assign.
    rewrite lookup_insert_eq. apply insert_insert_eq. }
  assert (Hfrom : msg_from m = author) by (subst m; simpl; done).
  assert (Hnew : JsMap.has (msg_id m) (messageHistory B) = false).
  { apply not_true_is_false. intros Hh%JsMap_has_keys.
    rewrite Hhist in Hh. by apply Hfresh, Hkeys. }
  assert (Hread : orZero (vectorClock B) author
                  = Count (Z.of_nat (length ms))).
  { rewrite <- HknownB. apply orZero_known. by intros _. }
  assert (Hcan : canProcessMessage B m = true).
  { apply canProcessMessage_iff. split; [|split].
    - intros d Hd. apply JsMap_has_keys. rewrite Hhist.
      subst m. simpl in Hd. unfold getRecentCausality, slice0 in Hd.
      apply list_elem_of_fmap in Hd as (x & -> & Hx).
      apply (subseteq_take 5) in Hx.
      rewrite (js_sort_perm _ (JsMap.values (messageHistory A))) in Hx.
      apply values_keys_keyed; [|done]. apply Htidy.
    - intros c. rewrite Hvcm, Hfrom, lookup_insert_eq. intros [= <-].
      by exists (Z.of_nat (length ms)).
    - intros p c Hne. rewrite Hvcm, Hfrom in *.
      by rewrite lookup_insert_ne, lookup_empty. }
  unfold receiveMessage. rewrite Hnew, Hcan.
  rewrite processPendingMessages_empty by done.
  assert (Hlen : Z.of_nat (length (ms ++ [m])) = Z.of_nat (length ms) + 1).
  { rewrite length_app. simpl. lia. }
  split; [done|]. split.
  { rewrite Hlen. by rewrite <- Hvcm. }
  split; [by apply tidy_addToHistory|]. split.
  { intros k Hk. simpl in Hk. fold m in Hk.
    apply addToHistory_keys in Hk as [->|Hk].
    - rewrite fmap_app. apply elem_of_app. right. left.
    - rewrite fmap_app. apply elem_of_app. left. by apply Hkeys. }
  split; [by simpl; rewrite Hready|]. split; [done|].
  split; [by simpl; rewrite Hhist|].
  unfold processMessage. cbn [vectorClock].
  rewrite updateVectorClock_known, Hvcm, lookup_insert_eq, Hread. simpl. lia.
Qed.

Lemma in_step_run (author reader : string) (ds : list Draft) :
  let ms := fst (createAll (constructor author) ds) in
  inherited author = false →
  NoDup (msg_id <$> ms) →
  in_step author ms (snd (createAll (constructor author) ds))
    (receiveAll (constructor reader) ms).
Proof.
  intros ms Hauthor. subst ms.
  induction ds as [|d ds IH] using rev_ind; intros Hnd.
  - unfold in_step, tidy, keyed. simpl.
    split; [done|]. split.
    { unfold assign. rewrite lookup_empty.
      destruct (String.eqb_spec author "__proto__") as [->|_]; done. }
    split; [by split; [constructor|split; [constructor|]]|].
    split; [intros k Hk; by apply elem_of_nil in Hk|].
    split; [done|]. split; [done|]. split; [done|].
    apply known_constructor.
  - rewrite createAll_snoc in *. cbn zeta in *. cbn [fst snd] in *.
    rewrite fmap_app in Hnd. apply NoDup_app in Hnd as (Hnd & Hfresh & _).
    unfold receiveAll. rewrite foldl_snoc.
    apply in_step_next; [done|by apply IH|].
    intros Hin. apply (Hfresh _ Hin). left.
Qed.

(** X14. Arrival in the order of writing always works, for an author
    whose id is not the name of a member of [Object.prototype]: when an
    engine that only writes produces a sequence of messages with pairwise
    distinct ids, and a fresh engine receives them in that order, every
    message is delivered on arrival, in that order; nothing is left
    pending, the reader's history equals the author's, and the reader's
    counter for the author equals the number of messages. *)
Theorem in_order_arrival_delivers_all (author reader : string)
    (ds : list Draft) :
  let ms := fst (createAll (constructor author) ds) in
  let A := snd (createAll (constructor author) ds) in
  let B := receiveAll (constructor reader) ms in
  inherited author = false →
  NoDup (msg_id <$> ms) →
  ready B = ms
  ∧ pendingMessages B = []
  ∧ messageHistory B = messageHistory A
  ∧ known (vectorClock B) author = Z.of_nat (length ms).
Proof.
  intros ms A B Hauthor Hnd.
  destruct (in_step_run author reader ds Hauthor Hnd) as (_&_&_&_&?&?&?&?).
  done.
Qed.
End InOrder.

Section InOrderRun.
Import MessageSync.
#[local] Existing Instance Scenario.collation.

Lemma in_order_arrival_delivers_all_witness :
  let ms := fst (createAll (constructor "A") Scenario.drafts) in
  inherited "A" = false
  ∧ NoDup (msg_id <$> ms)
  ∧ ready (receiveAll (constructor "B") ms) = ms.
Proof.
  intros ms.
  assert (Hauthor : inherited "A" = false) by reflexivity.
  assert (Hnd : NoDup (msg_id <$> ms)) by compute_done.
  split; [exact Hauthor|]. split; [exact Hnd|].
  exact (proj1 (in_order_arrival_delivers_all "A" "B" Scenario.drafts
                  Hauthor Hnd)).
Defined.
End InOrderRun.

(** ** Peer ids that are names of [Object.prototype] *)

Section InheritedNames.
Import MessageSync.
Context {host : Collation}.

(** An engine that has recorded nothing under a name of
    [Object.prototype] refuses a message whose sender entry is filed
    under that name. *)
Lemma canProcessMessage_member (st : t) (m : SyncMessage) :
  inherited (msg_from m) = true →
  vectorClock st !! msg_from m = None →
  is_Some (msg_vectorClock m !! msg_from m) →
  canProcessMessage st m = false.
Proof.
  intros Hk Hvc [c Hc]. apply not_true_is_false. intros Hcan.
  destruct (canProcessMessage_sender _ _ _ Hcan Hc) as [_ Hread].
  assert (Hm : orZero (vectorClock st) (msg_from m) = Member)
    by by apply orZero_Member.
  congruence.
Qed.

(** X30. Let [k] be the name of a member of [Object.prototype]
    ("constructor", "toString", "__proto__", ...) and take an engine with
    another id.  As long as no message of any other author carries a
    counter under [k], the engine records nothing under [k], the test
    refuses every message of author [k] that carries a counter for its
    author, and no such message is ever delivered, whatever the order
    of arrival. *)
Theorem inherited_author_never_delivered (peer k : string) (ops : list Op) :
  let st := runOps (constructor peer) ops in
  inherited k = true → peer ≠ k →
  (∀ m, Receive m ∈ ops → msg_from m ≠ k → msg_vectorClock m !! k = None) →
  vectorClock st !! k = None
  ∧ (∀ m, msg_from m = k → is_Some (msg_vectorClock m !! k) →
          canProcessMessage st m = false)
  ∧ (∀ m, m ∈ ready st → msg_from m = k → msg_vectorClock m !! k = None).
Proof.
  intros st Hk Hpeer Hops.
  assert (Hinv : vectorClock st !! k = None
                 ∧ ∀ m, m ∈ ready st → msg_from m = k →
                        msg_vectorClock m !! k = None).
  { assert (H0 : vectorClock (constructor peer) !! k = None
                 ∧ ∀ m, m ∈ ready (constructor peer) → msg_from m = k →
                        msg_vectorClock m !! k = None).
    { split; [simpl; by rewrite assign_lookup_ne, lookup_empty|].
      intros m Hm. by apply elem_of_nil in Hm. }
    cut (peerId st = peerId (constructor peer)
         ∧ (vectorClock st !! k = None
            ∧ ∀ m, m ∈ ready st → msg_from m = k →
                   msg_vectorClock m !! k = None)).
    { by intros [_ ?]. }
    revert H0. subst st.
    cut (peerId (runOps (constructor peer) ops) = peerId (constructor peer)
         ∧ (peerId (constructor peer) ≠ k →
            (vectorClock (constructor peer) !! k = None
             ∧ ∀ m, m ∈ ready (constructor peer) → msg_from m = k →
                    msg_vectorClock m !! k = None) →
            (vectorClock (runOps (constructor peer) ops) !! k = None
             ∧ ∀ m, m ∈ ready (runOps (constructor peer) ops) →
                    msg_from m = k → msg_vectorClock m !! k = None))).
    { intros [H1 H2] H0. split; [exact H1|]. by apply H2. }
    apply (runOps_rel
             (fun m => msg_from m ≠ k → msg_vectorClock m !! k = None)
             (fun s s' =>
                peerId s' = peerId s
                ∧ (peerId s ≠ k →
                   (vectorClock s !! k = None
                    ∧ ∀ m, m ∈ ready s → msg_from m = k →
                           msg_vectorClock m !! k = None) →
                   (vectorClock s' !! k = None
                    ∧ ∀ m, m ∈ ready s' → msg_from m = k →
                           msg_vectorClock m !! k = None)))).
    - done.
    - intros a b c [Hab1 Hab2] [Hbc1 Hbc2]. split; [congruence|].
      intros Ha Hi. apply Hbc2; [congruence|]. by apply Hab2.
    - intros s s' p [H1 H2]. split; [exact H1|]. exact H2.
    - intros s m HQ Hcan. split; [done|]. intros _ [Hvc Hready].
      assert (Hnone : msg_vectorClock m !! k = None).
      { destruct (decide (msg_from m = k)) as [<-|Hne]; [|by apply HQ].
        destruct (msg_vectorClock m !! msg_from m) as [c|] eqn:Hc; [|done].
        rewrite canProcessMessage_member in Hcan; [done|done|done|].
        by rewrite Hc. }
      split.
      + simpl. by rewrite updateVectorClock_lookup, Hnone.
      + intros m' [Hin| ->%list_elem_of_singleton]%elem_of_app;
          [by apply Hready|done].
    - intros s content room type nowId nowTs. split; [done|].
      intros Hne [Hvc Hready]. split; [|done].
      simpl. by rewrite increment_lookup_ne.
    - intros s now. split; [done|]. done.
    - exact Hops.
    - intros e He. by apply elem_of_nil in He. }
  destruct Hinv as [Hvc Hready]. split; [exact Hvc|]. split; [|exact Hready].
  intros m <- Hsome. by apply canProcessMessage_member.
Qed.
End InheritedNames.

Section InheritedNamesRun.
Import MessageSync.
#[local] Existing Instance Scenario.collation.

Lemma inherited_author_never_delivered_witness :
  let ops := [Receive Scenario.k1; Receive Scenario.m1] in
  inherited "constructor" = true
  ∧ "B" ≠ "constructor"
  ∧ (∀ m, Receive m ∈ ops → msg_from m ≠ "constructor" →
          msg_vectorClock m !! "constructor" = None)
  ∧ canProcessMessage (runOps (constructor "B") ops) Scenario.k1 = false
  ∧ map msg_id (ready (runOps (constructor "B") ops)) = ["A_1_100"]
  ∧ JsMap.keys (pendingMessages (runOps (constructor "B") ops))
    = ["constructor_1_100"].
Proof.
  intros ops.
  assert (Hk : inherited "constructor" = true) by reflexivity.
  assert (Hpeer : "B" ≠ "constructor") by discriminate.
  assert (Hops : ∀ m, Receive m ∈ ops → msg_from m ≠ "constructor" →
                      msg_vectorClock m !! "constructor" = None).
  { intros m [[= ->]|[[= ->]|Hin]%elem_of_cons]%elem_of_cons Hne.
    - by destruct Hne.
    - reflexivity.
    - by apply elem_of_nil in Hin. }
  assert (Hfrom : msg_from Scenario.k1 = "constructor") by reflexivity.
  assert (Hsome : is_Some (msg_vectorClock Scenario.k1 !! "constructor"))
    by (vm_compute; eauto).
  split; [exact Hk|]. split; [exact Hpeer|]. split; [exact Hops|].
  split; [|split; by vm_compute].
  exact (proj1 (proj2 (inherited_author_never_delivered "B" "constructor"
                         ops Hk Hpeer Hops))
           Scenario.k1 Hfrom Hsome).
Defined.
End InheritedNamesRun.

(** ** The registry's index and room bookkeeping *)

Lemma foldl_preserves {A B : Type} (P : A → Prop) (f : A → B → A)
    (l : list B) (a : A) :
  (∀ a b, P a → P (f a b)) → P a → P (foldl f a l).
Proof.
  intros Hf. revert a. induction l as [|b l IH]; intros a Ha; simpl; [done|].
  by apply IH, Hf.
Qed.

Lemma JsSet_has_elem (x : string) (s : JsSet.t) :
  JsSet.has x s = true ↔ x ∈ s.
Proof. apply existsb_eqb_elem_of. Qed.

Lemma JsSet_add_elem (x y : string) (s : JsSet.t) :
  y ∈ JsSet.add x s ↔ y = x ∨ y ∈ s.
Proof.
  unfold JsSet.add. destruct (JsSet.has x s) eqn:Hh.
  - apply JsSet_has_elem in Hh. split; [by right|]. by intros [->|?].
  - rewrite elem_of_app, list_elem_of_singleton. tauto.
Qed.

Lemma JsSet_add_NoDup (x : string) (s : JsSet.t) :
  NoDup s → NoDup (JsSet.add x s).
Proof.
  intros Hnd. unfold JsSet.add. destruct (JsSet.has x s) eqn:Hh; [done|].
  apply NoDup_app. split; [done|]. split; [|apply NoDup_singleton].
  intros y Hy ->%list_elem_of_singleton.
  apply JsSet_has_elem in Hy. congruence.
Qed.

Lemma JsSet_delete_elem (x y : string) (s : JsSet.t) :
  y ∈ JsSet.delete x s ↔ y ∈ s ∧ y ≠ x.
Proof.
  unfold JsSet.delete. rewrite list_elem_of_filter.
  split; intros [H1 H2]; split; try done.
  - intros ->. by rewrite String.eqb_refl in H1.
  - by apply Is_true_true, negb_true_iff, String.eqb_neq.
Qed.

Lemma JsSet_delete_NoDup (x : string) (s : JsSet.t) :
  NoDup s → NoDup (JsSet.delete x s).
Proof. apply NoDup_filter. Qed.

Section Registry.
Import PeerRegistryManager.

Lemma same_peers_createRoom (info : RoomInfo) (reg : t) :
  same_peers reg (createRoom info reg).
Proof. done. Qed.

Lemma same_peers_addPeerToRoom (now : Z) (peerId roomId : string) (reg : t) :
  same_peers reg (addPeerToRoom now peerId roomId reg).
Proof.
  unfold addPeerToRoom.
  destruct (rooms reg !! roomId) as [room|]; simpl.
  - by destruct (rooms reg !! roomId).
  - by rewrite lookup_insert_eq.
Qed.

Lemma same_peers_removePeerFromRoom (peerId roomId : string) (reg : t) :
  same_peers reg (removePeerFromRoom peerId roomId reg).
Proof.
  unfold removePeerFromRoom.
  destruct (rooms reg !! roomId) as [room|]; [|done].
  by destruct (_ && _).
Qed.

Lemma same_peers_fold {B : Type} (f : t → B → t) (l : list B) (reg : t) :
  (∀ r b, same_peers r (f r b)) → same_peers reg (foldl f reg l).
Proof.
  intros Hf. revert reg. induction l as [|b l IH]; intros reg; simpl; [done|].
  destruct (IH (f reg b)) as [H1 H2]. destruct (Hf reg b) as [H3 H4].
  split; congruence.
Qed.

Lemma indexed_same_peers (reg reg' : t) :
  same_peers reg reg' → indexed reg → indexed reg'.
Proof. intros [Hp Hs]. unfold indexed. by rewrite Hp, Hs. Qed.
End Registry.

Section RegistryIndex.
Import PeerRegistryManager.

Lemma same_peers_remove_fold (peerId : string) (l : list string) (reg : t) :
  same_peers reg
    (foldl (fun r roomId => removePeerFromRoom peerId roomId r) reg l).
Proof.
  apply same_peers_fold. intros r b. apply same_peers_removePeerFromRoom.
Qed.

Lemma same_peers_add_fold (now : Z) (peerId : string) (l : list string)
    (reg : t) :
  same_peers reg
    (foldl (fun r roomId => addPeerToRoom now peerId roomId r) reg l).
Proof.
  apply same_peers_fold. intros r b. apply same_peers_addPeerToRoom.
Qed.

Lemma indexed_unregisterPeer (peerId : string) (reg : t) :
  indexed reg → indexed (unregisterPeer peerId reg).
Proof.
  intros [Hp Hs]. unfold unregisterPeer.
  destruct (peers reg !! peerId) as [pd|] eqn:Hpd; [|done].
  destruct (same_peers_remove_fold peerId (peer_rooms (pd_peer pd)) reg)
    as [Ep Es].
  split; simpl; rewrite ?Ep, ?Es.
  - intros pid' pd' [Hne Hpd']%lookup_delete_Some.
    destruct (Hp _ _ Hpd') as (H1 & H2 & H3 & H4).
    split; [done|]. split; [done|]. split; [done|].
    rewrite lookup_delete_ne; [done|].
    intros Heq. destruct (Hp _ _ Hpd) as (_ & _ & _ & H4').
    rewrite Heq in H4'. congruence.
  - intros s p [_ Hsp]%lookup_delete_Some. by eapply Hs.
Qed.

Lemma indexed_unregisterBySocket (socketId : string) (reg : t) :
  indexed reg → indexed (unregisterBySocket socketId reg).
Proof.
  intros H. unfold unregisterBySocket.
  destruct (socketToPeer reg !! socketId) as [p|]; [|done].
  destruct (String.eqb p ""); [done|]. by apply indexed_unregisterPeer.
Qed.

Lemma unregisterBySocket_frees (socketId : string) (reg : t)
    (peerId : string) (peerData : PeerData) :
  indexed reg →
  peers (unregisterBySocket socketId reg) !! peerId = Some peerData →
  pd_socket peerData ≠ socketId.
Proof.
  intros [Hp Hs]. unfold unregisterBySocket.
  destruct (socketToPeer reg !! socketId) as [p|] eqn:Hsock.
  - destruct (String.eqb_spec p "") as [->|_]; [by destruct (Hs _ _ Hsock)|].
    unfold unregisterPeer.
    destruct (peers reg !! p) as [pd|] eqn:Hpd.
    + destruct (same_peers_remove_fold p (peer_rooms (pd_peer pd)) reg)
        as [Ep _].
      simpl. rewrite Ep. intros [Hne Hpd']%lookup_delete_Some Heq.
      destruct (Hp _ _ Hpd') as (_ & _ & _ & H4). rewrite Heq in H4.
      congruence.
    + intros Hpd' Heq. destruct (Hp _ _ Hpd') as (_ & _ & _ & H4).
      rewrite Heq in H4. congruence.
  - intros Hpd' Heq. destruct (Hp _ _ Hpd') as (_ & _ & _ & H4).
    rewrite Heq in H4. congruence.
Qed.

Lemma indexed_registerPeer (now : Z) (peer : Peer) (socket : string) (reg : t) :
  peer_id peer ≠ "" → peer_socketId peer = socket →
  indexed reg → indexed (registerPeer now peer socket reg).
Proof.
  intros Hid Hsock Hreg. unfold registerPeer.
  eapply indexed_same_peers; [apply same_peers_add_fold|].
  pose proof (indexed_unregisterBySocket socket reg Hreg) as [Hp Hs].
  split; simpl.
  - intros pid' pd' [[<- <-]|[Hne Hpd']]%lookup_insert_Some; simpl.
    + by rewrite lookup_insert_eq.
    + destruct (Hp _ _ Hpd') as (H1 & H2 & H3 & H4).
      split; [done|]. split; [done|]. split; [done|].
      rewrite lookup_insert_ne; [done|].
      intros Heq. by eapply (unregisterBySocket_frees socket reg).
  - intros s p [[_ <-]|[_ Hsp]]%lookup_insert_Some; [done|by eapply Hs].
Qed.

Lemma indexed_updateHeartbeat (now : Z) (peerId : string) (reg : t) :
  indexed reg → indexed (updateHeartbeat now peerId reg).
Proof.
  intros [Hp Hs]. unfold updateHeartbeat.
  destruct (peers reg !! peerId) as [pd|] eqn:Hpd; [|done].
  split; simpl; [|done].
  intros pid' pd' [[<- <-]|[Hne Hpd']]%lookup_insert_Some; simpl.
  - apply (Hp _ _ Hpd).
  - by apply Hp.
Qed.

Lemma indexed_setHeartbeatTimer (peerId : string) (timer : nat) (reg : t) :
  indexed reg → indexed (setHeartbeatTimer peerId timer reg).
Proof.
  intros [Hp Hs]. unfold setHeartbeatTimer.
  destruct (peers reg !! peerId) as [pd|] eqn:Hpd; [|done].
  split; simpl; [|done].
  intros pid' pd' [[<- <-]|[Hne Hpd']]%lookup_insert_Some; simpl.
  - apply (Hp _ _ Hpd).
  - by apply Hp.
Qed.

(** Room bookkeeping. *)

Lemma rooms_tidy_createRoom (info : RoomInfo) (reg : t) :
  room_peers info = [] → rooms_tidy reg → rooms_tidy (createRoom info reg).
Proof.
  intros Hempty Hreg rid rd. unfold createRoom. simpl.
  intros [[<- <-]|[_ Hrd]]%lookup_insert_Some; simpl.
  - split; [done|]. split; [done|]. constructor.
  - by apply Hreg.
Qed.

Lemma rooms_tidy_addPeerToRoom (now : Z) (peerId roomId : string) (reg : t) :
  rooms_tidy reg → rooms_tidy (addPeerToRoom now peerId roomId reg).
Proof.
  intros Hreg. unfold addPeerToRoom.
  set (reg1 := match rooms reg !! roomId with
               | Some _ => reg
               | None => createRoom _ reg
               end).
  assert (H1 : rooms_tidy reg1).
  { subst reg1. destruct (rooms reg !! roomId); [done|].
    by apply rooms_tidy_createRoom. }
  destruct (rooms reg1 !! roomId) as [room|] eqn:Hroom; [|done].
  intros rid rd. simpl.
  intros [[<- <-]|[_ Hrd]]%lookup_insert_Some; simpl.
  - destruct (H1 _ _ Hroom) as (? & ? & ?).
    split; [done|]. split; [done|]. by apply JsSet_add_NoDup.
  - by apply H1.
Qed.

Lemma rooms_tidy_removePeerFromRoom (peerId roomId : string) (reg : t) :
  rooms_tidy reg → rooms_tidy (removePeerFromRoom peerId roomId reg).
Proof.
  intros Hreg. unfold removePeerFromRoom.
  destruct (rooms reg !! roomId) as [room|] eqn:Hroom; [|done].
  destruct (_ && _); intros rid rd; simpl.
  - intros [_ Hrd]%lookup_delete_Some. by apply Hreg.
  - intros [[<- <-]|[_ Hrd]]%lookup_insert_Some; simpl.
    + destruct (Hreg _ _ Hroom) as (? & ? & ?).
      split; [done|]. split; [done|]. by apply JsSet_delete_NoDup.
    + by apply Hreg.
Qed.

Lemma rooms_tidy_unregisterPeer (peerId : string) (reg : t) :
  rooms_tidy reg → rooms_tidy (unregisterPeer peerId reg).
Proof.
  intros Hreg. unfold unregisterPeer.
  destruct (peers reg !! peerId) as [pd|]; [|done].
  unfold rooms_tidy. simpl.
  apply (foldl_preserves rooms_tidy); [|done].
  intros r b. apply rooms_tidy_removePeerFromRoom.
Qed.

Lemma rooms_tidy_registerPeer (now : Z) (peer : Peer) (socket : string)
    (reg : t) :
  rooms_tidy reg → rooms_tidy (registerPeer now peer socket reg).
Proof.
  intros Hreg. unfold registerPeer.
  apply (foldl_preserves rooms_tidy).
  { intros r b. apply rooms_tidy_addPeerToRoom. }
  unfold rooms_tidy. simpl. unfold unregisterBySocket.
  destruct (socketToPeer reg !! socket) as [p|]; [|done].
  destruct (String.eqb p ""); [done|]. by apply rooms_tidy_unregisterPeer.
Qed.
End RegistryIndex.

Section ServiceInvariants.
Import PeerRegistryManager.

Lemma rooms_updateHeartbeat (now : Z) (peerId : string) (reg : t) :
  rooms (updateHeartbeat now peerId reg) = rooms reg.
Proof. unfold updateHeartbeat. by destruct (peers reg !! peerId). Qed.

Lemma rooms_setHeartbeatTimer (peerId : string) (timer : nat) (reg : t) :
  rooms (setHeartbeatTimer peerId timer reg) = rooms reg.
Proof. unfold setHeartbeatTimer. by destruct (peers reg !! peerId). Qed.

Lemma rooms_tidy_same_rooms (reg reg' : t) :
  rooms reg' = rooms reg → rooms_tidy reg → rooms_tidy reg'.
Proof. unfold rooms_tidy. by intros ->. Qed.

Lemma peer_prefix_nonempty (s : string) : "peer_" +:+ s ≠ "".
Proof. done. Qed.

Lemma registry_kept_step (s : DiscoveryService.t) (e : DiscoveryService.Event) :
  indexed (DiscoveryService.peerRegistry s)
  ∧ rooms_tidy (DiscoveryService.peerRegistry s) →
  indexed (DiscoveryService.peerRegistry (DiscoveryService.step s e))
  ∧ rooms_tidy (DiscoveryService.peerRegistry (DiscoveryService.step s e)).
Proof.
  intros [Hi Hr]. destruct e; simpl.
  - unfold DiscoveryService.on_peer_register. simpl. split.
    + apply indexed_setHeartbeatTimer, indexed_registerPeer; try done.
    + eapply rooms_tidy_same_rooms; [apply rooms_setHeartbeatTimer|].
      by apply rooms_tidy_registerPeer.
  - done.
  - unfold DiscoveryService.on_webrtc_signal.
    by destruct (getPeer _ _).
  - unfold DiscoveryService.on_peer_heartbeat.
    destruct (getPeerBySocket _ _) as [peer|]; [|done].
    destruct (getPeer _ _); simpl.
    + split.
      * by apply indexed_setHeartbeatTimer, indexed_updateHeartbeat.
      * eapply rooms_tidy_same_rooms; [apply rooms_setHeartbeatTimer|].
        eapply rooms_tidy_same_rooms; [apply rooms_updateHeartbeat|done].
    + split; [by apply indexed_updateHeartbeat|].
      eapply rooms_tidy_same_rooms; [apply rooms_updateHeartbeat|done].
  - unfold DiscoveryService.on_join_room.
    destruct (getPeerBySocket _ _) as [peer|]; [|done]. simpl. split.
    + eapply indexed_same_peers; [apply same_peers_addPeerToRoom|done].
    + by apply rooms_tidy_addPeerToRoom.
  - unfold DiscoveryService.on_leave_room.
    destruct (getPeerBySocket _ _) as [peer|]; [|done]. simpl. split.
    + eapply indexed_same_peers; [apply same_peers_removePeerFromRoom|done].
    + by apply rooms_tidy_removePeerFromRoom.
  - simpl. split; [done|]. by apply rooms_tidy_createRoom.
  - unfold DiscoveryService.on_disconnect.
    destruct (getPeerBySocket _ _) as [peer|]; [|done]. simpl. split.
    + by apply indexed_unregisterPeer.
    + by apply rooms_tidy_unregisterPeer.
  - unfold DiscoveryService.on_timeout, DiscoveryService.on_disconnect.
    simpl.
    assert (H1 : indexed (unregisterPeer peerId (DiscoveryService.peerRegistry s)))
      by by apply indexed_unregisterPeer.
    assert (H2 : rooms_tidy (unregisterPeer peerId (DiscoveryService.peerRegistry s)))
      by by apply rooms_tidy_unregisterPeer.
    destruct (getPeerBySocket _ _) as [peer|]; [|done]. simpl. split.
    + by apply indexed_unregisterPeer.
    + by apply rooms_tidy_unregisterPeer.
Qed.

Lemma registry_kept_run (interval : Z) (es : list DiscoveryService.Event) :
  indexed (DiscoveryService.peerRegistry
             (DiscoveryService.run (DiscoveryService.constructor interval) es))
  ∧ rooms_tidy (DiscoveryService.peerRegistry
                  (DiscoveryService.run (DiscoveryService.constructor interval) es)).
Proof.
  unfold DiscoveryService.run.
  apply (foldl_preserves
           (fun s => indexed (DiscoveryService.peerRegistry s)
                     ∧ rooms_tidy (DiscoveryService.peerRegistry s))).
  - intros s e. apply registry_kept_step.
  - split; [split|].
    + intros pid pd Hpd. simpl in Hpd. by rewrite lookup_empty in Hpd.
    + intros sid pid Hs. simpl in Hs. by rewrite lookup_empty in Hs.
    + intros rid rd Hrd. simpl in Hrd. by rewrite lookup_empty in Hrd.
Qed.

(** X15. In every state the service reaches, whatever the events, each
    registered peer is filed under its own id, carries the id of the
    socket it registered on, and is the peer found by that socket; so
    two registered peers never share a socket (registering again on a
    socket replaces the previous registration). *)
Theorem registry_one_peer_per_socket
    (interval : Z) (es : list DiscoveryService.Event) :
  let reg := DiscoveryService.peerRegistry
               (DiscoveryService.run (DiscoveryService.constructor interval) es) in
  (∀ peerId peerData,
     peers reg !! peerId = Some peerData →
     peer_id (pd_peer peerData) = peerId
     ∧ peer_socketId (pd_peer peerData) = pd_socket peerData
     ∧ getPeerBySocket (pd_socket peerData) reg = Some (pd_peer peerData))
  ∧ (∀ id1 id2 pd1 pd2,
       peers reg !! id1 = Some pd1 → peers reg !! id2 = Some pd2 →
       pd_socket pd1 = pd_socket pd2 → id1 = id2).
Proof.
  intros reg. destruct (registry_kept_run interval es) as [[Hp Hs] _].
  fold reg in Hp, Hs. split.
  - intros pid pd Hpd. destruct (Hp _ _ Hpd) as (Hne & Hid & Hsock & Hidx).
    split; [done|]. split; [done|].
    unfold getPeerBySocket, getPeer. rewrite Hidx.
    destruct (String.eqb_spec pid "") as [?|_]; [done|]. by rewrite Hpd.
  - intros id1 id2 pd1 pd2 H1 H2 Heq.
    destruct (Hp _ _ H1) as (_ & _ & _ & Hi1).
    destruct (Hp _ _ H2) as (_ & _ & _ & Hi2).
    rewrite Heq in Hi1. congruence.
Qed.

(** X16. In every state the service reaches, each room is filed under
    its id, the peer list of its descriptor (what [getRoom] shows) is
    exactly its member set in joining order, and no member is listed
    twice. *)
Theorem rooms_descriptor_mirrors_members
    (interval : Z) (es : list DiscoveryService.Event)
    (roomId : string) (info : RoomInfo) :
  let reg := DiscoveryService.peerRegistry
               (DiscoveryService.run (DiscoveryService.constructor interval) es) in
  getRoom roomId reg = Some info →
  room_id info = roomId
  ∧ NoDup (room_peers info)
  ∧ ∃ room, rooms reg !! roomId = Some room
            ∧ rd_info room = info
            ∧ rd_peers room = room_peers info.
Proof.
  intros reg. destruct (registry_kept_run interval es) as [_ Hr].
  fold reg in Hr. unfold getRoom.
  destruct (rooms reg !! roomId) as [room|] eqn:Hroom; [|done].
  intros [= <-]. destruct (Hr _ _ Hroom) as (Hid & Hmirror & Hnd).
  split; [done|]. split; [by rewrite Hmirror|]. by exists room.
Qed.

Lemma rooms_descriptor_mirrors_members_witness :
  ∃ info,
    getRoom "general"
      (DiscoveryService.peerRegistry
         (DiscoveryService.run (DiscoveryService.constructor 30000)
            [DiscoveryService.EvRegister "s1" "10.0.0.1" Scenario.alice
               1000 1000 "abc" 0%nat])) = Some info
    ∧ room_id info = "general" ∧ NoDup (room_peers info).
Proof.
  eexists.
  assert (Hget : getRoom "general"
      (DiscoveryService.peerRegistry
         (DiscoveryService.run (DiscoveryService.constructor 30000)
            [DiscoveryService.EvRegister "s1" "10.0.0.1" Scenario.alice
               1000 1000 "abc" 0%nat]))
      = Some (mkRoomInfo "general" "general" [Scenario.aliceId] 1000 false))
    by (vm_compute; reflexivity).
  split; [exact Hget|].
  pose proof (rooms_descriptor_mirrors_members 30000 _ _ _ Hget)
    as (H1 & H2 & _).
  split; [exact H1|exact H2].
Defined.
End ServiceInvariants.

(** ** Members of rooms are registered peers, unless [join_room] is used *)

Section Membership.
Import PeerRegistryManager.

Lemma addPeerToRoom_members (now : Z) (peerId roomId : string) (reg : t)
    (r : string) (room' : RoomData) (x : string) :
  rooms (addPeerToRoom now peerId roomId reg) !! r = Some room' →
  x ∈ rd_peers room' →
  (x = peerId ∧ r = roomId)
  ∨ ∃ room, rooms reg !! r = Some room ∧ x ∈ rd_peers room.
Proof.
  unfold addPeerToRoom.
  destruct (rooms reg !! roomId) as [room|] eqn:Hroom.
  - rewrite Hroom. simpl.
    intros [[<- <-]|[Hne Hr]]%lookup_insert_Some; simpl.
    + intros [->|Hx]%JsSet_add_elem; [by left|]. right. by exists room.
    + intros Hx. right. by exists room'.
  - simpl. rewrite lookup_insert_eq. simpl.
    intros [[<- <-]|[Hne Hr]]%lookup_insert_Some; simpl.
    + intros [->|Hx]%JsSet_add_elem; [by left|]. by apply elem_of_nil in Hx.
    + rewrite lookup_insert_ne in Hr by done. intros Hx. right. by exists room'.
Qed.

Lemma removePeerFromRoom_members (peerId roomId : string) (reg : t)
    (r : string) (room' : RoomData) (x : string) :
  rooms (removePeerFromRoom peerId roomId reg) !! r = Some room' →
  x ∈ rd_peers room' →
  (∃ room, rooms reg !! r = Some room ∧ x ∈ rd_peers room)
  ∧ (r = roomId → x ≠ peerId).
Proof.
  unfold removePeerFromRoom.
  destruct (rooms reg !! roomId) as [room|] eqn:Hroom.
  - destruct (_ && _); simpl.
    + intros [Hne Hr]%lookup_delete_Some Hx. split; [by exists room'|done].
    + intros [[<- <-]|[Hne Hr]]%lookup_insert_Some; simpl.
      * intros [Hx Hxne]%JsSet_delete_elem. split; [by exists room|done].
      * intros Hx. split; [by exists room'|done].
  - intros Hr Hx. split; [by exists room'|]. intros ->. congruence.
Qed.

Lemma remove_fold_members (peerId : string) (l : list string) (reg : t)
    (r : string) (room' : RoomData) (x : string) :
  rooms (foldl (fun g roomId => removePeerFromRoom peerId roomId g) reg l)
    !! r = Some room' →
  x ∈ rd_peers room' →
  (∃ room, rooms reg !! r = Some room ∧ x ∈ rd_peers room)
  ∧ (r ∈ l → x ≠ peerId).
Proof.
  revert reg room'. induction l as [|a l IH]; intros reg room' Hr Hx; simpl in *.
  - split; [by exists room'|]. by intros ?%elem_of_nil.
  - destruct (IH _ _ Hr Hx) as [(room1 & Hr1 & Hx1) Hl].
    destruct (removePeerFromRoom_members _ _ _ _ _ _ Hr1 Hx1) as [Hreg Ha].
    split; [done|]. intros [->|?]%elem_of_cons; auto.
Qed.

Lemma add_fold_members (now : Z) (peerId : string) (l : list string) (reg : t)
    (r : string) (room' : RoomData) (x : string) :
  rooms (foldl (fun g roomId => addPeerToRoom now peerId roomId g) reg l)
    !! r = Some room' →
  x ∈ rd_peers room' →
  (x = peerId ∧ r ∈ l)
  ∨ ∃ room, rooms reg !! r = Some room ∧ x ∈ rd_peers room.
Proof.
  revert reg room'. induction l as [|a l IH]; intros reg room' Hr Hx; simpl in *.
  - right. by exists room'.
  - destruct (IH _ _ Hr Hx) as [[-> Hin]|(room1 & Hr1 & Hx1)].
    + left. split; [done|by right].
    + destruct (addPeerToRoom_members _ _ _ _ _ _ _ Hr1 Hx1)
        as [[-> ->]|Hreg]; [left; split; [done|left]|by right].
Qed.

Lemma members_listed_weaken (reg reg' : t) :
  (∀ r room' x,
     rooms reg' !! r = Some room' → x ∈ rd_peers room' →
     ∃ room, rooms reg !! r = Some room ∧ x ∈ rd_peers room) →
  (∀ peerId peerData,
     peers reg !! peerId = Some peerData →
     ∃ peerData',
       peers reg' !! peerId = Some peerData'
       ∧ peer_rooms (pd_peer peerData') = peer_rooms (pd_peer peerData)) →
  members_listed reg → members_listed reg'.
Proof.
  intros Hrooms Hpeers Hreg r room' x Hr Hx.
  destruct (Hrooms _ _ _ Hr Hx) as (room & Hr0 & Hx0).
  destruct (Hreg _ _ _ Hr0 Hx0) as (pd & Hpd & Hin).
  destruct (Hpeers _ _ Hpd) as (pd' & Hpd' & Heq).
  exists pd'. by rewrite Heq.
Qed.

Lemma members_listed_unregisterPeer (peerId : string) (reg : t) :
  members_listed reg → members_listed (unregisterPeer peerId reg).
Proof.
  intros Hreg. unfold unregisterPeer.
  destruct (peers reg !! peerId) as [pd|] eqn:Hpd; [|done].
  destruct (same_peers_remove_fold peerId (peer_rooms (pd_peer pd)) reg)
    as [Ep _].
  intros r room' x Hr Hx. simpl in *.
  destruct (remove_fold_members _ _ _ _ _ _ Hr Hx) as [(room & Hr0 & Hx0) Hl].
  destruct (Hreg _ _ _ Hr0 Hx0) as (pdx & Hpdx & Hin).
  exists pdx. split; [|done]. rewrite Ep.
  apply lookup_delete_Some. split; [|done].
  intros <-. assert (pdx = pd) as -> by congruence. by apply Hl.
Qed.

Lemma unregisterPeer_keeps_absent (peerId q : string) (reg : t) :
  peers reg !! q = None → peers (unregisterPeer peerId reg) !! q = None.
Proof.
  intros Hq. unfold unregisterPeer.
  destruct (peers reg !! peerId) as [pd|]; [|done]. simpl.
  destruct (same_peers_remove_fold peerId (peer_rooms (pd_peer pd)) reg)
    as [-> _].
  apply lookup_delete_None. by right.
Qed.

Lemma members_listed_registerPeer (now : Z) (peer : Peer) (socket : string)
    (reg : t) :
  peers reg !! peer_id peer = None →
  members_listed reg → members_listed (registerPeer now peer socket reg).
Proof.
  intros Hfresh Hreg. unfold registerPeer.
  set (reg1 := unregisterBySocket socket reg).
  assert (H1 : members_listed reg1 ∧ peers reg1 !! peer_id peer = None).
  { subst reg1. unfold unregisterBySocket.
    destruct (socketToPeer reg !! socket) as [p|]; [|done].
    destruct (String.eqb p ""); [done|].
    split; [by apply members_listed_unregisterPeer|].
    by apply unregisterPeer_keeps_absent. }
  destruct H1 as [Hl1 Hf1].
  intros r room' x Hr Hx.
  destruct (same_peers_add_fold now (peer_id peer) (peer_rooms peer)
    {| peers := <[peer_id peer :=
                    {| pd_peer := peer; pd_socket := socket;
                       pd_heartbeatTimer := None |}]> (peers reg1);
       rooms := rooms reg1;
       socketToPeer := <[socket := peer_id peer]> (socketToPeer reg1);
       cleared := cleared reg1 |}) as [Ep _].
  rewrite Ep. simpl.
  destruct (add_fold_members _ _ _ _ _ _ _ Hr Hx) as [[-> Hin]|(room & Hr0 & Hx0)].
  - eexists. split; [apply lookup_insert_eq|done].
  - simpl in Hr0. destruct (Hl1 _ _ _ Hr0 Hx0) as (pdx & Hpdx & Hin).
    exists pdx. split; [|done]. rewrite lookup_insert_ne; [done|].
    intros <-. congruence.
Qed.

Lemma members_listed_updateHeartbeat (now : Z) (peerId : string) (reg : t) :
  members_listed reg → members_listed (updateHeartbeat now peerId reg).
Proof.
  apply members_listed_weaken.
  - rewrite rooms_updateHeartbeat. eauto.
  - intros q pdq Hq. unfold updateHeartbeat.
    destruct (peers reg !! peerId) as [pd|] eqn:Hpd; [|by exists pdq].
    simpl. destruct (decide (peerId = q)) as [->|Hne].
    + rewrite lookup_insert_eq. eexists. split; [done|]. simpl. congruence.
    + rewrite lookup_insert_ne by done. by exists pdq.
Qed.

Lemma members_listed_setHeartbeatTimer (peerId : string) (timer : nat)
    (reg : t) :
  members_listed reg → members_listed (setHeartbeatTimer peerId timer reg).
Proof.
  apply members_listed_weaken.
  - rewrite rooms_setHeartbeatTimer. eauto.
  - intros q pdq Hq. unfold setHeartbeatTimer.
    destruct (peers reg !! peerId) as [pd|] eqn:Hpd; [|by exists pdq].
    simpl. destruct (decide (peerId = q)) as [->|Hne].
    + rewrite lookup_insert_eq. eexists. split; [done|]. simpl. congruence.
    + rewrite lookup_insert_ne by done. by exists pdq.
Qed.

Lemma members_listed_removePeerFromRoom (peerId roomId : string) (reg : t) :
  members_listed reg → members_listed (removePeerFromRoom peerId roomId reg).
Proof.
  apply members_listed_weaken.
  - intros r room' x Hr Hx.
    by destruct (removePeerFromRoom_members _ _ _ _ _ _ Hr Hx).
  - intros q pdq Hq. exists pdq.
    destruct (same_peers_removePeerFromRoom peerId roomId reg) as [-> _].
    done.
Qed.

Lemma members_listed_createRoom (info : RoomInfo) (reg : t) :
  members_listed reg → members_listed (createRoom info reg).
Proof.
  apply members_listed_weaken.
  - intros r room' x. unfold createRoom. simpl.
    intros [[<- <-]|[Hne Hr]]%lookup_insert_Some; simpl.
    + by intros ?%elem_of_nil.
    + intros Hx. by exists room'.
  - intros q pdq Hq. by exists pdq.
Qed.

Lemma members_listed_step (s : DiscoveryService.t) (e : DiscoveryService.Event) :
  members_listed (DiscoveryService.peerRegistry s) →
  DiscoveryService.fresh_run s [e] →
  members_listed (DiscoveryService.peerRegistry (DiscoveryService.step s e)).
Proof.
  intros Hreg [He _]. destruct e; simpl in *.
  - unfold DiscoveryService.on_peer_register. simpl.
    apply members_listed_setHeartbeatTimer.
    by apply members_listed_registerPeer.
  - done.
  - unfold DiscoveryService.on_webrtc_signal. by destruct (getPeer _ _).
  - unfold DiscoveryService.on_peer_heartbeat.
    destruct (getPeerBySocket _ _) as [peer|]; [|done].
    destruct (getPeer _ _); simpl.
    + by apply members_listed_setHeartbeatTimer, members_listed_updateHeartbeat.
    + by apply members_listed_updateHeartbeat.
  - done.
  - unfold DiscoveryService.on_leave_room.
    destruct (getPeerBySocket _ _) as [peer|]; [|done]. simpl.
    by apply members_listed_removePeerFromRoom.
  - by apply members_listed_createRoom.
  - unfold DiscoveryService.on_disconnect.
    destruct (getPeerBySocket _ _) as [peer|]; [|done]. simpl.
    by apply members_listed_unregisterPeer.
  - unfold DiscoveryService.on_timeout, DiscoveryService.on_disconnect. simpl.
    pose proof (members_listed_unregisterPeer peerId _ Hreg) as H1.
    destruct (getPeerBySocket _ _) as [peer|]; [|done]. simpl.
    by apply members_listed_unregisterPeer.
Qed.

Lemma members_listed_run (es : list DiscoveryService.Event)
    (s : DiscoveryService.t) :
  members_listed (DiscoveryService.peerRegistry s) →
  DiscoveryService.fresh_run s es →
  members_listed (DiscoveryService.peerRegistry (DiscoveryService.run s es)).
Proof.
  revert s. induction es as [|e es IH]; intros s Hreg Hrun; [done|].
  destruct Hrun as [He Hrest]. simpl. apply IH; [|done].
  apply members_listed_step; [done|]. by split.
Qed.

(** X17. As long as no client sends [join_room] and every registration
    draws an id that is not in use, every member of every room is a
    registered peer, and one that lists the room among its rooms: the
    member sets stay within the registered peers through registrations,
    re-registrations, heartbeats, [leave_room], [create_room],
    disconnects and liveness timeouts. *)
Theorem rooms_within_peers_without_join
    (interval : Z) (es : list DiscoveryService.Event) :
  let s0 := DiscoveryService.constructor interval in
  let reg := DiscoveryService.peerRegistry (DiscoveryService.run s0 es) in
  DiscoveryService.fresh_run s0 es →
  DiscoveryService.roomsWithinPeers reg
  ∧ ∀ roomId room peerId,
      rooms reg !! roomId = Some room → peerId ∈ rd_peers room →
      ∃ peer, getPeer peerId reg = Some peer ∧ roomId ∈ peer_rooms peer.
Proof.
  intros s0 reg Hrun.
  assert (H : members_listed reg).
  { apply members_listed_run; [|done].
    intros r room x Hr. simpl in Hr. by rewrite lookup_empty in Hr. }
  split.
  - intros r room x Hr Hx. destruct (H _ _ _ Hr Hx) as (pd & Hpd & _).
    by exists pd.
  - intros r room x Hr Hx. destruct (H _ _ _ Hr Hx) as (pd & Hpd & Hin).
    exists (pd_peer pd). unfold getPeer. by rewrite Hpd.
Qed.

Lemma rooms_within_peers_without_join_witness :
  let es :=
    [DiscoveryService.EvRegister "s1" "10.0.0.1" Scenario.alice
       1000 1000 "abc" 0%nat;
     DiscoveryService.EvHeartbeat "s1" 2000 1%nat;
     DiscoveryService.EvLeaveRoom "s1" "general";
     DiscoveryService.EvDisconnect "s1"] in
  DiscoveryService.fresh_run (DiscoveryService.constructor 30000) es
  ∧ DiscoveryService.roomsWithinPeers
      (DiscoveryService.peerRegistry
         (DiscoveryService.run (DiscoveryService.constructor 30000) es)).
Proof.
  intros es.
  assert (Hrun : DiscoveryService.fresh_run
                   (DiscoveryService.constructor 30000) es).
  { subst es. simpl. repeat split. }
  split; [exact Hrun|].
  exact (proj1 (rooms_within_peers_without_join 30000 es Hrun)).
Defined.
End Membership.

(** ** Leaving the registry *)

Section Leaving.
Import PeerRegistryManager.

Lemma unregisterPeer_removes (peerId : string) (reg : t) :
  peers (unregisterPeer peerId reg) !! peerId = None.
Proof.
  unfold unregisterPeer.
  destruct (peers reg !! peerId) as [pd|] eqn:Hpd; [|done].
  simpl. apply lookup_delete_eq.
Qed.

Lemma getPeerBySocket_Some (socketId : string) (reg : t) (peer : Peer) :
  getPeerBySocket socketId reg = Some peer →
  ∃ peerId peerData,
    socketToPeer reg !! socketId = Some peerId
    ∧ peers reg !! peerId = Some peerData
    ∧ pd_peer peerData = peer.
Proof.
  unfold getPeerBySocket, getPeer.
  destruct (socketToPeer reg !! socketId) as [pid|]; [|done].
  destruct (String.eqb pid ""); [done|].
  destruct (peers reg !! pid) as [pd|] eqn:Hpd; [|done].
  intros [= <-]. by exists pid, pd.
Qed.

Lemma members_listed_fresh_run (interval : Z)
    (es : list DiscoveryService.Event) :
  DiscoveryService.fresh_run (DiscoveryService.constructor interval) es →
  members_listed
    (DiscoveryService.peerRegistry
       (DiscoveryService.run (DiscoveryService.constructor interval) es)).
Proof.
  apply members_listed_run.
  intros r room x Hr. simpl in Hr. by rewrite lookup_empty in Hr.
Qed.

(** X19. When the socket of a registered peer disconnects (in a run
    without [join_room] and with unused ids at registration), the peer
    is no longer registered, its socket no longer leads to a peer, it is
    a member of no room, and [peer_left] with its id goes to each room
    it registered with. *)
Theorem disconnect_unregisters (interval : Z)
    (es : list DiscoveryService.Event) (socketId : string) (peer : Peer) :
  let s0 := DiscoveryService.constructor interval in
  let s := DiscoveryService.run s0 es in
  let s' := DiscoveryService.on_disconnect socketId s in
  DiscoveryService.fresh_run s0 es →
  getPeerBySocket socketId (DiscoveryService.peerRegistry s) = Some peer →
  getPeer (peer_id peer) (DiscoveryService.peerRegistry s') = None
  ∧ getPeerBySocket socketId (DiscoveryService.peerRegistry s') = None
  ∧ (∀ roomId room,
       rooms (DiscoveryService.peerRegistry s') !! roomId = Some room →
       peer_id peer ∉ rd_peers room)
  ∧ DiscoveryService.effects s'
    = DiscoveryService.effects s
      ++ map (fun roomId =>
                SocketToRoomEmit socketId roomId (peer_left (peer_id peer)))
           (peer_rooms peer).
Proof.
  intros s0 s s' Hrun Hget.
  pose proof (members_listed_fresh_run interval es Hrun) as Hlisted.
  destruct (registry_kept_run interval es) as [[Hp _] _].
  fold s0 s in Hlisted, Hp. clearbody s.
  destruct (getPeerBySocket_Some _ _ _ Hget) as (pid & pd & Hsock & Hpd & <-).
  destruct (Hp _ _ Hpd) as (Hne & Hid & _ & _).
  assert (Hgone : peers (unregisterPeer pid (DiscoveryService.peerRegistry s))
                    !! pid = None) by apply unregisterPeer_removes.
  assert (Hsock' : getPeerBySocket socketId
                     (unregisterPeer pid (DiscoveryService.peerRegistry s))
                   = None).
  { unfold getPeerBySocket, getPeer.
    destruct (socketToPeer
                (unregisterPeer pid (DiscoveryService.peerRegistry s))
                !! socketId) as [q|] eqn:Hq; [|done].
    assert (q = pid) as ->.
    { revert Hq. unfold unregisterPeer. rewrite Hpd. cbn [socketToPeer].
      destruct (same_peers_remove_fold pid (peer_rooms (pd_peer pd))
                  (DiscoveryService.peerRegistry s)) as [_ ->].
      intros [_ Hq]%lookup_delete_Some. rewrite Hsock in Hq.
      by injection Hq. }
    destruct (String.eqb pid ""); [done|]. by rewrite Hgone. }
  assert (Hrooms : ∀ roomId room,
            rooms (unregisterPeer pid (DiscoveryService.peerRegistry s))
              !! roomId = Some room → pid ∉ rd_peers room).
  { intros rid room Hr Hin.
    destruct (members_listed_unregisterPeer pid _ Hlisted _ _ _ Hr Hin)
      as (pd' & Hpd' & _). rewrite Hgone in Hpd'. discriminate Hpd'. }
  subst s'. unfold DiscoveryService.on_disconnect. rewrite Hget, Hid.
  cbn [DiscoveryService.update DiscoveryService.peerRegistry
         DiscoveryService.effects].
  split; [unfold getPeer; by rewrite Hgone|]. done.
Qed.

Lemma disconnect_unregisters_witness :
  let es := [DiscoveryService.EvRegister "s1" "10.0.0.1" Scenario.alice
               1000 1000 "abc" 0%nat] in
  let s := DiscoveryService.run (DiscoveryService.constructor 30000) es in
  ∃ peer,
    DiscoveryService.fresh_run (DiscoveryService.constructor 30000) es
    ∧ getPeerBySocket "s1" (DiscoveryService.peerRegistry s) = Some peer
    ∧ getPeer (peer_id peer)
        (DiscoveryService.peerRegistry
           (DiscoveryService.on_disconnect "s1" s)) = None.
Proof.
  intros es s.
  assert (Hrun : DiscoveryService.fresh_run
                   (DiscoveryService.constructor 30000) es)
    by (subst es; simpl; repeat split).
  eexists.
  assert (Hget : getPeerBySocket "s1" (DiscoveryService.peerRegistry s)
                 = Some (mkPeer Scenario.aliceId "s1" "10.0.0.1" ["general"]
                           1000 (Some "alice") (Some "pk")))
    by (vm_compute; reflexivity).
  split; [exact Hrun|]. split; [exact Hget|].
  exact (proj1 (disconnect_unregisters 30000 es "s1" _ Hrun Hget)).
Defined.

(** X20. When the liveness timer of a peer fires (in a run without
    [join_room] and with unused ids at registration), the peer is no
    longer registered and is a member of no room, and its socket is told
    to disconnect. *)
Theorem timeout_evicts (interval : Z) (es : list DiscoveryService.Event)
    (peerId socketId : string) :
  let s0 := DiscoveryService.constructor interval in
  let s := DiscoveryService.run s0 es in
  let s' := DiscoveryService.on_timeout peerId socketId s in
  DiscoveryService.fresh_run s0 es →
  getPeer peerId (DiscoveryService.peerRegistry s') = None
  ∧ (∀ roomId room,
       rooms (DiscoveryService.peerRegistry s') !! roomId = Some room →
       peerId ∉ rd_peers room)
  ∧ SocketDisconnect socketId ∈ DiscoveryService.effects s'.
Proof.
  intros s0 s s' Hrun.
  pose proof (members_listed_fresh_run interval es Hrun) as Hlisted.
  fold s0 s in Hlisted. clearbody s.
  assert (Hgone : peers (DiscoveryService.peerRegistry s') !! peerId = None
                  ∧ members_listed (DiscoveryService.peerRegistry s')
                  ∧ SocketDisconnect socketId ∈ DiscoveryService.effects s').
  { subst s'. unfold DiscoveryService.on_timeout, DiscoveryService.on_disconnect.
    simpl.
    pose proof (unregisterPeer_removes peerId
                  (DiscoveryService.peerRegistry s)) as H1.
    pose proof (members_listed_unregisterPeer peerId _ Hlisted) as H2.
    destruct (getPeerBySocket _ _) as [peer|]; simpl.
    - split; [by apply unregisterPeer_keeps_absent|].
      split; [by apply members_listed_unregisterPeer|].
      rewrite !elem_of_app, list_elem_of_singleton. tauto.
    - split; [done|]. split; [done|].
      rewrite elem_of_app, list_elem_of_singleton. tauto. }
  destruct Hgone as (Hgone & Hl & Heff).
  split; [unfold getPeer; by rewrite Hgone|]. split; [|done].
  intros rid room Hr Hin. destruct (Hl _ _ _ Hr Hin) as (pd & Hpd & _).
  congruence.
Qed.

Lemma timeout_evicts_witness :
  let es := [DiscoveryService.EvRegister "s1" "10.0.0.1" Scenario.alice
               1000 1000 "abc" 0%nat] in
  DiscoveryService.fresh_run (DiscoveryService.constructor 30000) es
  ∧ getPeer Scenario.aliceId
      (DiscoveryService.peerRegistry
         (DiscoveryService.on_timeout Scenario.aliceId "s1"
            (DiscoveryService.run (DiscoveryService.constructor 30000) es)))
    = None.
Proof.
  intros es.
  assert (Hrun : DiscoveryService.fresh_run
                   (DiscoveryService.constructor 30000) es)
    by (subst es; simpl; repeat split).
  split; [exact Hrun|].
  exact (proj1 (timeout_evicts 30000 es Scenario.aliceId "s1" Hrun)).
Defined.
End Leaving.

(** ** Heartbeats, re-registration, discovery and relay on reachable states *)

Section Reachable.
Import PeerRegistryManager.

Lemma run_snoc (s : DiscoveryService.t) (es : list DiscoveryService.Event)
    (e : DiscoveryService.Event) :
  DiscoveryService.run s (es ++ [e])
  = DiscoveryService.step (DiscoveryService.run s es) e.
Proof. unfold DiscoveryService.run. apply foldl_snoc. Qed.

Lemma indexed_getPeerBySocket (reg : t) (socketId : string) (peer : Peer) :
  indexed reg →
  getPeerBySocket socketId reg = Some peer →
  ∃ peerData,
    socketToPeer reg !! socketId = Some (peer_id peer)
    ∧ peers reg !! peer_id peer = Some peerData
    ∧ pd_peer peerData = peer.
Proof.
  intros [Hp _] Hget.
  destruct (getPeerBySocket_Some _ _ _ Hget) as (pid & pd & Hsock & Hpd & <-).
  destruct (Hp _ _ Hpd) as (_ & Hid & _). rewrite Hid. by exists pd.
Qed.

Lemma indexed_lookup_by_socket (reg : t) (peerId : string)
    (peerData : PeerData) :
  indexed reg →
  peers reg !! peerId = Some peerData →
  getPeerBySocket (pd_socket peerData) reg = Some (pd_peer peerData).
Proof.
  intros [Hp _] Hpd. destruct (Hp _ _ Hpd) as (Hne & _ & _ & Hsock).
  unfold getPeerBySocket, getPeer. rewrite Hsock.
  destruct (String.eqb_spec peerId "") as [?|_]; [done|]. by rewrite Hpd.
Qed.

Lemma peers_registerPeer (now : Z) (peer : Peer) (socket : string) (reg : t) :
  peers (registerPeer now peer socket reg)
  = <[peer_id peer := mkPeerData peer socket None]>
      (peers (unregisterBySocket socket reg)).
Proof.
  unfold registerPeer. exact (proj1 (same_peers_add_fold _ _ _ _)).
Qed.

Lemma peers_setHeartbeatTimer_hit (peerId : string) (timer : nat) (reg : t)
    (peerData : PeerData) :
  peers reg !! peerId = Some peerData →
  peers (setHeartbeatTimer peerId timer reg)
  = <[peerId := mkPeerData (pd_peer peerData) (pd_socket peerData)
                  (Some timer)]> (peers reg).
Proof. intros H. unfold setHeartbeatTimer. by rewrite H. Qed.

(** X18. A heartbeat from a socket that has no registered peer changes
    nothing.  A heartbeat from a registered peer's socket sets the
    peer's last-seen time to now and replaces its liveness timer: the
    handle it had, if any, is cleared, the new handle is stored, and the
    new timer is set for twice the heartbeat interval; rooms, the socket
    index and all other peers are untouched. *)
Theorem heartbeat_reschedules (interval : Z)
    (es : list DiscoveryService.Event) (socketId : string) (now : Z)
    (timer : nat) :
  let s := DiscoveryService.run (DiscoveryService.constructor interval) es in
  let s' := DiscoveryService.on_peer_heartbeat socketId now timer s in
  let reg := DiscoveryService.peerRegistry s in
  let reg' := DiscoveryService.peerRegistry s' in
  (getPeerBySocket socketId reg = None → s' = s)
  ∧ ∀ peer,
      getPeerBySocket socketId reg = Some peer →
      ∃ peerData,
        peers reg !! peer_id peer = Some peerData
        ∧ pd_peer peerData = peer
        ∧ peers reg'
          = <[peer_id peer :=
                {| pd_peer :=
                     mkPeer (peer_id peer) (peer_socketId peer) (peer_ip peer)
                       (peer_rooms peer) now (peer_nickname peer)
                       (peer_publicKey peer);
                   pd_socket := pd_socket peerData;
                   pd_heartbeatTimer := Some timer |}]> (peers reg)
        ∧ cleared reg'
          = cleared reg
            ++ match pd_heartbeatTimer peerData with
               | Some h => [h]
               | None => []
               end
        ∧ rooms reg' = rooms reg
        ∧ socketToPeer reg' = socketToPeer reg
        ∧ DiscoveryService.effects s'
          = DiscoveryService.effects s
            ++ [SetTimeout timer (peer_id peer) socketId
                  (DiscoveryService.heartbeatInterval s * 2)].
Proof.
  intros s s' reg reg'.
  destruct (registry_kept_run interval es) as [Hidx _].
  fold s reg in Hidx. subst reg' s'. clearbody s. subst reg.
  unfold DiscoveryService.on_peer_heartbeat. split.
  - by intros ->.
  - intros peer Hget. rewrite Hget.
    destruct (indexed_getPeerBySocket _ _ _ Hidx Hget) as (pd & _ & Hpd & <-).
    exists pd. split; [done|]. split; [done|].
    unfold updateHeartbeat, getPeer. rewrite Hpd.
    cbn [peers]. rewrite lookup_insert_eq. cbn [fmap option_fmap option_map].
    unfold setHeartbeatTimer. cbn [peers]. rewrite lookup_insert_eq.
    cbn [DiscoveryService.update DiscoveryService.peerRegistry
           DiscoveryService.effects peers rooms socketToPeer cleared
           pd_peer pd_socket pd_heartbeatTimer].
    rewrite insert_insert_eq.
    split; [done|].
    split; [destruct (pd_heartbeatTimer pd); [done|by rewrite app_nil_r]|].
    done.
Qed.

(** X21. Registering on a socket binds the socket to the new peer: in
    the state after [peer_register], lookup by that socket finds the new
    peer, with the drawn id, the socket's id and the requested rooms
    (room "general" when none were given); a peer that was registered on
    the same socket before, under another id, is no longer registered;
    and the [peer_list] sent back, last, never contains the new peer
    itself. *)
Theorem register_rebinds_socket (interval : Z)
    (es : list DiscoveryService.Event) (socketId address : string)
    (data : RegisterData) (nowId nowSeen : Z) (rnd : string) (timer : nat) :
  let s := DiscoveryService.run (DiscoveryService.constructor interval) es in
  let s' := DiscoveryService.on_peer_register socketId address data
              nowId nowSeen rnd timer s in
  let newId := "peer_" +:+ pretty nowId +:+ "_" +:+ rnd in
  (∃ peer,
     getPeerBySocket socketId (DiscoveryService.peerRegistry s') = Some peer
     ∧ getPeer newId (DiscoveryService.peerRegistry s') = Some peer
     ∧ peer_id peer = newId
     ∧ peer_socketId peer = socketId
     ∧ peer_rooms peer = default ["general"] (reg_rooms data))
  ∧ (∀ old,
       getPeerBySocket socketId (DiscoveryService.peerRegistry s) = Some old →
       peer_id old ≠ newId →
       getPeer (peer_id old) (DiscoveryService.peerRegistry s') = None)
  ∧ ∃ listed,
      last (DiscoveryService.effects s')
      = Some (SocketEmit socketId (peer_list listed))
      ∧ ∀ p, p ∈ listed → peer_id p ≠ newId.
Proof.
  intros s s' newId.
  destruct (registry_kept_run interval es) as [Hidx _]. fold s in Hidx.
  destruct (registry_kept_run interval
              (es ++ [DiscoveryService.EvRegister socketId address data
                        nowId nowSeen rnd timer])) as [Hidx' _].
  rewrite run_snoc in Hidx'. fold s in Hidx'.
  change (DiscoveryService.step s _) with s' in Hidx'. clearbody s.
  set (peer := mkPeer newId socketId address
                 (default ["general"] (reg_rooms data)) nowSeen
                 (Some (reg_nickname data)) (Some (reg_publicKey data))).
  set (reg1 := unregisterBySocket socketId (DiscoveryService.peerRegistry s)).
  assert (Hpeers : peers (DiscoveryService.peerRegistry s')
                   = <[newId := mkPeerData peer socketId (Some timer)]>
                       (peers reg1)).
  { subst s'. unfold DiscoveryService.on_peer_register.
    cbn [DiscoveryService.update DiscoveryService.peerRegistry].
    fold newId peer.
    rewrite (peers_setHeartbeatTimer_hit _ _ _ (mkPeerData peer socketId None)).
    - rewrite peers_registerPeer. apply insert_insert_eq.
    - rewrite peers_registerPeer. apply lookup_insert_eq. }
  split; [|split].
  - exists peer.
    assert (Hnew : peers (DiscoveryService.peerRegistry s') !! newId
                   = Some (mkPeerData peer socketId (Some timer)))
      by (rewrite Hpeers; apply lookup_insert_eq).
    split; [exact (indexed_lookup_by_socket _ _ _ Hidx' Hnew)|].
    split; [unfold getPeer; by rewrite Hnew|]. done.
  - intros old Hold Hne.
    destruct (indexed_getPeerBySocket _ _ _ Hidx Hold) as (pd & Hsock & Hpd & <-).
    unfold getPeer. rewrite Hpeers, lookup_insert_ne by done.
    subst reg1. unfold unregisterBySocket. rewrite Hsock.
    destruct Hidx as [Hp _]. destruct (Hp _ _ Hpd) as (Hne0 & _).
    destruct (String.eqb_spec (peer_id (pd_peer pd)) "") as [?|_]; [done|].
    by rewrite unregisterPeer_removes.
  - subst s'. unfold DiscoveryService.on_peer_register.
    cbn [DiscoveryService.update DiscoveryService.effects].
    eexists. rewrite !app_assoc, last_snoc. split; [done|].
    intros p Hp%list_elem_of_In%filter_In. destruct Hp as [_ Hp].
    apply negb_true_iff, String.eqb_neq in Hp. exact Hp.
Qed.

Lemma register_rebinds_socket_witness :
  let s := DiscoveryService.run (DiscoveryService.constructor 30000)
             [DiscoveryService.EvRegister "s1" "10.0.0.1" Scenario.alice
                1000 1000 "abc" 0%nat] in
  let s' := DiscoveryService.on_peer_register "s1" "10.0.0.1" Scenario.alice
              5000 5000 "xyz" 1%nat s in
  ∃ old,
    getPeerBySocket "s1" (DiscoveryService.peerRegistry s) = Some old
    ∧ peer_id old ≠ "peer_" +:+ pretty 5000 +:+ "_" +:+ "xyz"
    ∧ getPeer (peer_id old) (DiscoveryService.peerRegistry s') = None.
Proof.
  intros s s'. eexists.
  assert (Hold : getPeerBySocket "s1" (DiscoveryService.peerRegistry s)
                 = Some (mkPeer Scenario.aliceId "s1" "10.0.0.1" ["general"]
                           1000 (Some "alice") (Some "pk")))
    by (vm_compute; reflexivity).
  assert (Hne : peer_id (mkPeer Scenario.aliceId "s1" "10.0.0.1" ["general"]
                           1000 (Some "alice") (Some "pk"))
                ≠ "peer_" +:+ pretty 5000 +:+ "_" +:+ "xyz")
    by (vm_compute; discriminate).
  split; [exact Hold|]. split; [exact Hne|].
  exact (proj1 (proj2 (register_rebinds_socket 30000
                         [DiscoveryService.EvRegister "s1" "10.0.0.1"
                            Scenario.alice 1000 1000 "abc" 0%nat]
                         "s1" "10.0.0.1" Scenario.alice 5000 5000 "xyz" 1%nat))
           _ Hold Hne).
Defined.
End Reachable.

Section DiscoverAndRelay.
Import PeerRegistryManager.

Lemma NoDup_fmap_omap {A B : Type} (f : A → option B) (g : B → A)
    (l : list A) :
  (∀ x y, f x = Some y → g y = x) → NoDup l → NoDup (g <$> omap f l).
Proof.
  intros Hfg. induction l as [|a l IH]; simpl; intros Hnd; [constructor|].
  apply NoDup_cons in Hnd as [Ha Hnd].
  destruct (f a) as [b|] eqn:Hfa; simpl; [|by apply IH].
  apply NoDup_cons. split; [|by apply IH].
  intros (y & Hy & Hin)%list_elem_of_fmap.
  apply list_elem_of_omap in Hin as (x & Hx & Hfx).
  apply Hfg in Hfa, Hfx. congruence.
Qed.

(** X22. On every state the service reaches, [getPeersInRoom] answers
    with registered peers only, each of them a member of the room and
    none of them twice; for a room that does not exist the answer is
    empty. *)
Theorem getPeersInRoom_registered_members (interval : Z)
    (es : list DiscoveryService.Event) (roomId : string) :
  let reg := DiscoveryService.peerRegistry
               (DiscoveryService.run (DiscoveryService.constructor interval) es) in
  (rooms reg !! roomId = None → getPeersInRoom roomId reg = [])
  ∧ (∀ p, p ∈ getPeersInRoom roomId reg →
          getPeer (peer_id p) reg = Some p
          ∧ ∃ room, rooms reg !! roomId = Some room
                    ∧ peer_id p ∈ rd_peers room)
  ∧ NoDup (peer_id <$> getPeersInRoom roomId reg).
Proof.
  intros reg. destruct (registry_kept_run interval es) as [[Hp _] Hr].
  fold reg in Hp, Hr. clearbody reg.
  assert (Hkey : ∀ x y, getPeer x reg = Some y → peer_id y = x).
  { intros x y. unfold getPeer.
    destruct (peers reg !! x) as [pd|] eqn:Hpd; [|done].
    intros [= <-]. by destruct (Hp _ _ Hpd) as (_ & ? & _). }
  unfold getPeersInRoom.
  destruct (rooms reg !! roomId) as [room|] eqn:Hroom.
  - split; [done|]. split.
    + intros p (x & Hx & Hget)%list_elem_of_omap.
      pose proof (Hkey _ _ Hget) as ->. split; [done|]. by exists room.
    + apply NoDup_fmap_omap; [exact Hkey|]. by destruct (Hr _ _ Hroom) as (_&_&?).
  - split; [done|]. split; [by intros p ?%elem_of_nil|constructor].
Qed.

(** X23. On every state the service reaches, a signal addressed to a
    registered peer is emitted to the socket that peer registered on:
    lookup by the socket the relay uses finds the addressed peer, and
    the relayed signal keeps its sender, addressee, kind and payload. *)
Theorem relay_reaches_bound_socket (interval : Z)
    (es : list DiscoveryService.Event) (signal : WebRTCSignal) (now : Z)
    (target : Peer) :
  let s := DiscoveryService.run (DiscoveryService.constructor interval) es in
  let s' := DiscoveryService.on_webrtc_signal signal now s in
  getPeer (sig_to signal) (DiscoveryService.peerRegistry s) = Some target →
  peer_id target = sig_to signal
  ∧ getPeerBySocket (peer_socketId target) (DiscoveryService.peerRegistry s)
    = Some target
  ∧ ∃ relayed,
      DiscoveryService.effects s'
      = DiscoveryService.effects s
        ++ [IoToEmit (peer_socketId target) (webrtc_signal relayed)]
      ∧ sig_from relayed = sig_from signal
      ∧ sig_to relayed = peer_id target
      ∧ sig_type relayed = sig_type signal
      ∧ sig_data relayed = sig_data signal
      ∧ sig_timestamp relayed = now.
Proof.
  intros s s' Hget.
  destruct (registry_kept_run interval es) as [Hidx _]. fold s in Hidx.
  clearbody s. subst s'.
  unfold DiscoveryService.on_webrtc_signal. rewrite Hget.
  unfold getPeer in Hget.
  destruct (peers (DiscoveryService.peerRegistry s) !! sig_to signal)
    as [pd|] eqn:Hpd; [|done].
  injection Hget as <-.
  pose proof (indexed_lookup_by_socket _ _ _ Hidx Hpd) as Hsock.
  destruct Hidx as [Hp _]. destruct (Hp _ _ Hpd) as (_ & Hid & Hsid & _).
  split; [done|]. split; [by rewrite Hsid|].
  eexists. split; [done|]. by rewrite Hid.
Qed.

Lemma relay_reaches_bound_socket_witness :
  ∃ target,
    getPeer (sig_to Scenario.offer)
      (DiscoveryService.peerRegistry
         (DiscoveryService.run (DiscoveryService.constructor 30000)
            [DiscoveryService.EvRegister "s1" "10.0.0.1" Scenario.alice
               1000 1000 "abc" 0%nat])) = Some target
    ∧ peer_id target = sig_to Scenario.offer.
Proof.
  eexists.
  assert (Hget : getPeer (sig_to Scenario.offer)
      (DiscoveryService.peerRegistry
         (DiscoveryService.run (DiscoveryService.constructor 30000)
            [DiscoveryService.EvRegister "s1" "10.0.0.1" Scenario.alice
               1000 1000 "abc" 0%nat]))
      = Some (mkPeer Scenario.aliceId "s1" "10.0.0.1" ["general"]
                1000 (Some "alice") (Some "pk")))
    by (vm_compute; reflexivity).
  split; [exact Hget|].
  exact (proj1 (relay_reaches_bound_socket 30000 _ Scenario.offer 7 _ Hget)).
Defined.
End DiscoverAndRelay.

(** ** Tearing down connections *)

Section Teardown.
Import WebRTCClient.
Context {Conn CState Data : Type}.
Implicit Types (ss : Session Conn CState).

(** X24. After [closePeerConnection(p)] the client holds nothing for
    [p]: no data channel, no connection, no connection state and no
    initiator flag, so [isConnected(p)] is false and [sendMessage] to
    [p] returns false and changes nothing.  What the client holds for
    any other peer is untouched. *)
Theorem closePeerConnection_clears_peer ss (peerId : string)
    (withTimestamp : Data → Z → Data) (stringify : Data → Completion string)
    (data : Data) (now : Z) :
  let ss' := closePeerConnection peerId ss in
  isConnected peerId (client ss') = false
  ∧ sendMessage withTimestamp stringify peerId data now (client ss')
    = (Normal false, client ss')
  ∧ JsMap.has peerId (connections ss') = false
  ∧ connectionStates ss' !! peerId = None
  ∧ isInitiator ss' !! peerId = None
  ∧ ∀ q, q ≠ peerId →
         dataChannels (client ss') !! q = dataChannels (client ss) !! q
         ∧ isConnected q (client ss') = isConnected q (client ss)
         ∧ JsMap.get q (connections ss') = JsMap.get q (connections ss)
         ∧ connectionStates ss' !! q = connectionStates ss !! q
         ∧ isInitiator ss' !! q = isInitiator ss !! q.
Proof.
  intros ss'. subst ss'. unfold closePeerConnection, isConnected, sendMessage.
  cbn [client connections connectionStates isInitiator dataChannels].
  rewrite !lookup_delete_eq.
  split; [done|]. split; [done|]. split.
  { unfold JsMap.has. by rewrite JsMap_get_delete, String.eqb_refl. }
  split; [done|]. split; [done|].
  intros q Hq. rewrite !lookup_delete_ne by done.
  rewrite JsMap_get_delete.
  by destruct (String.eqb_spec q peerId).
Qed.

Lemma close_fold_channels (l : list string) ss (q : string) :
  dataChannels (client (foldl (fun acc p => closePeerConnection p acc) ss l))
    !! q
  = if decide (q ∈ l) then None else dataChannels (client ss) !! q.
Proof.
  revert ss. induction l as [|p l IH]; intros ss.
  - destruct (decide (q ∈ [])) as [Hin|_]; [by apply elem_of_nil in Hin|done].
  - cbn [foldl]. rewrite IH. cbn [closePeerConnection client dataChannels].
    destruct (decide (q ∈ l)) as [Hin|Hnin];
      destruct (decide (q ∈ p :: l)) as [Hin'|Hnin']; try done.
    + destruct Hnin'. by right.
    + apply elem_of_cons in Hin' as [->|?]; [|done]. apply lookup_delete_eq.
    + apply lookup_delete_ne. intros ->. apply Hnin'. left.
Qed.

Lemma close_fold_states (l : list string) ss (q : string) :
  connectionStates (foldl (fun acc p => closePeerConnection p acc) ss l) !! q
  = if decide (q ∈ l) then None else connectionStates ss !! q.
Proof.
  revert ss. induction l as [|p l IH]; intros ss.
  - destruct (decide (q ∈ [])) as [Hin|_]; [by apply elem_of_nil in Hin|done].
  - cbn [foldl]. rewrite IH. cbn [closePeerConnection connectionStates].
    destruct (decide (q ∈ l)) as [Hin|Hnin];
      destruct (decide (q ∈ p :: l)) as [Hin'|Hnin']; try done.
    + destruct Hnin'. by right.
    + apply elem_of_cons in Hin' as [->|?]; [|done]. apply lookup_delete_eq.
    + apply lookup_delete_ne. intros ->. apply Hnin'. left.
Qed.

Lemma close_fold_connections (l : list string) ss :
  connections (foldl (fun acc p => closePeerConnection p acc) ss l)
  = foldl (fun m p => JsMap.delete p m) (connections ss) l.
Proof.
  revert ss. induction l as [|p l IH]; intros ss; [done|].
  cbn [foldl]. by rewrite IH.
Qed.

Lemma JsMap_all_deleted {V : Type} (m : JsMap.t V) :
  foldl (fun acc p => JsMap.delete p acc) m (JsMap.keys m) = [].
Proof.
  destruct (foldl (fun acc p => JsMap.delete p acc) m (JsMap.keys m))
    as [|[k v] rest] eqn:Hres; [done|].
  assert (Hget : JsMap.get k
                   (foldl (fun acc p => JsMap.delete p acc) m (JsMap.keys m))
                 = Some v)
    by (rewrite Hres; simpl; by rewrite String.eqb_refl).
  rewrite JsMap_get_fold_delete in Hget.
  destruct (decide (k ∈ JsMap.keys m)) as [|Hnin]; [done|].
  apply JsMap_get_None in Hnin. congruence.
Qed.

(** X25. [closeAllConnections] closes the peers that have a connection
    entry: afterwards there is no connection left and the buffer pool is
    empty, and every such peer has no data channel and no connection
    state.  A data channel filed under a peer without a connection
    entry is not closed and stays in place. *)
Theorem closeAllConnections_closes_connected ss :
  let ss' := closeAllConnections ss in
  connections ss' = []
  ∧ messagePool ss' = []
  ∧ (∀ p, p ∈ JsMap.keys (connections ss) →
          isConnected p (client ss') = false
          ∧ dataChannels (client ss') !! p = None
          ∧ connectionStates ss' !! p = None)
  ∧ (∀ q, q ∉ JsMap.keys (connections ss) →
          dataChannels (client ss') !! q = dataChannels (client ss) !! q
          ∧ isConnected q (client ss') = isConnected q (client ss)).
Proof.
  intros ss'. subst ss'. unfold closeAllConnections.
  cbn [connections messagePool client connectionStates].
  split; [rewrite close_fold_connections; apply JsMap_all_deleted|].
  split; [done|]. split.
  - intros p Hp. unfold isConnected.
    rewrite close_fold_channels, close_fold_states.
    by rewrite !decide_True by done.
  - intros q Hq. unfold isConnected. rewrite close_fold_channels.
    by rewrite decide_False by done.
Qed.

End Teardown.

Lemma closeAllConnections_closes_connected_witness :
  "p1" ∈ JsMap.keys (WebRTCClient.connections Scenario.session)
  ∧ WebRTCClient.isConnected "p1" (WebRTCClient.client Scenario.session)
    = true
  ∧ WebRTCClient.isConnected "p1"
      (WebRTCClient.client (WebRTCClient.closeAllConnections Scenario.session))
    = false.
Proof.
  assert (Hin : "p1" ∈ JsMap.keys (WebRTCClient.connections Scenario.session))
    by (vm_compute; left).
  split; [exact Hin|]. split; [reflexivity|].
  exact (proj1 (proj1 (proj2 (proj2
           (closeAllConnections_closes_connected Scenario.session)))
           "p1" Hin)).
Defined.

(** ** Reconnect delay *)

(** X26. [attemptReconnect] gives up exactly when the attempt counter
    has reached the configured maximum.  Otherwise it waits 1000 ms
    doubled once per earlier attempt and capped at 30 000 ms: 1000,
    2000, 4000, 8000, 16000 and from the sixth attempt on 30000; the
    delay never shrinks as attempts accumulate. *)
Theorem attemptReconnect_backoff (attempts : nat) (maxAttempts : Z) :
  (PeerDiscovery.attemptReconnect attempts maxAttempts = None
   ↔ maxAttempts <= Z.of_nat attempts)
  ∧ ∀ delay,
      PeerDiscovery.attemptReconnect attempts maxAttempts = Some delay →
      1000 <= delay <= 30000
      ∧ ((attempts ≤ 4)%nat → delay = 1000 * 2 ^ Z.of_nat attempts)
      ∧ ((5 ≤ attempts)%nat → delay = 30000)
      ∧ ∀ later delay',
          (attempts ≤ later)%nat →
          PeerDiscovery.attemptReconnect later maxAttempts = Some delay' →
          delay <= delay'.
Proof.
  unfold PeerDiscovery.attemptReconnect. split.
  - destruct (Z.geb_spec (Z.of_nat attempts) maxAttempts); split; (done || lia).
  - intros delay.
    destruct (Z.geb_spec (Z.of_nat attempts) maxAttempts); [done|].
    intros [= <-].
    assert (Hpow : 1 <= 2 ^ Z.of_nat attempts)
      by (apply (Z.pow_le_mono_r 2 0); lia).
    split; [lia|]. split; [|split].
    + intros Hle.
      assert (Hb : 2 ^ Z.of_nat attempts <= 2 ^ 4)
        by (apply Z.pow_le_mono_r; lia).
      change (2 ^ 4) with 16 in Hb. lia.
    + intros Hge.
      assert (Hb : 2 ^ 5 <= 2 ^ Z.of_nat attempts)
        by (apply Z.pow_le_mono_r; lia).
      change (2 ^ 5) with 32 in Hb. lia.
    + intros later delay' Hlater.
      destruct (Z.geb_spec (Z.of_nat later) maxAttempts); [done|].
      intros [= <-].
      assert (Hb : 2 ^ Z.of_nat attempts <= 2 ^ Z.of_nat later)
        by (apply Z.pow_le_mono_r; lia).
      lia.
Qed.

Lemma attemptReconnect_backoff_witness :
  PeerDiscovery.attemptReconnect 3 10 = Some 8000
  ∧ 1000 <= 8000 <= 30000.
Proof.
  assert (H : PeerDiscovery.attemptReconnect 3 10 = Some 8000) by reflexivity.
  split; [exact H|].
  exact (proj1 (proj2 (attemptReconnect_backoff 3 10) 8000 H)).
Defined.

(** ** What a send changes *)

(** X27. A send that returns false has changed nothing, whatever made
    it fail (no channel, channel not open, payload without a JSON text,
    or the channel's [send] throwing): nothing is logged as sent and the
    byte counter is as before.  A send that returns true has handed
    exactly one buffer to the channel, the JSON text of the payload
    stamped with the current time, and has added that buffer's length to
    the byte counter; the channel table is never changed by a send. *)
Theorem sendMessage_all_or_nothing {Data : Type}
    (withTimestamp : Data → Z → Data) (stringify : Data → Completion string)
    (st : WebRTCClient.t) (peerId : string) (data : Data) (now : Z) :
  let r := WebRTCClient.sendMessage withTimestamp stringify peerId data now st in
  (fst r = Normal false → snd r = st)
  ∧ (fst r = Normal true →
     ∃ buffer,
       stringify (withTimestamp data now) = Normal buffer
       ∧ WebRTCClient.sent (snd r) = WebRTCClient.sent st ++ [(peerId, buffer)]
       ∧ WebRTCClient.dataTransferredBytes (snd r)
         = WebRTCClient.dataTransferredBytes st
           + Z.of_nat (String.length buffer))
  ∧ WebRTCClient.dataChannels (snd r) = WebRTCClient.dataChannels st.
Proof.
  intros r. subst r. unfold WebRTCClient.sendMessage.
  destruct (WebRTCClient.dataChannels st !! peerId) as [ch|]; [|by simpl].
  destruct (negb (is_open (readyState ch))); [by simpl|].
  unfold WebRTCClient.try_catch, mbind, WebRTCClient.M_bind, WebRTCClient.bind,
    WebRTCClient.serializeMessage, WebRTCClient.lift, WebRTCClient.send,
    WebRTCClient.recordDataTransfer, mret, WebRTCClient.M_ret, WebRTCClient.ret,
    WebRTCClient.byteLength.
  destruct (stringify (withTimestamp data now)) as [buffer|err]; [|by simpl].
  destruct (channel_send ch buffer) as [[]|err]; simpl.
  - split; [done|]. split; [|done]. intros _. by exists buffer.
  - done.
Qed.

Lemma sendMessage_all_or_nothing_witness :
  fst (WebRTCClient.sendMessage Scenario.stampText Scenario.jsonText
         "p1" "hello" 42 Scenario.client) = Normal true
  ∧ ∃ buffer,
      Scenario.jsonText (Scenario.stampText "hello" 42) = Normal buffer
      ∧ WebRTCClient.sent
          (snd (WebRTCClient.sendMessage Scenario.stampText Scenario.jsonText
                  "p1" "hello" 42 Scenario.client))
        = WebRTCClient.sent Scenario.client ++ [("p1", buffer)]
      ∧ WebRTCClient.dataTransferredBytes
          (snd (WebRTCClient.sendMessage Scenario.stampText Scenario.jsonText
                  "p1" "hello" 42 Scenario.client))
        = WebRTCClient.dataTransferredBytes Scenario.client
          + Z.of_nat (String.length buffer).
Proof.
  assert (H : fst (WebRTCClient.sendMessage Scenario.stampText
                     Scenario.jsonText "p1" "hello" 42 Scenario.client)
              = Normal true) by (vm_compute; reflexivity).
  split; [exact H|].
  exact (proj1 (proj2 (sendMessage_all_or_nothing Scenario.stampText
                         Scenario.jsonText Scenario.client "p1" "hello" 42))
           H).
Defined.

(** ** Joining and leaving a room *)

Section JoinLeave.
Import PeerRegistryManager.

Lemma addPeerToRoom_room (now : Z) (peerId roomId : string) (reg : t) :
  ∃ room,
    rooms (addPeerToRoom now peerId roomId reg) !! roomId = Some room
    ∧ rd_peers room
      = JsSet.add peerId
          (match rooms reg !! roomId with
           | Some room0 => rd_peers room0
           | None => []
           end)
    ∧ ∀ r, r ≠ roomId →
           rooms (addPeerToRoom now peerId roomId reg) !! r = rooms reg !! r.
Proof.
  unfold addPeerToRoom.
  destruct (rooms reg !! roomId) as [room0|] eqn:Hroom.
  - rewrite Hroom. simpl. eexists. split; [apply lookup_insert_eq|].
    split; [done|]. intros r Hr. by apply lookup_insert_ne.
  - simpl. rewrite lookup_insert_eq. simpl. eexists.
    split; [apply lookup_insert_eq|]. split; [done|].
    intros r Hr. by rewrite !lookup_insert_ne.
Qed.

(** X28. [join_room] from the socket of a registered peer makes the
    peer a member of the room, creating the room if it does not exist;
    the room's other members and all other rooms are as before, the
    peer is then found by [getPeersInRoom], and the room's other members
    are sent [peer_joined].  The registered peers themselves are not
    touched: the room is not added to the peer's own list of rooms. *)
Theorem join_room_adds_member (interval : Z)
    (es : list DiscoveryService.Event) (socketId roomId : string) (now : Z)
    (peer : Peer) :
  let s := DiscoveryService.run (DiscoveryService.constructor interval) es in
  let s' := DiscoveryService.on_join_room socketId roomId now s in
  let reg := DiscoveryService.peerRegistry s in
  let reg' := DiscoveryService.peerRegistry s' in
  getPeerBySocket socketId reg = Some peer →
  (∃ room,
     rooms reg' !! roomId = Some room
     ∧ ∀ x, x ∈ rd_peers room ↔
            x = peer_id peer
            ∨ ∃ room0, rooms reg !! roomId = Some room0 ∧ x ∈ rd_peers room0)
  ∧ (∀ r, r ≠ roomId → rooms reg' !! r = rooms reg !! r)
  ∧ peer ∈ getPeersInRoom roomId reg'
  ∧ peers reg' = peers reg
  ∧ getPeer (peer_id peer) reg' = Some peer
  ∧ DiscoveryService.effects s'
    = DiscoveryService.effects s
      ++ [SocketJoin socketId roomId;
          SocketToRoomEmit socketId roomId (peer_joined peer)].
Proof.
  intros s s' reg reg' Hget.
  destruct (registry_kept_run interval es) as [Hidx _].
  fold s reg in Hidx. subst reg' s'. clearbody s. subst reg.
  destruct (indexed_getPeerBySocket _ _ _ Hidx Hget) as (pd & _ & Hpd & Hpeer).
  unfold DiscoveryService.on_join_room. rewrite Hget.
  cbn [DiscoveryService.update DiscoveryService.peerRegistry
         DiscoveryService.effects].
  destruct (addPeerToRoom_room now (peer_id peer) roomId
              (DiscoveryService.peerRegistry s)) as (room & Hroom & Hmem & Hothers).
  destruct (same_peers_addPeerToRoom now (peer_id peer) roomId
              (DiscoveryService.peerRegistry s)) as [Ep _].
  assert (Hin : peer_id peer ∈ rd_peers room)
    by (rewrite Hmem; apply JsSet_add_elem; by left).
  assert (Hstill : getPeer (peer_id peer)
                     (addPeerToRoom now (peer_id peer) roomId
                        (DiscoveryService.peerRegistry s)) = Some peer)
    by (unfold getPeer; rewrite Ep, Hpd; simpl; by rewrite Hpeer).
  split.
  { exists room. split; [done|]. intros x. rewrite Hmem, JsSet_add_elem.
    destruct (rooms (DiscoveryService.peerRegistry s) !! roomId) as [room0|].
    - split; intros [?|H]; auto; [right; by exists room0|].
      destruct H as (r0 & [= <-] & ?). by right.
    - split; intros [?|H]; auto; [by apply elem_of_nil in H|].
      by destruct H as (? & ? & _). }
  split; [done|]. split.
  { unfold getPeersInRoom. rewrite Hroom. apply list_elem_of_omap.
    by exists (peer_id peer). }
  done.
Qed.

Lemma join_room_adds_member_witness :
  let s := DiscoveryService.run (DiscoveryService.constructor 30000)
             [DiscoveryService.EvRegister "s1" "10.0.0.1" Scenario.alice
                1000 1000 "abc" 0%nat] in
  ∃ peer,
    getPeerBySocket "s1" (DiscoveryService.peerRegistry s) = Some peer
    ∧ peer ∈ getPeersInRoom "ops"
               (DiscoveryService.peerRegistry
                  (DiscoveryService.on_join_room "s1" "ops" 2000 s))
    ∧ peer_rooms peer = ["general"].
Proof.
  intros s. eexists.
  assert (Hget : getPeerBySocket "s1" (DiscoveryService.peerRegistry s)
                 = Some (mkPeer Scenario.aliceId "s1" "10.0.0.1" ["general"]
                           1000 (Some "alice") (Some "pk")))
    by (vm_compute; reflexivity).
  split; [exact Hget|]. split; [|reflexivity].
  exact (proj1 (proj2 (proj2 (join_room_adds_member 30000 _ "s1" "ops" 2000
                                _ Hget)))).
Defined.

(** X29. [leave_room] from the socket of a registered peer removes the
    peer from the room's member set and from nothing else: afterwards no
    room lists the peer that did not list it before, the room left does
    not list it, every other member of every room is still a member,
    unless the room was a "temp_" room that became empty and was
    deleted; the room's remaining members are sent [peer_left]. *)
Theorem leave_room_removes_member (interval : Z)
    (es : list DiscoveryService.Event) (socketId roomId : string)
    (peer : Peer) :
  let s := DiscoveryService.run (DiscoveryService.constructor interval) es in
  let s' := DiscoveryService.on_leave_room socketId roomId s in
  let reg := DiscoveryService.peerRegistry s in
  let reg' := DiscoveryService.peerRegistry s' in
  getPeerBySocket socketId reg = Some peer →
  (∀ room, rooms reg' !! roomId = Some room → peer_id peer ∉ rd_peers room)
  ∧ (∀ r room' x,
       rooms reg' !! r = Some room' → x ∈ rd_peers room' →
       ∃ room, rooms reg !! r = Some room ∧ x ∈ rd_peers room)
  ∧ (∀ r room x,
       rooms reg !! r = Some room → x ∈ rd_peers room →
       (r = roomId → x ≠ peer_id peer) →
       ∃ room', rooms reg' !! r = Some room' ∧ x ∈ rd_peers room')
  ∧ (rooms reg' !! roomId = None →
     rooms reg !! roomId = None
     ∨ String.prefix "temp_" roomId = true)
  ∧ peers reg' = peers reg
  ∧ DiscoveryService.effects s'
    = DiscoveryService.effects s
      ++ [SocketLeave socketId roomId;
          SocketToRoomEmit socketId roomId (peer_left (peer_id peer))].
Proof.
  intros s s' reg reg' Hget. subst reg' s' reg. clearbody s.
  unfold DiscoveryService.on_leave_room. rewrite Hget.
  cbn [DiscoveryService.update DiscoveryService.peerRegistry
         DiscoveryService.effects].
  split.
  { intros room Hr Hin.
    by destruct (removePeerFromRoom_members _ _ _ _ _ _ Hr Hin) as [_ Hne];
      apply Hne. }
  split.
  { intros r room' x Hr Hin.
    by destruct (removePeerFromRoom_members _ _ _ _ _ _ Hr Hin). }
  split.
  { intros r room x Hr Hin Hkeep. unfold removePeerFromRoom.
    destruct (rooms (DiscoveryService.peerRegistry s) !! roomId)
      as [room0|] eqn:Hroom; [|by exists room].
    destruct (decide (r = roomId)) as [->|Hne].
    - assert (room0 = room) as -> by congruence.
      assert (Hx : x ∈ JsSet.delete (peer_id peer) (rd_peers room))
        by (apply JsSet_delete_elem; auto).
      destruct (JsSet.size _ =? 0) eqn:Hsize; simpl.
      + apply Z.eqb_eq in Hsize. unfold JsSet.size in Hsize.
        destruct (JsSet.delete (peer_id peer) (rd_peers room));
          [by apply elem_of_nil in Hx|simpl in Hsize; lia].
      + eexists. split; [apply lookup_insert_eq|done].
    - destruct (_ && _); simpl.
      + exists room. by rewrite lookup_delete_ne.
      + exists room. by rewrite lookup_insert_ne. }
  split.
  { unfold removePeerFromRoom.
    destruct (rooms (DiscoveryService.peerRegistry s) !! roomId)
      as [room0|] eqn:Hroom; [|by left].
    destruct (String.prefix "temp_" roomId); [by right|].
    rewrite andb_false_r. simpl. by rewrite lookup_insert_eq. }
  split; [|done]. apply same_peers_removePeerFromRoom.
Qed.

Lemma leave_room_removes_member_witness :
  let s := DiscoveryService.run (DiscoveryService.constructor 30000)
             [DiscoveryService.EvRegister "s1" "10.0.0.1" Scenario.alice
                1000 1000 "abc" 0%nat] in
  ∃ peer,
    getPeerBySocket "s1" (DiscoveryService.peerRegistry s) = Some peer
    ∧ ∀ room,
        rooms (DiscoveryService.peerRegistry
                 (DiscoveryService.on_leave_room "s1" "general" s))
          !! "general" = Some room →
        peer_id peer ∉ rd_peers room.
Proof.
  intros s. eexists.
  assert (Hget : getPeerBySocket "s1" (DiscoveryService.peerRegistry s)
                 = Some (mkPeer Scenario.aliceId "s1" "10.0.0.1" ["general"]
                           1000 (Some "alice") (Some "pk")))
    by (vm_compute; reflexivity).
  split; [exact Hget|].
  exact (proj1 (leave_room_removes_member 30000 _ "s1" "general" _ Hget)).
Defined.
End JoinLeave.
